(** * The external scanner of the Unison tree-sitter grammar

    A shallow embedding of [src/scanner.c]: the indent stack with its
    growth macros, the host lexer handle, the character classifiers, the
    three-valued [Result], every recogniser and dispatch pipeline, and the
    five functions of the C ABI.  Unsigned C arithmetic is written with its
    wrap-around; every [for (;;)] loop is a fixpoint on a fuel counter that
    the calling definition sets from the length of the remaining input. *)

From Stdlib Require Import Ascii String ZArith List Bool Lia.
Import ListNotations.
Local Open Scope Z_scope.

(** ** Characters and machine integers *)

(** The code point of an ASCII character literal. *)
Definition chr (a : ascii) : Z := Z.of_nat (nat_of_ascii a).
Arguments chr a%_char.

(** The code points of a C string literal. *)
Definition codes (s : string) : list Z := map chr (list_ascii_of_string s).

Definition TAB : Z := 9.   (* '\t' *)
Definition LF : Z := 10.   (* '\n' *)
Definition VT : Z := 11.   (* '\v' *)
Definition FF : Z := 12.   (* '\f' *)
Definition CR : Z := 13.   (* '\r' *)

(** Conversion to [uint16_t] and to [uint32_t] / [unsigned]. *)
Definition wrap16 (z : Z) : Z := z mod 65536.
Definition wrap32 (z : Z) : Z := z mod 4294967296.

Definition MAX (a b : Z) : Z := if a >? b then a else b.

(** ** Symbols *)

Inductive Sym : Set :=
| SEMICOLON | START | END | DOT | WHERE | VARSYM | COMMENT | FOLD
| COMMA | IN | INDENT | EMPTY | FAIL.

Definition Sym_eqb (a b : Sym) : bool :=
  match a, b with
  | SEMICOLON, SEMICOLON | START, START | END, END | DOT, DOT
  | WHERE, WHERE | VARSYM, VARSYM | COMMENT, COMMENT | FOLD, FOLD
  | COMMA, COMMA | IN, IN | INDENT, INDENT | EMPTY, EMPTY | FAIL, FAIL => true
  | _, _ => false
  end.

(** The symbols [all_syms] visits: [for (int i = 0; i <= EMPTY; i++)]. *)
Definition upto_EMPTY : list Sym :=
  [SEMICOLON; START; END; DOT; WHERE; VARSYM; COMMENT; FOLD; COMMA; IN;
   INDENT; EMPTY].

Definition all_syms (syms : Sym -> bool) : bool := forallb syms upto_EMPTY.

(** ** The indent stack *)

(** [indent_vec]: [len] and [cap] are [uint32_t], [data] is the allocated
    array of [cap] cells of [uint16_t]. *)
Record indent_vec : Set := mk_vec { len : Z; cap : Z; data : list Z }.

(** [realloc]: the first cells are kept; the model fills the fresh cells,
    whose content C leaves unspecified, with 0. *)
Definition realloc (cells : list Z) (n : Z) : list Z :=
  firstn (Z.to_nat n) cells ++ repeat 0 (Z.to_nat n - length cells)%nat.

(** [cells[i] = x].  A write past the allocation is undefined in C; the
    model leaves the array as it is. *)
Fixpoint store (cells : list Z) (i : nat) (x : Z) : list Z :=
  match cells, i with
  | [], _ => []
  | _ :: r, O => x :: r
  | c :: r, S j => c :: store r j x
  end.

Definition VEC_RESIZE (vec : indent_vec) (_cap : Z) : indent_vec :=
  {| len := len vec; cap := _cap; data := realloc (data vec) _cap |}.

Definition VEC_GROW (vec : indent_vec) (_cap : Z) : indent_vec :=
  if cap vec <? _cap then VEC_RESIZE vec _cap else vec.

Definition VEC_PUSH (vec : indent_vec) (el : Z) : indent_vec :=
  let vec := if cap vec =? len vec
             then VEC_RESIZE vec (MAX 20 (wrap32 (len vec * 2)))
             else vec in
  {| len := wrap32 (len vec + 1);
     cap := cap vec;
     data := store (data vec) (Z.to_nat (len vec)) el |}.

Definition VEC_POP (vec : indent_vec) : indent_vec :=
  {| len := wrap32 (len vec - 1); cap := cap vec; data := data vec |}.

(** [data[len - 1]]; every caller tests [indent_exists] first. *)
Definition VEC_BACK (vec : indent_vec) : Z :=
  nth (Z.to_nat (len vec - 1)) (data vec) 0.

(** The live entries of the stack, bottom first. *)
Definition entries (vec : indent_vec) : list Z :=
  firstn (Z.to_nat (len vec)) (data vec).

(** What the C types and the macros maintain: [len <= cap], both are
    [uint32_t], [cap] cells are allocated, every cell is a [uint16_t]. *)
Definition vec_wf (vec : indent_vec) : Prop :=
  0 <= len vec <= cap vec /\
  cap vec < 4294967296 /\
  Z.of_nat (length (data vec)) = cap vec /\
  Forall (fun e => 0 <= e < 65536) (data vec).

(** ** The host lexer *)

(** Modelled from the spec: the host lexer handle [TSLexer], declared in
    [tree_sitter/parser.h], which is not part of the sources.  It offers the
    lookahead code point (0 at end of input), [advance] with its skip flag,
    the column of the current position, [eof], [mark_end] and the
    [result_symbol] output.  [input] holds the code points not yet consumed,
    [position] counts the consumed ones, [col] is the column [get_column]
    reports (0 after a line feed, one more after any other code point),
    [token_start] follows the skipped ones and [marked] is the position
    last fixed by [mark_end]. *)
Record TSLexer : Set := mk_lexer {
  input : list Z;
  position : Z;
  col : Z;
  token_start : Z;
  marked : option Z;
  result_symbol : option Sym
}.

Definition lookahead (l : TSLexer) : Z := hd 0 (input l).

Definition lexer_eof (l : TSLexer) : bool :=
  match input l with [] => true | _ :: _ => false end.

Definition lexer_advance (l : TSLexer) (skip : bool) : TSLexer :=
  match input l with
  | [] => l
  | c :: rest =>
      {| input := rest;
         position := position l + 1;
         col := if c =? LF then 0 else col l + 1;
         token_start := if skip then position l + 1 else token_start l;
         marked := marked l;
         result_symbol := result_symbol l |}
  end.

Definition lexer_mark_end (l : TSLexer) : TSLexer :=
  {| input := input l; position := position l; col := col l;
     token_start := token_start l; marked := Some (position l);
     result_symbol := result_symbol l |}.

Definition lexer_get_column (l : TSLexer) : Z := col l.

Definition set_result_symbol (l : TSLexer) (s : Sym) : TSLexer :=
  {| input := input l; position := position l; col := col l;
     token_start := token_start l; marked := marked l;
     result_symbol := Some s |}.

(** ** State *)

Record State : Type := mk_state {
  lexer : TSLexer;
  symbols : Sym -> bool;
  indents : indent_vec
}.

Definition with_lexer (state : State) (l : TSLexer) : State :=
  {| lexer := l; symbols := symbols state; indents := indents state |}.

Definition with_indents (state : State) (v : indent_vec) : State :=
  {| lexer := lexer state; symbols := symbols state; indents := v |}.

Definition PEEK (state : State) : Z := lookahead (lexer state).
Definition S_ADVANCE (state : State) : State :=
  with_lexer state (lexer_advance (lexer state) false).
Definition S_SKIP (state : State) : State :=
  with_lexer state (lexer_advance (lexer state) true).
Definition SYM (s : Sym) (state : State) : bool := symbols state s.

Definition is_eof (state : State) : bool := lexer_eof (lexer state).

Definition column (state : State) : Z :=
  if is_eof state then 0 else lexer_get_column (lexer state).

Definition MARK (state : State) : State :=
  with_lexer state (lexer_mark_end (lexer state)).

(** Fuel for the loops of a rule entered in [state]: one more than the
    number of code points left, and every iteration consumes at least one. *)
Definition fuel_of (state : State) : nat := S (length (input (lexer state))).

(** ** Conditions *)

Fixpoint seq (s : list Z) (state : State) : bool * State :=
  match s with
  | [] => (true, state)
  | c :: s' =>
      if negb (c =? PEEK state) then (false, state)
      else seq s' (S_ADVANCE state)
  end.

Definition isws (c : Z) : bool :=
  (c =? chr " ") || (c =? FF) || (c =? LF) || (c =? CR) || (c =? TAB)
  || (c =? VT).

Definition token_end (c : Z) : bool :=
  isws c || (c =? 0) || (c =? chr "(") || (c =? chr ")") || (c =? chr "[")
  || (c =? chr "]").

Definition token (s : list Z) (state : State) : bool * State :=
  let (ok, state) := seq s state in
  (ok && token_end (PEEK state), state).

Definition indent_exists (state : State) : bool :=
  negb (len (indents state) =? 0).

Definition same_indent (indent : Z) (state : State) : bool :=
  indent_exists state && (indent =? VEC_BACK (indents state)).

Definition smaller_indent (indent : Z) (state : State) : bool :=
  indent_exists state && (indent <? VEC_BACK (indents state)).

Definition indent_lesseq (indent : Z) (state : State) : bool :=
  indent_exists state && (indent <=? VEC_BACK (indents state)).

Definition is_newline (c : Z) : bool :=
  (c =? LF) || (c =? CR) || (c =? FF).

Definition after_error (state : State) : bool := all_syms (symbols state).

Definition symbolic (c : Z) : bool :=
  existsb (Z.eqb c) (codes "!#$%&*+./<>?^:=-~@\|").

(** ** Result *)

Record Result : Set := mk_result { sym : Sym; finished : bool }.

Definition res_cont : Result := {| sym := FAIL; finished := false |}.
Definition res_finish (t : Sym) : Result := {| sym := t; finished := true |}.
Definition res_fail : Result := {| sym := FAIL; finished := true |}.

(** A rule of the scanner: it reads and updates the state and yields a
    [Result]. *)
Definition Rule : Type := State -> Result * State.

(** [Result res = p; SHORT_SCANNER; k]. *)
Definition short (p : Result * State) (k : Rule) : Result * State :=
  let (res, state) := p in
  if finished res then (res, state) else k state.

Notation "'SHORT_SCANNER' p ';;' k" := (short p k)
  (at level 10, p at level 200, k at level 200, only parsing).

Definition cont : Rule := fun state => (res_cont, state).
Definition fail : Rule := fun state => (res_fail, state).

(** ** Parser *)

Definition finish (s : Sym) : Rule := fun state => (res_finish s, state).

Definition finish_if_valid (s : Sym) : Rule := fun state =>
  if SYM s state then finish s state else cont state.

Definition push (ind : Z) (state : State) : State :=
  with_indents state (VEC_PUSH (indents state) (wrap16 ind)).

Definition pop (state : State) : State :=
  if indent_exists state
  then with_indents state (VEC_POP (indents state))
  else state.

Fixpoint skipspace_loop (fuel : nat) (state : State) : State :=
  match fuel with
  | O => state
  | S fuel' =>
      if (PEEK state =? chr " ") || (PEEK state =? TAB)
      then skipspace_loop fuel' (S_SKIP state)
      else state
  end.

Definition skipspace (state : State) : State :=
  skipspace_loop (fuel_of state) state.

Definition layout_end : Rule := fun state =>
  if SYM END state then finish END (pop state) else cont state.

Definition end_or_semicolon : Rule := fun state =>
  SHORT_SCANNER layout_end state ;;
  finish_if_valid SEMICOLON.

(** ** Logic *)

Fixpoint count_indent_loop (fuel : nat) (indent : Z) (state : State)
  : Z * State :=
  match fuel with
  | O => (indent, state)
  | S fuel' =>
      if is_newline (PEEK state) then
        count_indent_loop fuel' 0 (S_SKIP state)
      else if PEEK state =? chr " " then
        count_indent_loop fuel' (wrap32 (indent + 1)) (S_SKIP state)
      else if PEEK state =? TAB then
        count_indent_loop fuel' (wrap32 (indent + 8)) (S_SKIP state)
      else (indent, state)
  end.

Definition count_indent (state : State) : Z * State :=
  count_indent_loop (fuel_of state) 0 state.

Definition eof : Rule := fun state =>
  if is_eof state then
    if SYM EMPTY state then finish EMPTY state
    else
      SHORT_SCANNER end_or_semicolon state ;;
      fail
  else cont state.

(** [while (!is_eof(state)) S_ADVANCE;] *)
Fixpoint advance_to_eof_loop (fuel : nat) (state : State) : State :=
  match fuel with
  | O => state
  | S fuel' =>
      if negb (is_eof state)
      then advance_to_eof_loop fuel' (S_ADVANCE state)
      else state
  end.

Definition advance_to_eof (state : State) : State :=
  advance_to_eof_loop (fuel_of state) state.

Definition fold : Rule := fun state =>
  let (ok, state) := seq (codes "---") state in
  if ok then finish FOLD (MARK (advance_to_eof state))
  else cont state.

Definition dedent (indent : Z) : Rule := fun state =>
  if smaller_indent indent state then layout_end state else cont state.

Definition newline_semicolon (indent : Z) : Rule := fun state =>
  if SYM SEMICOLON state && same_indent indent state
  then finish SEMICOLON state
  else cont state.

Definition where_ : Rule := fun state =>
  let (ok, state) := token (codes "where") state in
  if ok then
    if SYM WHERE state then finish WHERE (MARK state)
    else layout_end state
  else cont state.

Definition in_ : Rule := fun state =>
  if SYM IN state then
    let (ok, state) := token (codes "in") state in
    if ok then finish IN (pop (MARK state)) else cont state
  else cont state.

Definition else_ : Rule := fun state =>
  let (ok, state) := token (codes "else") state in
  if ok then layout_end state else cont state.

Fixpoint inline_comment_loop (fuel : nat) (state : State) : State :=
  match fuel with
  | O => state
  | S fuel' =>
      if is_newline (PEEK state) || (PEEK state =? 0) then state
      else inline_comment_loop fuel' (S_ADVANCE state)
  end.

Definition inline_comment : Rule := fun state =>
  finish COMMENT (MARK (inline_comment_loop (fuel_of state) state)).

Definition minus : Rule := fun state =>
  let (ok, state) := seq (codes "--") state in
  if negb ok then cont state
  else if PEEK state =? chr "-" then
    let state := S_ADVANCE state in
    if is_eof state || is_newline (PEEK state) then
      finish FOLD (MARK (advance_to_eof state))
    else fail state
  else inline_comment state.

Definition multiline_comment_success : Rule := fun state =>
  finish COMMENT (MARK state).

(** The loop of [multiline_comment]; [level] is its [uint16_t] counter. *)
Fixpoint multiline_comment_loop (fuel : nat) (level : Z) (state : State)
  : Result * State :=
  match fuel with
  | O => fail state
  | S fuel' =>
      if PEEK state =? chr "{" then
        let state := S_ADVANCE state in
        if PEEK state =? chr "-" then
          multiline_comment_loop fuel' (wrap16 (level + 1)) (S_ADVANCE state)
        else multiline_comment_loop fuel' level state
      else if PEEK state =? chr "-" then
        let state := S_ADVANCE state in
        if PEEK state =? chr "}" then
          let state := S_ADVANCE state in
          if level =? 0 then multiline_comment_success state
          else multiline_comment_loop fuel' (wrap16 (level - 1)) state
        else multiline_comment_loop fuel' level state
      else if PEEK state =? 0 then
        SHORT_SCANNER eof state ;;
        fail
      else multiline_comment_loop fuel' level (S_ADVANCE state)
  end.

Definition multiline_comment : Rule := fun state =>
  multiline_comment_loop (fuel_of state) 0 state.

Definition brace : Rule := fun state =>
  if negb (PEEK state =? chr "{") then fail state
  else
    let state := S_ADVANCE state in
    if negb (PEEK state =? chr "-") then fail state
    else multiline_comment (S_ADVANCE state).

Definition comment : Rule := fun state =>
  if PEEK state =? chr "-" then
    SHORT_SCANNER minus state ;;
    fail
  else if PEEK state =? chr "{" then
    SHORT_SCANNER brace state ;;
    fail
  else cont state.

Definition close_layout_in_list : Rule := fun state =>
  if PEEK state =? chr "]" then
    if SYM END state then finish END (pop state)
    else cont state
  else if PEEK state =? chr "," then
    let state := S_ADVANCE state in
    if SYM COMMA state then finish COMMA (MARK state)
    else
      SHORT_SCANNER layout_end state ;;
      fail
  else cont state.

Definition inline_tokens : Rule := fun state =>
  if PEEK state =? chr "w" then
    SHORT_SCANNER where_ state ;;
    fail
  else if PEEK state =? chr "i" then
    SHORT_SCANNER in_ state ;;
    fail
  else if PEEK state =? chr "e" then
    SHORT_SCANNER else_ state ;;
    fail
  else if PEEK state =? chr ")" then
    SHORT_SCANNER layout_end state ;;
    fail
  else close_layout_in_list state.

Definition layout_start (column : Z) : Rule := fun state =>
  if SYM START state then finish START (push column state)
  else cont state.

Definition post_end_semicolon (column : Z) : Rule := fun state =>
  if SYM SEMICOLON state && indent_lesseq column state
  then finish SEMICOLON state
  else cont state.

Definition repeat_end (column : Z) : Rule := fun state =>
  if SYM END state && smaller_indent column state
  then layout_end state
  else cont state.

Definition newline_indent (indent : Z) : Rule := fun state =>
  SHORT_SCANNER dedent indent state ;;
  fun state =>
  SHORT_SCANNER close_layout_in_list state ;;
  newline_semicolon indent.

Definition newline_token (indent : Z) : Rule := fun state =>
  if PEEK state =? chr "-" then minus state
  else if symbolic (PEEK state) || (PEEK state =? chr "`") then fail state
  else if PEEK state =? chr "i" then in_ state
  else cont state.

Definition newline (indent : Z) : Rule := fun state =>
  SHORT_SCANNER eof state ;;
  fun state =>
  SHORT_SCANNER comment state ;;
  fun state =>
  SHORT_SCANNER newline_token indent state ;;
  newline_indent indent.

Definition immediate (column : Z) : Rule := fun state =>
  SHORT_SCANNER layout_start column state ;;
  fun state =>
  SHORT_SCANNER post_end_semicolon column state ;;
  fun state =>
  SHORT_SCANNER repeat_end column state ;;
  inline_tokens.

(** ** Rules that consult the C library *)

Section Locale.

(** [iswspace] of [<wctype.h>]: the white-space classifier of the C library
    in the locale of the host process.  The C standard makes it hold of the
    six standard white-space characters in every locale, and of them alone
    in the "C" locale. *)
Variable iswspace : Z -> bool.

Definition dot : Rule := fun state =>
  if SYM DOT state then
    if PEEK state =? chr "." then
      let state := S_ADVANCE state in
      if SYM VARSYM state && iswspace (PEEK state) then finish VARSYM state
      else finish DOT (MARK state)
    else cont state
  else cont state.

Definition init : Rule := fun state =>
  SHORT_SCANNER eof state ;;
  fun state =>
  SHORT_SCANNER (if after_error state then fail state else cont state) ;;
  fun state =>
  SHORT_SCANNER dot state ;;
  fun state =>
  if SYM FOLD state then
    SHORT_SCANNER fold state ;;
    cont
  else cont state.

Definition scan_main : Rule := fun state =>
  let state := skipspace state in
  SHORT_SCANNER eof state ;;
  fun state =>
  let state := MARK state in
  if is_newline (PEEK state) then
    let state := S_SKIP state in
    let (indent, state) := count_indent state in
    newline indent state
  else
    let col := column state in
    immediate col state.

Definition scan_all : Rule := fun state =>
  SHORT_SCANNER init state ;;
  scan_main.

(** ** Evaluation *)

Definition eval (chk : Rule) (state : State) : bool * State :=
  let (result, state) := chk state in
  if finished result && negb (Sym_eqb (sym result) FAIL) then
    (true, with_lexer state (set_result_symbol (lexer state) (sym result)))
  else (false, state).

(** ** API *)

(** [calloc(sizeof(indent_vec), 1)]: all fields zero, no cells. *)
Definition tree_sitter_unison_external_scanner_create : indent_vec :=
  {| len := 0; cap := 0; data := [] |}.

(** The call returns its [bool] together with the lexer and the indent
    stack as the call leaves them. *)
Definition tree_sitter_unison_external_scanner_scan
  (indents_v : indent_vec) (lexer_ : TSLexer) (syms : Sym -> bool)
  : bool * TSLexer * indent_vec :=
  let state := {| lexer := lexer_; symbols := syms; indents := indents_v |} in
  let (res, state) := eval scan_all state in
  (res, lexer state, indents state).

End Locale.

(** Modelled from the spec: the host-provided buffer cap
    [TREE_SITTER_SERIALIZATION_BUFFER_SIZE], a macro of the absent
    [tree_sitter/parser.h]; the host library sets it to 1024. *)
Definition TREE_SITTER_SERIALIZATION_BUFFER_SIZE : Z := 1024.

(** The two bytes of a [uint16_t] cell in host byte order (little-endian),
    and the cells a run of bytes denotes. *)
Definition bytes_of_cell (e : Z) : list Z := [e mod 256; (e / 256) mod 256].

Definition bytes_of (cells : list Z) : list Z := flat_map bytes_of_cell cells.

Fixpoint cells_of (bytes : list Z) : list Z :=
  match bytes with
  | lo :: hi :: rest => (lo + 256 * hi) :: cells_of rest
  | _ => []
  end.

(** [memcpy(dst, src, n)] on byte sequences: the first [n] bytes of [dst]
    become those of [src].  Both areas hold at least [n] bytes in a defined
    call. *)
Definition memcpy (dst src : list Z) (n : Z) : list Z :=
  firstn (Z.to_nat n) src ++ skipn (Z.to_nat n) dst.

(** The call returns the byte count and the buffer as the call leaves it. *)
Definition tree_sitter_unison_external_scanner_serialize
  (indents_v : indent_vec) (buffer : list Z) : Z * list Z :=
  let to_copy := wrap32 (2 * len indents_v) in
  if to_copy >? TREE_SITTER_SERIALIZATION_BUFFER_SIZE then (0, buffer)
  else (to_copy, memcpy buffer (bytes_of (data indents_v)) to_copy).

Definition tree_sitter_unison_external_scanner_deserialize
  (indents_v : indent_vec) (buffer : list Z) (length : Z) : indent_vec :=
  let els := length / 2 in
  if els >? 0 then
    let indents_v := VEC_GROW indents_v els in
    {| len := els;
       cap := cap indents_v;
       data := cells_of (memcpy (bytes_of (data indents_v)) buffer length) |}
  else indents_v.

(** ** Block comments, as the specification describes them

    The text of a block comment is read as a sequence of pieces: the opener
    [{-], the closer [-}] and single characters. *)

Inductive piece : Set :=
| Open
| Close
| Chr (c : Z).

Definition render_piece (p : piece) : list Z :=
  match p with
  | Open => codes "{-"
  | Close => codes "-}"
  | Chr c => [c]
  end.

Definition render (ps : list piece) : list Z := flat_map render_piece ps.

(** [(comment-body | nested)*]: every opener has its closer. *)
Inductive balanced : list piece -> Prop :=
| bal_nil : balanced []
| bal_chr (c : Z) (ps : list piece) :
    balanced ps -> balanced (Chr c :: ps)
| bal_nest (inner ps : list piece) :
    balanced inner -> balanced ps ->
    balanced (Open :: inner ++ Close :: ps).

(** A body that never closes the comment it is in: beside characters and
    balanced nested comments it may hold openers that stay open. *)
Inductive unclosed : list piece -> Prop :=
| unc_nil : unclosed []
| unc_chr (c : Z) (ps : list piece) :
    unclosed ps -> unclosed (Chr c :: ps)
| unc_open (ps : list piece) :
    unclosed ps -> unclosed (Open :: ps)
| unc_nest (inner ps : list piece) :
    balanced inner -> unclosed ps ->
    unclosed (Open :: inner ++ Close :: ps).

(** Openers minus closers, and the highest nesting level reached when the
    pieces are read from level [d]. *)
Fixpoint net (ps : list piece) : Z :=
  match ps with
  | [] => 0
  | Open :: ps' => 1 + net ps'
  | Close :: ps' => net ps' - 1
  | Chr _ :: ps' => net ps'
  end.

Fixpoint peak (d : Z) (ps : list piece) : Z :=
  match ps with
  | [] => d
  | Open :: ps' => Z.max d (peak (d + 1) ps')
  | Close :: ps' => Z.max d (peak (d - 1) ps')
  | Chr _ :: ps' => peak d ps'
  end.

(** The nesting depth of a comment body: the number of comments open
    inside the enclosing one at the deepest point. *)
Definition nesting (ps : list piece) : Z := peak 0 ps.

(** The code point that follows a position: the first of the next piece,
    or [next] after the last piece. *)
Definition follow (ps : list piece) (next : Z) : Z :=
  match ps with
  | [] => next
  | Open :: _ => chr "{"
  | Close :: _ => chr "-"
  | Chr c :: _ => c
  end.

(** The pieces are the ones a reader finds in the rendered text, [next]
    being the code point after it: a single character is not NUL, a single
    '{' is not followed by '-', and a single '-' is not followed by '}'. *)
Fixpoint lexable (ps : list piece) (next : Z) : bool :=
  match ps with
  | [] => true
  | Chr c :: ps' =>
      negb (c =? 0)
      && negb ((c =? chr "{") && (follow ps' next =? chr "-"))
      && negb ((c =? chr "-") && (follow ps' next =? chr "}"))
      && lexable ps' next
  | _ :: ps' => lexable ps' next
  end.

(** The level counter of a reader at level [d] stays within [uint16_t]
    over the pieces and no closer is met at level 0. *)
Fixpoint tracked (d : Z) (ps : list piece) : Prop :=
  match ps with
  | [] => True
  | Open :: ps' => d + 1 < 65536 /\ tracked (d + 1) ps'
  | Close :: ps' => 0 < d /\ tracked (d - 1) ps'
  | Chr _ :: ps' => tracked d ps'
  end.

(** [n] calls of [S_ADVANCE]. *)
Fixpoint consume (n : nat) (state : State) : State :=
  match n with
  | O => state
  | S n' => consume n' (S_ADVANCE state)
  end.

(** ** What a rule may do to the state

    Every rule leaves the requested symbols alone.  It changes the indent
    stack in one of three ways only: not at all, by one [VEC_PUSH] of a
    [uint16_t] when it finishes with START, or by one [VEC_POP] of a
    non-empty stack when it finishes with END or IN.  What it finishes with is FAIL, a requested
    symbol, COMMENT or FOLD. *)

Definition same_frame (st st' : State) : Prop :=
  symbols st' = symbols st /\ indents st' = indents st.

Inductive stack_step (v : indent_vec) : Result -> indent_vec -> Prop :=
| step_same (r : Result) : stack_step v r v
| step_push (ind : Z) :
    stack_step v (res_finish START) (VEC_PUSH v (wrap16 ind))
| step_pop_END : len v <> 0 -> stack_step v (res_finish END) (VEC_POP v)
| step_pop_IN : len v <> 0 -> stack_step v (res_finish IN) (VEC_POP v).

Definition emits (syms : Sym -> bool) (r : Result) : Prop :=
  finished r = false \/ sym r = FAIL \/ syms (sym r) = true
  \/ sym r = COMMENT \/ sym r = FOLD.

Record rule_post (st : State) (out : Result * State) : Prop := {
  post_symbols : symbols (snd out) = symbols st;
  post_cont : finished (fst out) = false -> indents (snd out) = indents st;
  post_stack : stack_step (indents st) (fst out) (indents (snd out));
  post_emit : emits (symbols st) (fst out)
}.

(** ** The loops never run out of fuel

    [enough fuel st]: more fuel than code points left.  Each loop advances
    the lexer only past a character it has seen, so with enough fuel one
    more unit does not change its outcome: the fuel of the calling
    definitions is never exhausted. *)

Definition enough (fuel : nat) (st : State) : Prop :=
  (length (input (lexer st)) < fuel)%nat.

(** The text of a block comment that holds [n] comments nested in one
    another and nothing else: [n + 1] openers, then [n + 1] closers. *)
Definition nested_comment (n : nat) : list Z :=
  codes "{-" ++ render (repeat Open n ++ repeat Close n) ++ codes "-}".

(** ** Concrete inputs *)

(** A lexer at the start of the code points [s]. *)
Definition lexer_at (s : list Z) : TSLexer :=
  {| input := s; position := 0; col := 0; token_start := 0; marked := None;
     result_symbol := None |}.

(** The requested-symbols array in which exactly the symbols of [l] are
    set. *)
Definition requested (l : list Sym) : Sym -> bool :=
  fun s => existsb (Sym_eqb s) l.

(** An indent stack that holds [l], bottom first, in an allocation of
    exactly that size. *)
Definition stack_of (l : list Z) : indent_vec :=
  {| len := Z.of_nat (length l); cap := Z.of_nat (length l); data := l |}.

(** A white-space classifier of a C library that follows Unicode: it holds
    of the six standard characters and of the space separators
    U+2000..U+2006, U+2008..U+200A, U+2028, U+2029, U+205F and U+3000, which
    musl and the UTF-8 locales of glibc all classify as white space. *)
Definition iswspace_unicode (c : Z) : bool :=
  isws c
  || ((8192 <=? c) && (c <=? 8198)) || ((8200 <=? c) && (c <=? 8202))
  || (c =? 8232) || (c =? 8233) || (c =? 8287) || (c =? 12288).

(** ** Runs of the input *)

(** [n] calls of [S_SKIP]. *)
Fixpoint skip (n : nat) (state : State) : State :=
  match n with
  | O => state
  | S n' => skip n' (S_SKIP state)
  end.

(** The characters [skipspace] passes over, and those [count_indent]
    does. *)
Definition is_blank (c : Z) : bool := (c =? chr " ") || (c =? TAB).

Definition is_indent (c : Z) : bool := is_newline c || is_blank c.

(** The width of a run of blanks: 1 for a space, 8 for a tab. *)
Fixpoint width (line : list Z) : Z :=
  match line with
  | [] => 0
  | c :: line' => (if c =? TAB then 8 else 1) + width line'
  end.

(** A code point that none of the rules of the newline path reads: no
    indentation, no operator character, none of [{ ` i ] ,]. *)
Definition ordinary (c : Z) : bool :=
  negb (is_indent c) && negb (symbolic c)
  && negb (existsb (Z.eqb c) (codes "{`i],")).

(** The longest common prefix of a string and the input. *)
Fixpoint common_prefix (s inp : list Z) : list Z :=
  match s, inp with
  | c :: s', d :: inp' => if c =? d then c :: common_prefix s' inp' else []
  | _, _ => []
  end.

(** The lexer of [st'] is the one of [st] moved forward: it has consumed a
    prefix [pre] of the input, its position has grown by the length of
    [pre], and its mark is the old one or lies in the consumed stretch. *)
Definition moved_over (pre : list Z) (st st' : State) : Prop :=
  input (lexer st) = pre ++ input (lexer st')
  /\ position (lexer st') = position (lexer st) + Z.of_nat (length pre)
  /\ result_symbol (lexer st') = result_symbol (lexer st)
  /\ (marked (lexer st') = marked (lexer st)
      \/ exists p, marked (lexer st') = Some p
                   /\ position (lexer st) <= p <= position (lexer st')).

Definition moves (st st' : State) : Prop := exists pre, moved_over pre st st'.

(** * Properties *)

(** ** Serialisation of the indent stack *)

Lemma wrap32_small (z : Z) : 0 <= z < 4294967296 -> wrap32 z = z.
Proof. intros H. unfold wrap32. apply Z.mod_small. exact H. Qed.

Lemma wrap16_small (z : Z) : 0 <= z < 65536 -> wrap16 z = z.
Proof. intros H. unfold wrap16. apply Z.mod_small. exact H. Qed.

Lemma half_double (z : Z) : 2 * z / 2 = z.
Proof. rewrite Z.mul_comm. apply Z.div_mul. lia. Qed.

Lemma cell_of_bytes (e : Z) :
  0 <= e < 65536 -> e mod 256 + 256 * ((e / 256) mod 256) = e.
Proof.
  intros H.
  assert (Hq : 0 <= e / 256 < 256)
    by (split; [apply Z.div_pos; lia | apply Z.div_lt_upper_bound; lia]).
  rewrite (Z.mod_small (e / 256)) by exact Hq.
  pose proof (Z.div_mod e 256 ltac:(lia)). lia.
Qed.

Lemma cells_of_bytes_of_app (cells : list Z) (bytes : list Z) :
  Forall (fun e => 0 <= e < 65536) cells ->
  cells_of (bytes_of cells ++ bytes) = cells ++ cells_of bytes.
Proof.
  induction 1 as [|e cells He _ IH]; [reflexivity|].
  cbn [bytes_of flat_map bytes_of_cell app cells_of].
  fold (bytes_of cells). rewrite IH, cell_of_bytes by exact He. reflexivity.
Qed.

Lemma cells_of_bytes_of (cells : list Z) :
  Forall (fun e => 0 <= e < 65536) cells -> cells_of (bytes_of cells) = cells.
Proof.
  intros H. rewrite <- (app_nil_r (bytes_of cells)).
  rewrite cells_of_bytes_of_app by exact H. cbn. apply app_nil_r.
Qed.

Lemma firstn_bytes_of (n : nat) (cells : list Z) :
  firstn (2 * n) (bytes_of cells) = bytes_of (firstn n cells).
Proof.
  revert cells. induction n as [|n IH]; intros cells; [reflexivity|].
  destruct cells as [|e cells]; [reflexivity|].
  replace (2 * S n)%nat with (S (S (2 * n))) by lia.
  cbn [bytes_of flat_map bytes_of_cell app firstn].
  fold (bytes_of cells). fold (bytes_of (firstn n cells)).
  rewrite IH. reflexivity.
Qed.

Lemma length_bytes_of (cells : list Z) :
  length (bytes_of cells) = (2 * length cells)%nat.
Proof.
  induction cells as [|e cells IH]; [reflexivity|].
  cbn [bytes_of flat_map bytes_of_cell app length].
  fold (bytes_of cells). rewrite IH. lia.
Qed.

(** The bytes [serialize] leaves at the front of the buffer are those of
    the live entries. *)
Lemma serialize_front (v : indent_vec) (buffer : list Z) :
  vec_wf v -> len v <= 512 ->
  tree_sitter_unison_external_scanner_serialize v buffer =
    (2 * len v,
     bytes_of (entries v) ++ skipn (Z.to_nat (2 * len v)) buffer).
Proof.
  intros (Hlen & _ & Hcap & _) Hfit.
  unfold tree_sitter_unison_external_scanner_serialize,
    TREE_SITTER_SERIALIZATION_BUFFER_SIZE.
  rewrite wrap32_small by lia.
  destruct (2 * len v >? 1024) eqn:E; [lia|].
  unfold memcpy, entries.
  replace (Z.to_nat (2 * len v)) with (2 * Z.to_nat (len v))%nat by lia.
  rewrite firstn_bytes_of. reflexivity.
Qed.

Lemma length_entries (v : indent_vec) :
  vec_wf v -> length (entries v) = Z.to_nat (len v).
Proof.
  intros (Hlen & _ & Hcap & _). unfold entries. rewrite length_firstn. lia.
Qed.

Lemma entries_u16 (v : indent_vec) :
  vec_wf v -> Forall (fun e => 0 <= e < 65536) (entries v).
Proof.
  intros (_ & _ & _ & H). unfold entries.
  rewrite <- (firstn_skipn (Z.to_nat (len v)) (data v)) in H.
  apply Forall_app in H. apply H.
Qed.

Lemma firstn_app_exact {A : Type} (n : nat) (a b : list A) :
  length a = n -> firstn n (a ++ b) = a.
Proof.
  intros <-. rewrite firstn_app, Nat.sub_diag, firstn_all. cbn.
  apply app_nil_r.
Qed.

(** C9: [deserialize] called with [length == 0] returns the stack it was
    given: the same [len], the same [cap] and the same cells, whatever the
    stack held and whatever the buffer holds. *)
Theorem deserialize_zero_unchanged (v : indent_vec) (buffer : list Z) :
  tree_sitter_unison_external_scanner_deserialize v buffer 0 = v
  /\ len (tree_sitter_unison_external_scanner_deserialize v buffer 0) = len v
  /\ cap (tree_sitter_unison_external_scanner_deserialize v buffer 0) = cap v
  /\ data (tree_sitter_unison_external_scanner_deserialize v buffer 0)
     = data v.
Proof.
  assert (E : tree_sitter_unison_external_scanner_deserialize v buffer 0 = v)
    by reflexivity.
  rewrite E. repeat split.
Qed.

(** C10: on a stack of length 0, [serialize] leaves the buffer as it was
    and returns 0, and that is also what it returns, again with the buffer
    untouched, for any stack whose payload exceeds the buffer cap: the two
    calls have the same outcome. *)
Theorem serialize_empty_like_overflow
  (v w : indent_vec) (buffer : list Z) :
  len v = 0 ->
  wrap32 (2 * len w) > TREE_SITTER_SERIALIZATION_BUFFER_SIZE ->
  tree_sitter_unison_external_scanner_serialize v buffer = (0, buffer)
  /\ tree_sitter_unison_external_scanner_serialize w buffer = (0, buffer).
Proof.
  intros Hv Hw. unfold tree_sitter_unison_external_scanner_serialize.
  split.
  - rewrite Hv. cbn. unfold memcpy. reflexivity.
  - destruct (wrap32 (2 * len w) >? _) eqn:E; [reflexivity|lia].
Qed.

(** C3: for a well-formed stack of fewer than 2^31 entries, [serialize]
    followed by [deserialize] on the same stack, with the buffer and the
    byte count [serialize] produced, gives back the very same stack, so the
    same length and the same entries; and when the stack is not empty and
    fits the buffer, the same call on any other well-formed stack leaves
    that stack with the serialised length and entries. *)
Theorem serialize_deserialize_roundtrip
  (v : indent_vec) (buffer : list Z) :
  vec_wf v -> len v < 2147483648 ->
  let out := tree_sitter_unison_external_scanner_serialize v buffer in
  let v' := tree_sitter_unison_external_scanner_deserialize
              v (snd out) (fst out) in
  v' = v /\ len v' = len v /\ entries v' = entries v
  /\ forall w, vec_wf w -> 0 < len v <= 512 ->
       let w' := tree_sitter_unison_external_scanner_deserialize
                   w (snd out) (fst out) in
       len w' = len v /\ entries w' = entries v.
Proof.
  intros Hwf Hbig out v'.
  assert (Hsame : v' = v).
  { subst v' out. destruct Hwf as (Hlen & Hcap32 & Hcap & Hu16).
    unfold tree_sitter_unison_external_scanner_serialize,
      TREE_SITTER_SERIALIZATION_BUFFER_SIZE.
    rewrite wrap32_small by lia.
    destruct (2 * len v >? 1024) eqn:E; cbn [fst snd];
      [reflexivity|].
    unfold tree_sitter_unison_external_scanner_deserialize.
    rewrite half_double.
    destruct (len v >? 0) eqn:E0; [|reflexivity].
    unfold VEC_GROW. destruct (cap v <? len v) eqn:E1; [lia|].
    destruct v as [l c d]; cbn [len cap data] in *. f_equal.
    unfold memcpy.
    rewrite firstn_app_exact
      by (rewrite length_firstn, length_bytes_of; lia).
    rewrite firstn_skipn. apply cells_of_bytes_of. exact Hu16. }
  split; [exact Hsame|]. rewrite Hsame. split; [reflexivity|].
  split; [reflexivity|].
  intros w Hw Hfit w'. subst w' out.
  rewrite serialize_front by (exact Hwf || lia). cbn [fst snd].
  unfold tree_sitter_unison_external_scanner_deserialize.
  rewrite half_double.
  destruct (len v >? 0) eqn:E0; [|lia].
  cbn [len]. split; [reflexivity|].
  unfold entries at 1. cbn [len data]. unfold memcpy.
  rewrite firstn_app_exact
    by (rewrite length_bytes_of, length_entries by exact Hwf; lia).
  rewrite cells_of_bytes_of_app by (apply entries_u16; exact Hwf).
  apply firstn_app_exact. apply length_entries. exact Hwf.
Qed.

(** ** The stack stays well-formed *)

Lemma length_store (cells : list Z) (i : nat) (x : Z) :
  length (store cells i x) = length cells.
Proof.
  revert i. induction cells as [|c cells IH]; intros i; [reflexivity|].
  destruct i as [|i]; cbn [store length]; [reflexivity|].
  rewrite IH. reflexivity.
Qed.

Lemma Forall_store (P : Z -> Prop) (cells : list Z) (i : nat) (x : Z) :
  P x -> Forall P cells -> Forall P (store cells i x).
Proof.
  intros Hx H. revert i. induction H as [|c cells Hc Hcells IH]; intros i;
    [constructor|].
  destruct i as [|i]; cbn [store]; constructor;
    try assumption; apply IH.
Qed.

Lemma length_realloc (cells : list Z) (n : Z) :
  length (realloc cells n) = Z.to_nat n.
Proof.
  unfold realloc. rewrite length_app, length_firstn, repeat_length. lia.
Qed.

Lemma Forall_realloc (cells : list Z) (n : Z) :
  Forall (fun e => 0 <= e < 65536) cells ->
  Forall (fun e => 0 <= e < 65536) (realloc cells n).
Proof.
  intros H. unfold realloc. apply Forall_app. split.
  - rewrite <- (firstn_skipn (Z.to_nat n) cells) in H.
    apply Forall_app in H. apply H.
  - apply Forall_forall. intros e He. apply repeat_spec in He. lia.
Qed.

Lemma create_wf : vec_wf tree_sitter_unison_external_scanner_create.
Proof. unfold vec_wf. cbn. repeat split; try lia. constructor. Qed.

Lemma VEC_PUSH_wf (v : indent_vec) (ind : Z) :
  vec_wf v -> len v < 2147483648 -> vec_wf (VEC_PUSH v (wrap16 ind)).
Proof.
  intros (Hlen & Hcap32 & Hcap & Hu16) Hbig.
  assert (Hel : 0 <= wrap16 ind < 65536)
    by (unfold wrap16; apply Z.mod_pos_bound; lia).
  unfold VEC_PUSH, vec_wf.
  destruct (cap v =? len v) eqn:E; cbn [len cap data VEC_RESIZE].
  - rewrite (wrap32_small (len v * 2)), (wrap32_small (len v + 1)) by lia.
    rewrite length_store, length_realloc.
    assert (Hmax : len v + 1 <= MAX 20 (len v * 2) < 4294967296)
      by (unfold MAX; destruct (20 >? len v * 2) eqn:E1; lia).
    repeat split; try lia.
    apply Forall_store; [exact Hel | apply Forall_realloc; exact Hu16].
  - apply Z.eqb_neq in E. rewrite (wrap32_small (len v + 1)) by lia.
    rewrite length_store. repeat split; try lia.
    apply Forall_store; assumption.
Qed.

Lemma VEC_POP_wf (v : indent_vec) :
  vec_wf v -> len v <> 0 -> vec_wf (VEC_POP v).
Proof.
  intros (Hlen & Hcap32 & Hcap & Hu16) Hne. unfold VEC_POP, vec_wf. cbn [len cap data].
  rewrite wrap32_small by lia. repeat split; try lia. exact Hu16.
Qed.

Lemma firstn_S_nth (cells : list Z) (i : nat) :
  (i < length cells)%nat ->
  firstn (S i) cells = firstn i cells ++ [nth i cells 0].
Proof.
  revert i. induction cells as [|c cells IH]; intros i Hi;
    [cbn in Hi; lia|].
  destruct i as [|i]; [reflexivity|].
  change (firstn (S (S i)) (c :: cells)) with (c :: firstn (S i) cells).
  rewrite IH by (cbn in Hi; lia). reflexivity.
Qed.

(** A pop of a well-formed stack that is not empty removes the top entry
    and nothing else. *)
Lemma VEC_POP_entries (v : indent_vec) :
  vec_wf v -> len v <> 0 ->
  len (VEC_POP v) = len v - 1
  /\ entries v = entries (VEC_POP v) ++ [VEC_BACK v].
Proof.
  intros (Hlen & Hcap32 & Hcap & _) Hne.
  assert (Hl : len (VEC_POP v) = len v - 1)
    by (unfold VEC_POP; cbn [len]; apply wrap32_small; lia).
  split; [exact Hl|].
  unfold entries. rewrite Hl. unfold VEC_BACK, VEC_POP. cbn [data].
  replace (Z.to_nat (len v)) with (S (Z.to_nat (len v - 1))) by lia.
  apply firstn_S_nth. lia.
Qed.

(** What [pop] does to the state: nothing on an empty stack, and otherwise
    [len--] on the stack alone. *)
Lemma pop_stack (st : State) :
  lexer (pop st) = lexer st /\ symbols (pop st) = symbols st
  /\ (len (indents st) = 0 -> indents (pop st) = indents st)
  /\ (len (indents st) <> 0 ->
      len (indents (pop st)) = wrap32 (len (indents st) - 1)
      /\ cap (indents (pop st)) = cap (indents st)
      /\ data (indents (pop st)) = data (indents st))
  /\ (vec_wf (indents st) -> len (indents st) <> 0 ->
      len (indents (pop st)) = len (indents st) - 1
      /\ entries (indents st)
         = entries (indents (pop st)) ++ [VEC_BACK (indents st)]).
Proof.
  unfold pop, indent_exists.
  destruct (len (indents st) =? 0) eqn:E; cbn [negb].
  - apply Z.eqb_eq in E. repeat split; try reflexivity;
      intros; contradiction.
  - apply Z.eqb_neq in E. cbn [with_indents lexer symbols indents].
    repeat split; try reflexivity.
    + intros H. contradiction.
    + apply VEC_POP_entries; assumption.
    + apply VEC_POP_entries; assumption.
Qed.

(** ** The end-of-file rule, the error detector and the dot *)

Lemma all_syms_spec (syms : Sym -> bool) :
  all_syms syms = true -> forall s, s <> FAIL -> syms s = true.
Proof.
  unfold all_syms, upto_EMPTY. cbn [forallb]. intros H s Hs.
  repeat (apply andb_prop in H; destruct H as [? H]).
  destruct s; congruence.
Qed.

Lemma eof_not_at_end (state : State) :
  is_eof state = false -> eof state = (res_cont, state).
Proof. intros H. unfold eof. rewrite H. reflexivity. Qed.

Lemma eof_at_end (state : State) :
  is_eof state = true ->
  eof state =
    if SYM EMPTY state then (res_finish EMPTY, state)
    else if SYM END state then (res_finish END, pop state)
    else if SYM SEMICOLON state then (res_finish SEMICOLON, state)
    else (res_fail, state).
Proof.
  intros H. unfold eof. rewrite H.
  destruct (SYM EMPTY state) eqn:E1; [reflexivity|].
  unfold end_or_semicolon, layout_end, finish_if_valid, finish, cont, fail,
    short.
  destruct (SYM END state) eqn:E2; cbn [finished res_finish res_cont].
  - reflexivity.
  - destruct (SYM SEMICOLON state) eqn:E3; reflexivity.
Qed.

Section Rules.

Variable iswspace : Z -> bool.

Lemma scan_at_end_of_file
  (v : indent_vec) (l : TSLexer) (syms : Sym -> bool) :
  lexer_eof l = true ->
  tree_sitter_unison_external_scanner_scan iswspace v l syms
  = if syms EMPTY then (true, set_result_symbol l EMPTY, v)
    else if syms END then
      (true, set_result_symbol l END,
       indents (pop {| lexer := l; symbols := syms; indents := v |}))
    else if syms SEMICOLON then (true, set_result_symbol l SEMICOLON, v)
    else (false, l, v).
Proof.
  intros Heof.
  unfold tree_sitter_unison_external_scanner_scan, eval, scan_all, init.
  rewrite eof_at_end by exact Heof.
  unfold SYM. cbn [symbols].
  destruct (syms EMPTY); [reflexivity|].
  destruct (syms END).
  - unfold pop. destruct (indent_exists _); reflexivity.
  - destruct (syms SEMICOLON); reflexivity.
Qed.

(** C5: at end-of-file the [eof] rule emits EMPTY if EMPTY is requested,
    otherwise pops the stack and emits END if END is requested, otherwise
    emits SEMICOLON if SEMICOLON is requested, otherwise fails; the scan
    call returns accordingly, true with that symbol or false, without
    consuming anything; in particular with EMPTY requested it returns true
    with the one result symbol EMPTY and leaves the stack, empty or not, as
    it was.  In numbers: the call returns true exactly when one of the
    three symbols is requested, the result symbol of the lexer is then
    that symbol and otherwise the one it had, input, position and mark are
    as before, and the stack is as before except in the END case on a
    stack that is not empty, where [len] is one less, the allocation is
    untouched and the entries are the old ones without their top. *)
Theorem eof_rule_at_end_of_file
  (v : indent_vec) (l : TSLexer) (syms : Sym -> bool) :
  lexer_eof l = true ->
  let state := {| lexer := l; symbols := syms; indents := v |} in
  eof state =
    (if syms EMPTY then (res_finish EMPTY, state)
     else if syms END then (res_finish END, pop state)
     else if syms SEMICOLON then (res_finish SEMICOLON, state)
     else (res_fail, state))
  /\ tree_sitter_unison_external_scanner_scan iswspace v l syms =
       (if syms EMPTY then (true, set_result_symbol l EMPTY, v)
        else if syms END then
          (true, set_result_symbol l END, indents (pop state))
        else if syms SEMICOLON then (true, set_result_symbol l SEMICOLON, v)
        else (false, l, v))
  /\ (syms EMPTY = true ->
      tree_sitter_unison_external_scanner_scan iswspace v l syms
      = (true, set_result_symbol l EMPTY, v))
  /\ (let out := tree_sitter_unison_external_scanner_scan iswspace v l syms in
      let l' := snd (fst out) in
      let v' := snd out in
      fst (fst out) = syms EMPTY || syms END || syms SEMICOLON
      /\ result_symbol l'
         = (if syms EMPTY then Some EMPTY
            else if syms END then Some END
            else if syms SEMICOLON then Some SEMICOLON
            else result_symbol l)
      /\ input l' = input l /\ position l' = position l
      /\ marked l' = marked l
      /\ (syms EMPTY = true -> v' = v)
      /\ (syms EMPTY = false -> syms END = false -> v' = v)
      /\ (syms EMPTY = false -> syms END = true -> len v = 0 -> v' = v)
      /\ (syms EMPTY = false -> syms END = true -> len v <> 0 ->
          len v' = wrap32 (len v - 1) /\ cap v' = cap v
          /\ data v' = data v)
      /\ (syms EMPTY = false -> syms END = true ->
          vec_wf v -> len v <> 0 ->
          len v' = len v - 1 /\ entries v = entries v' ++ [VEC_BACK v])).
Proof.
  intros Heof state. split; [apply (eof_at_end state); exact Heof|].
  split; [apply scan_at_end_of_file; exact Heof|].
  split.
  { intros Hreq. rewrite scan_at_end_of_file by exact Heof.
    rewrite Hreq. reflexivity. }
  rewrite scan_at_end_of_file by exact Heof. fold state.
  destruct (pop_stack state) as (_ & _ & Hp0 & Hp1 & Hp2).
  cbn [indents state] in Hp0, Hp1, Hp2. fold state in Hp0, Hp1, Hp2.
  destruct (syms EMPTY);
    [cbn [fst snd orb set_result_symbol result_symbol input position
          marked];
     repeat split; try reflexivity; intros; discriminate|].
  destruct (syms END).
  { cbn [fst snd orb set_result_symbol result_symbol input position
         marked].
    repeat split; try reflexivity; try (intros; discriminate).
    - intros _ _ H. apply Hp0. exact H.
    - apply Hp1. assumption.
    - apply Hp1. assumption.
    - apply Hp1. assumption.
    - apply Hp2; assumption.
    - apply Hp2; assumption. }
  destruct (syms SEMICOLON);
    cbn [fst snd orb set_result_symbol result_symbol input position
         marked];
    repeat split; try reflexivity; intros; discriminate.
Qed.

(** C7, as the code has it: with DOT requested and '.' next, [dot] consumes
    the dot; it emits VARSYM exactly when VARSYM is requested and the C
    library's [iswspace] holds of the following character, and otherwise
    marks the token end and emits DOT.  As [iswspace] holds of the six
    standard white-space characters, these give VARSYM; where it holds of
    nothing else (the "C" locale), the choice is the one between the six
    characters and all others.
    Either way the dot alone is consumed and
    the stack is untouched; with VARSYM the mark stays where it was, with
    DOT it is set behind the dot. *)
Theorem dot_rule (state : State) :
  (forall c, isws c = true -> iswspace c = true) ->
  SYM DOT state = true -> PEEK state = chr "." ->
  let state' := S_ADVANCE state in
  dot iswspace state =
    (if SYM VARSYM state && iswspace (PEEK state')
     then (res_finish VARSYM, state')
     else (res_finish DOT, MARK state'))
  /\ (SYM VARSYM state = true -> isws (PEEK state') = true ->
      dot iswspace state = (res_finish VARSYM, state'))
  /\ ((forall c, iswspace c = isws c) ->
      dot iswspace state =
        (if SYM VARSYM state && isws (PEEK state')
         then (res_finish VARSYM, state')
         else (res_finish DOT, MARK state')))
  /\ (let out := dot iswspace state in
      let next := hd 0 (tl (input (lexer state))) in
      let varsym := SYM VARSYM state && iswspace next in
      fst out = res_finish (if varsym then VARSYM else DOT)
      /\ input (lexer (snd out)) = tl (input (lexer state))
      /\ position (lexer (snd out)) = position (lexer state) + 1
      /\ marked (lexer (snd out))
         = (if varsym then marked (lexer state)
            else Some (position (lexer state) + 1))
      /\ indents (snd out) = indents state).
Proof.
  intros Hstd Hdot Hpeek state'.
  assert (E : dot iswspace state =
    (if SYM VARSYM state && iswspace (PEEK state')
     then (res_finish VARSYM, state')
     else (res_finish DOT, MARK state'))).
  { unfold dot. rewrite Hdot, Hpeek, Z.eqb_refl. fold state'.
    replace (SYM VARSYM state') with (SYM VARSYM state) by reflexivity.
    destruct (SYM VARSYM state && iswspace (PEEK state')); reflexivity. }
  split; [exact E|]. split; [|split].
  - intros Hv Hws. rewrite E, Hv, (Hstd _ Hws). reflexivity.
  - intros Hc. rewrite E, Hc. reflexivity.
  - assert (Hin : exists k, input (lexer state) = chr "." :: k).
    { unfold PEEK, lookahead in Hpeek.
      destruct (input (lexer state)) as [|c k]; cbn [hd] in Hpeek;
        [discriminate Hpeek|].
      exists k. rewrite Hpeek. reflexivity. }
    destruct Hin as [k Hin].
    assert (Hl : lexer state'
                 = {| input := k; position := position (lexer state) + 1;
                      col := col (lexer state) + 1;
                      token_start := token_start (lexer state);
                      marked := marked (lexer state);
                      result_symbol := result_symbol (lexer state) |}).
    { unfold state'. cbn [S_ADVANCE with_lexer lexer].
      unfold lexer_advance. rewrite Hin. reflexivity. }
    assert (Hi : indents state' = indents state) by reflexivity.
    assert (Hp : PEEK state' = hd 0 k)
      by (unfold PEEK, lookahead; rewrite Hl; reflexivity).
    cbv zeta. rewrite E, Hp, Hin. cbn [tl].
    clearbody state'.
    destruct (SYM VARSYM state && iswspace (hd 0 k));
      cbn [fst snd MARK with_lexer lexer indents]; rewrite Hl;
      cbn [lexer_mark_end input position marked];
      repeat split; exact Hi.
Qed.

(** C2, as the code has it: when every symbol from SEMICOLON through EMPTY
    is requested, a scan call leaves the indent stack unchanged; away from
    end-of-file it returns false and leaves the lexer untouched, while at
    end-of-file the [eof] rule, which [init] runs before the error check,
    makes it return true with EMPTY.
    At end-of-file the result symbol
    of the lexer is then EMPTY, and input, position and mark are as before. *)
Theorem after_error_scan
  (v : indent_vec) (l : TSLexer) (syms : Sym -> bool) :
  all_syms syms = true ->
  let out := tree_sitter_unison_external_scanner_scan iswspace v l syms in
  snd out = v
  /\ (lexer_eof l = false -> out = (false, l, v))
  /\ (lexer_eof l = true -> out = (true, set_result_symbol l EMPTY, v))
  /\ (lexer_eof l = true ->
      fst (fst out) = true
      /\ result_symbol (snd (fst out)) = Some EMPTY
      /\ input (snd (fst out)) = input l
      /\ position (snd (fst out)) = position l
      /\ marked (snd (fst out)) = marked l).
Proof.
  intros Hall out. subst out.
  pose proof (all_syms_spec syms Hall EMPTY ltac:(discriminate)) as Hempty.
  destruct (lexer_eof l) eqn:Heof.
  - rewrite (scan_at_end_of_file v l syms Heof), Hempty.
    cbn [fst snd set_result_symbol result_symbol input position marked].
    repeat split; intros; congruence.
  - assert (E : tree_sitter_unison_external_scanner_scan iswspace v l syms
                = (false, l, v)).
    { unfold tree_sitter_unison_external_scanner_scan, eval, scan_all, init.
      rewrite eof_not_at_end by exact Heof.
      unfold after_error. cbn [symbols short finished res_cont].
      rewrite Hall. reflexivity. }
    rewrite E. repeat split; intros; congruence.
Qed.

End Rules.

(** ** Every rule meets [rule_post] *)

Lemma same_frame_refl (st : State) : same_frame st st.
Proof. split; reflexivity. Qed.

Lemma same_frame_trans (a b c : State) :
  same_frame a b -> same_frame b c -> same_frame a c.
Proof. intros [H1 H2] [H3 H4]. split; congruence. Qed.

Lemma frame_ADVANCE (st : State) : same_frame st (S_ADVANCE st).
Proof. split; reflexivity. Qed.

Lemma frame_SKIP (st : State) : same_frame st (S_SKIP st).
Proof. split; reflexivity. Qed.

Lemma frame_MARK (st : State) : same_frame st (MARK st).
Proof. split; reflexivity. Qed.

Lemma frame_seq (s : list Z) (st : State) : same_frame st (snd (seq s st)).
Proof.
  revert st. induction s as [|c s IH]; intros st; cbn [seq].
  - apply same_frame_refl.
  - destruct (negb (c =? PEEK st)); [apply same_frame_refl|].
    eapply same_frame_trans; [apply frame_ADVANCE | apply IH].
Qed.

Lemma frame_token (s : list Z) (st : State) :
  same_frame st (snd (token s st)).
Proof.
  unfold token. pose proof (frame_seq s st) as H.
  destruct (seq s st) as [ok st1]. exact H.
Qed.

Lemma frame_skipspace (fuel : nat) (st : State) :
  same_frame st (skipspace_loop fuel st).
Proof.
  revert st. induction fuel as [|fuel IH]; intros st; cbn [skipspace_loop].
  - apply same_frame_refl.
  - destruct ((PEEK st =? chr " ") || (PEEK st =? TAB));
      [|apply same_frame_refl].
    eapply same_frame_trans; [apply frame_SKIP | apply IH].
Qed.

Lemma frame_count_indent (fuel : nat) (indent : Z) (st : State) :
  same_frame st (snd (count_indent_loop fuel indent st)).
Proof.
  revert indent st.
  induction fuel as [|fuel IH]; intros indent st; cbn [count_indent_loop].
  - apply same_frame_refl.
  - destruct (is_newline (PEEK st));
      [eapply same_frame_trans; [apply frame_SKIP | apply IH]|].
    destruct (PEEK st =? chr " ");
      [eapply same_frame_trans; [apply frame_SKIP | apply IH]|].
    destruct (PEEK st =? TAB);
      [eapply same_frame_trans; [apply frame_SKIP | apply IH]|].
    apply same_frame_refl.
Qed.

Lemma frame_advance_to_eof (fuel : nat) (st : State) :
  same_frame st (advance_to_eof_loop fuel st).
Proof.
  revert st.
  induction fuel as [|fuel IH]; intros st; cbn [advance_to_eof_loop].
  - apply same_frame_refl.
  - destruct (negb (is_eof st)); [|apply same_frame_refl].
    eapply same_frame_trans; [apply frame_ADVANCE | apply IH].
Qed.

Lemma frame_inline_comment (fuel : nat) (st : State) :
  same_frame st (inline_comment_loop fuel st).
Proof.
  revert st.
  induction fuel as [|fuel IH]; intros st; cbn [inline_comment_loop].
  - apply same_frame_refl.
  - destruct (is_newline (PEEK st) || (PEEK st =? 0));
      [apply same_frame_refl|].
    eapply same_frame_trans; [apply frame_ADVANCE | apply IH].
Qed.

Lemma post_frame (st st1 : State) (out : Result * State) :
  same_frame st st1 -> rule_post st1 out -> rule_post st out.
Proof.
  intros [Hs Hi] [H1 H2 H3 H4]. rewrite Hs, Hi in *.
  constructor; assumption.
Qed.

Lemma post_short (st : State) (p : Result * State) (k : Rule) :
  rule_post st p -> (forall st1, rule_post st1 (k st1)) ->
  rule_post st (short p k).
Proof.
  intros Hp Hk. destruct p as [r st1]. unfold short.
  destruct (finished r) eqn:E; [exact Hp|].
  apply post_frame with st1; [|apply Hk].
  destruct Hp as [H1 H2 _ _]. split; [exact H1 | apply H2; exact E].
Qed.

Lemma post_cont_at (st st' : State) :
  same_frame st st' -> rule_post st (res_cont, st').
Proof.
  intros [Hs Hi]. constructor; cbn [fst snd].
  - exact Hs.
  - intros _. exact Hi.
  - rewrite Hi. constructor.
  - left. reflexivity.
Qed.

Lemma post_fail_at (st st' : State) :
  same_frame st st' -> rule_post st (res_fail, st').
Proof.
  intros [Hs Hi]. constructor; cbn [fst snd].
  - exact Hs.
  - discriminate.
  - rewrite Hi. constructor.
  - right. left. reflexivity.
Qed.

Lemma post_finish_at (s : Sym) (st st' : State) :
  same_frame st st' ->
  symbols st s = true \/ s = COMMENT \/ s = FOLD ->
  rule_post st (res_finish s, st').
Proof.
  intros [Hs Hi] Hok. constructor; cbn [fst snd].
  - exact Hs.
  - discriminate.
  - rewrite Hi. constructor.
  - right. right. exact Hok.
Qed.

Lemma post_finish_pop (s : Sym) (st st' : State) :
  same_frame st st' -> s = END \/ s = IN -> symbols st s = true ->
  rule_post st (res_finish s, pop st').
Proof.
  intros [Hs Hi] Hs' Hreq. unfold pop, indent_exists. rewrite Hi.
  destruct (len (indents st) =? 0) eqn:E; cbn [negb].
  - apply post_finish_at; [split; assumption | left; exact Hreq].
  - apply Z.eqb_neq in E.
    constructor; cbn [fst snd with_indents symbols indents].
    + exact Hs.
    + discriminate.
    + destruct Hs' as [-> | ->]; constructor; exact E.
    + right. right. left. exact Hreq.
Qed.

Lemma post_finish_push (ind : Z) (st : State) :
  symbols st START = true ->
  rule_post st (res_finish START, push ind st).
Proof.
  intros Hreq. constructor; cbn [fst snd push with_indents symbols indents].
  - reflexivity.
  - discriminate.
  - constructor.
  - right. right. left. exact Hreq.
Qed.

(** One step of a proof that a rule meets [rule_post]: enter a
    [SHORT_SCANNER], split a test, or close a leaf whose state differs from
    the entry state in the lexer only. *)
Ltac post_leaf :=
  first
    [ apply post_cont_at; split; reflexivity
    | apply post_fail_at; split; reflexivity
    | apply post_finish_at;
      [ split; reflexivity
      | first [ left; assumption
              | right; left; reflexivity
              | right; right; reflexivity ] ]
    | apply post_finish_pop;
      [ split; reflexivity
      | first [ left; reflexivity | right; reflexivity ]
      | assumption ]
    | apply post_finish_push; assumption ].

Ltac post_step :=
  match goal with
  | |- rule_post _ (short _ _) => apply post_short; [| intro]
  | |- rule_post _ (if ?b then _ else _) => destruct b eqn:?
  | |- rule_post _ _ => post_leaf
  end.

Lemma layout_end_post (st : State) : rule_post st (layout_end st).
Proof. unfold layout_end, finish, cont. repeat post_step. Qed.

Lemma finish_if_valid_post (s : Sym) (st : State) :
  rule_post st (finish_if_valid s st).
Proof. unfold finish_if_valid, finish, cont. repeat post_step. Qed.

Lemma end_or_semicolon_post (st : State) :
  rule_post st (end_or_semicolon st).
Proof.
  unfold end_or_semicolon. post_step;
    [apply layout_end_post | apply finish_if_valid_post].
Qed.

Lemma eof_post (st : State) : rule_post st (eof st).
Proof.
  unfold eof, finish, cont. do 2 post_step; try post_leaf.
  post_step; [apply end_or_semicolon_post | unfold fail; post_leaf].
Qed.

Lemma fold_post (st : State) :
  SYM FOLD st = true -> rule_post st (fold st).
Proof.
  intros Hreq. unfold fold, finish, cont, advance_to_eof.
  pose proof (frame_seq (codes "---") st) as F.
  destruct (seq (codes "---") st) as [ok st1]. cbn [snd] in F.
  destruct ok.
  - apply post_finish_at; [|left; exact Hreq].
    eapply same_frame_trans; [exact F|].
    eapply same_frame_trans; [apply frame_advance_to_eof | apply frame_MARK].
  - apply post_cont_at. exact F.
Qed.

Lemma dedent_post (indent : Z) (st : State) :
  rule_post st (dedent indent st).
Proof.
  unfold dedent, cont. post_step; [apply layout_end_post | post_leaf].
Qed.

Lemma newline_semicolon_post (indent : Z) (st : State) :
  rule_post st (newline_semicolon indent st).
Proof.
  unfold newline_semicolon, finish, cont.
  destruct (SYM SEMICOLON st) eqn:E; cbn [andb]; repeat post_step.
Qed.

Lemma where_post (st : State) : rule_post st (where_ st).
Proof.
  unfold where_, finish, cont.
  pose proof (frame_token (codes "where") st) as F.
  destruct (token (codes "where") st) as [ok st1]. cbn [snd] in F.
  apply (post_frame st st1 _ F).
  destruct ok; [|post_leaf].
  post_step; [post_leaf | apply layout_end_post].
Qed.

Lemma in_post (st : State) : rule_post st (in_ st).
Proof.
  unfold in_, finish, cont. post_step; [|post_leaf].
  pose proof (frame_token (codes "in") st) as F.
  destruct (token (codes "in") st) as [ok st1]. cbn [snd] in F.
  destruct ok; [|apply post_cont_at; exact F].
  apply post_finish_pop; [|right; reflexivity|assumption].
  eapply same_frame_trans; [exact F | apply frame_MARK].
Qed.

Lemma else_post (st : State) : rule_post st (else_ st).
Proof.
  unfold else_, cont.
  pose proof (frame_token (codes "else") st) as F.
  destruct (token (codes "else") st) as [ok st1]. cbn [snd] in F.
  apply (post_frame st st1 _ F).
  destruct ok; [apply layout_end_post | post_leaf].
Qed.

Lemma inline_comment_post (st : State) : rule_post st (inline_comment st).
Proof.
  unfold inline_comment, finish.
  apply post_finish_at; [|right; left; reflexivity].
  eapply same_frame_trans; [apply frame_inline_comment | apply frame_MARK].
Qed.

Lemma minus_post (st : State) : rule_post st (minus st).
Proof.
  unfold minus, finish, cont, fail, advance_to_eof.
  pose proof (frame_seq (codes "--") st) as F.
  destruct (seq (codes "--") st) as [ok st1]. cbn [snd] in F.
  apply (post_frame st st1 _ F).
  destruct ok; cbn [negb]; [|post_leaf].
  post_step; [|apply inline_comment_post].
  post_step; [|post_leaf].
  apply post_finish_at; [|right; right; reflexivity].
  eapply same_frame_trans; [apply frame_ADVANCE|].
  eapply same_frame_trans; [apply frame_advance_to_eof | apply frame_MARK].
Qed.

Lemma multiline_comment_loop_post (fuel : nat) (level : Z) (st : State) :
  rule_post st (multiline_comment_loop fuel level st).
Proof.
  revert level st. induction fuel as [|fuel IH]; intros level st;
    cbn [multiline_comment_loop]; [unfold fail; post_leaf|].
  post_step.
  { apply (post_frame st (S_ADVANCE st) _ (frame_ADVANCE st)).
    post_step; [|apply IH].
    apply (post_frame _ _ _ (frame_ADVANCE (S_ADVANCE st))). apply IH. }
  post_step.
  { apply (post_frame st (S_ADVANCE st) _ (frame_ADVANCE st)).
    post_step; [|apply IH].
    apply (post_frame _ _ _ (frame_ADVANCE (S_ADVANCE st))).
    post_step; [|apply IH].
    unfold multiline_comment_success, finish. post_leaf. }
  post_step.
  - post_step; [apply eof_post | unfold fail; post_leaf].
  - apply (post_frame st (S_ADVANCE st) _ (frame_ADVANCE st)). apply IH.
Qed.

Lemma brace_post (st : State) : rule_post st (brace st).
Proof.
  unfold brace, fail, multiline_comment. post_step; [post_leaf|].
  post_step; [post_leaf|].
  apply (post_frame st (S_ADVANCE (S_ADVANCE st)));
    [split; reflexivity | apply multiline_comment_loop_post].
Qed.

Lemma comment_post (st : State) : rule_post st (comment st).
Proof.
  unfold comment, fail, cont. post_step.
  { post_step; [apply minus_post | post_leaf]. }
  post_step; [|post_leaf].
  post_step; [apply brace_post | post_leaf].
Qed.

Lemma close_layout_in_list_post (st : State) :
  rule_post st (close_layout_in_list st).
Proof.
  unfold close_layout_in_list, finish, cont, fail.
  post_step; [repeat post_step|].
  post_step; [|post_leaf].
  apply (post_frame st (S_ADVANCE st) _ (frame_ADVANCE st)).
  post_step; [post_leaf|].
  post_step; [apply layout_end_post | post_leaf].
Qed.

Lemma inline_tokens_post (st : State) : rule_post st (inline_tokens st).
Proof.
  unfold inline_tokens, fail.
  post_step; [post_step; [apply where_post | post_leaf]|].
  post_step; [post_step; [apply in_post | post_leaf]|].
  post_step; [post_step; [apply else_post | post_leaf]|].
  post_step; [post_step; [apply layout_end_post | post_leaf]|].
  apply close_layout_in_list_post.
Qed.

Lemma layout_start_post (column : Z) (st : State) :
  rule_post st (layout_start column st).
Proof. unfold layout_start, finish, cont. repeat post_step. Qed.

Lemma post_end_semicolon_post (column : Z) (st : State) :
  rule_post st (post_end_semicolon column st).
Proof.
  unfold post_end_semicolon, finish, cont.
  destruct (SYM SEMICOLON st) eqn:E; cbn [andb]; repeat post_step.
Qed.

Lemma repeat_end_post (column : Z) (st : State) :
  rule_post st (repeat_end column st).
Proof.
  unfold repeat_end, cont. post_step; [apply layout_end_post | post_leaf].
Qed.

Lemma newline_indent_post (indent : Z) (st : State) :
  rule_post st (newline_indent indent st).
Proof.
  unfold newline_indent. post_step; [apply dedent_post|].
  post_step; [apply close_layout_in_list_post|].
  apply newline_semicolon_post.
Qed.

Lemma newline_token_post (indent : Z) (st : State) :
  rule_post st (newline_token indent st).
Proof.
  unfold newline_token, fail, cont. post_step; [apply minus_post|].
  post_step; [post_leaf|].
  post_step; [apply in_post | post_leaf].
Qed.

Lemma newline_post (indent : Z) (st : State) :
  rule_post st (newline indent st).
Proof.
  unfold newline. post_step; [apply eof_post|].
  post_step; [apply comment_post|].
  post_step; [apply newline_token_post | apply newline_indent_post].
Qed.

Lemma immediate_post (column : Z) (st : State) :
  rule_post st (immediate column st).
Proof.
  unfold immediate. post_step; [apply layout_start_post|].
  post_step; [apply post_end_semicolon_post|].
  post_step; [apply repeat_end_post | apply inline_tokens_post].
Qed.

Lemma stack_step_len (v : indent_vec) (r : Result) (v' : indent_vec) :
  0 <= len v < 4294967295 -> stack_step v r v' ->
  v' = v
  \/ (r = res_finish START /\ len v' = len v + 1)
  \/ ((r = res_finish END \/ r = res_finish IN)
      /\ len v' = len v - 1 /\ len v <> 0).
Proof.
  intros Hlen H. destruct H as [r | ind | Hne | Hne].
  - left. reflexivity.
  - right. left. split; [reflexivity|]. unfold VEC_PUSH.
    destruct (cap v =? len v); cbn [len VEC_RESIZE]; apply wrap32_small; lia.
  - right. right. split; [left; reflexivity|]. split; [|exact Hne].
    unfold VEC_POP. cbn [len]. apply wrap32_small. lia.
  - right. right. split; [right; reflexivity|]. split; [|exact Hne].
    unfold VEC_POP. cbn [len]. apply wrap32_small. lia.
Qed.

Section Pipeline.

Variable iswspace : Z -> bool.

Lemma dot_post (st : State) : rule_post st (dot iswspace st).
Proof.
  unfold dot, finish, cont. post_step; [|post_leaf].
  post_step; [|post_leaf].
  apply (post_frame st (S_ADVANCE st) _ (frame_ADVANCE st)).
  destruct (SYM VARSYM (S_ADVANCE st)) eqn:E; cbn [andb]; [|post_leaf].
  post_step; [post_leaf|].
  apply post_finish_at; [split; reflexivity | left; assumption].
Qed.

Lemma init_post (st : State) : rule_post st (init iswspace st).
Proof.
  unfold init, fail, cont. post_step; [apply eof_post|].
  post_step; [repeat post_step|].
  post_step; [apply dot_post|].
  post_step; [|post_leaf].
  post_step; [apply fold_post; assumption | post_leaf].
Qed.

Lemma scan_main_post (st : State) : rule_post st (scan_main st).
Proof.
  unfold scan_main, skipspace.
  apply (post_frame _ _ _ (frame_skipspace (fuel_of st) st)).
  post_step; [apply eof_post|].
  apply (post_frame _ _ _ (frame_MARK st1)).
  post_step; [|apply immediate_post].
  apply (post_frame _ _ _ (frame_SKIP (MARK st1))).
  unfold count_indent.
  pose proof (frame_count_indent (fuel_of (S_SKIP (MARK st1))) 0
                (S_SKIP (MARK st1))) as F.
  destruct (count_indent_loop _ 0 (S_SKIP (MARK st1))) as [indent st2].
  cbn [snd] in F. apply (post_frame _ _ _ F). apply newline_post.
Qed.

Lemma scan_all_post (st : State) : rule_post st (scan_all iswspace st).
Proof.
  unfold scan_all. post_step; [apply init_post | apply scan_main_post].
Qed.

(** What [eval] hands to the host: true with the result symbol of a
    finished, non-FAIL result, false with the lexer's result symbol as it
    was otherwise. *)
Lemma eval_true (chk : Rule) (st st' : State) :
  eval chk st = (true, st') ->
  exists s, fst (chk st) = res_finish s /\ s <> FAIL
            /\ result_symbol (lexer st') = Some s
            /\ indents st' = indents (snd (chk st))
            /\ symbols st' = symbols (snd (chk st)).
Proof.
  unfold eval. destruct (chk st) as [[s f] st1]. cbn [fst snd sym finished].
  destruct f; cbn [andb]; [|discriminate].
  destruct (Sym_eqb s FAIL) eqn:E; cbn [negb]; [discriminate|].
  intros H. injection H as <-. exists s. repeat split.
  intros ->. discriminate.
Qed.

Lemma eval_false (chk : Rule) (st st' : State) :
  eval chk st = (false, st') -> st' = snd (chk st).
Proof.
  unfold eval. destruct (chk st) as [r st1]. cbn [snd].
  destruct (finished r && negb (Sym_eqb (sym r) FAIL)); congruence.
Qed.

(** A scan call leaves a well-formed stack of fewer than 2^31 entries
    well-formed. *)
Lemma scan_wf (v : indent_vec) (l : TSLexer) (syms : Sym -> bool) :
  vec_wf v -> len v < 2147483648 ->
  vec_wf (snd (tree_sitter_unison_external_scanner_scan iswspace v l syms)).
Proof.
  intros Hwf Hbig. unfold tree_sitter_unison_external_scanner_scan.
  set (st := {| lexer := l; symbols := syms; indents := v |}).
  pose proof (scan_all_post st) as [_ _ Hstack _].
  change (indents st) with v in Hstack.
  assert (Hout : vec_wf (indents (snd (scan_all iswspace st)))).
  { destruct Hstack as [r | ind | Hne | Hne].
    - exact Hwf.
    - apply VEC_PUSH_wf; assumption.
    - apply VEC_POP_wf; assumption.
    - apply VEC_POP_wf; assumption. }
  unfold eval. destruct (scan_all iswspace st) as [r st1]. cbn [snd] in *.
  destruct (finished r && negb (Sym_eqb (sym r) FAIL)); exact Hout.
Qed.

(** C1, as the code has it: the result symbol of a scan call that returns
    true is a requested symbol, or it is COMMENT or FOLD, which the comment
    rules of the newline path emit without consulting the requested set. *)
Theorem scan_emits_requested_or_comment
  (v : indent_vec) (l : TSLexer) (syms : Sym -> bool) :
  forall l' v',
  tree_sitter_unison_external_scanner_scan iswspace v l syms
    = (true, l', v') ->
  exists s, result_symbol l' = Some s /\ s <> FAIL
            /\ (syms s = true \/ s = COMMENT \/ s = FOLD).
Proof.
  intros l' v'. unfold tree_sitter_unison_external_scanner_scan.
  set (st := {| lexer := l; symbols := syms; indents := v |}).
  destruct (eval (scan_all iswspace) st) as [res st'] eqn:E.
  intros H. injection H as -> <- <-.
  destruct (eval_true _ _ _ E) as (s & Hr & Hs & Hl & _).
  exists s. split; [exact Hl|]. split; [exact Hs|].
  destruct (scan_all_post st) as [_ _ _ He]. rewrite Hr in He.
  destruct He as [He | [He | He]]; cbn in He;
    [discriminate | contradiction | exact He].
Qed.

(** C6: in a scan call on a stack of fewer than 2^32 - 1 entries, the
    length of the indent stack grows only if the call returns true with
    START, and then by one; it shrinks only if the call returns true with
    END or IN, and then by one; every other call leaves the stack as it
    was; and [pop] on an empty stack changes nothing. *)
Theorem stack_length_changes
  (v : indent_vec) (l : TSLexer) (syms : Sym -> bool) :
  0 <= len v < 4294967295 ->
  let out := tree_sitter_unison_external_scanner_scan iswspace v l syms in
  let res := fst (fst out) in
  let l' := snd (fst out) in
  let v' := snd out in
  (len v < len v' ->
     res = true /\ result_symbol l' = Some START /\ len v' = len v + 1)
  /\ (len v' < len v ->
     res = true /\ len v' = len v - 1
     /\ (result_symbol l' = Some END \/ result_symbol l' = Some IN))
  /\ (result_symbol l' <> Some START -> result_symbol l' <> Some END ->
      result_symbol l' <> Some IN -> v' = v)
  /\ (res = false -> v' = v)
  /\ (len v = 0 -> forall state, indents state = v -> pop state = state).
Proof.
  intros Hlen out res l' v'. subst res l' v' out.
  unfold tree_sitter_unison_external_scanner_scan.
  set (st := {| lexer := l; symbols := syms; indents := v |}).
  assert (Hpop : len v = 0 ->
            forall state, indents state = v -> pop state = state).
  { intros H0 state Hv. unfold pop, indent_exists. rewrite Hv, H0.
    reflexivity. }
  pose proof (scan_all_post st) as [_ Hcont Hstack _].
  change (indents st) with v in Hcont, Hstack.
  apply (stack_step_len _ _ _ Hlen) in Hstack.
  destruct (eval (scan_all iswspace) st) as [res st'] eqn:E.
  cbn [fst snd]. destruct res.
  - destruct (eval_true _ _ _ E) as (s & Hr & Hs & Hl & Hi & _).
    rewrite Hr in Hstack. rewrite Hi, Hl.
    destruct Hstack as [-> | [[Hsym Hl1] | [Hsym [Hl1 Hne]]]].
    + repeat split; try lia; try assumption; intros; reflexivity.
    + injection Hsym as ->.
      repeat split; try lia; try assumption; try reflexivity;
        intros; congruence.
    + assert (Hs' : s = END \/ s = IN)
        by (destruct Hsym as [H | H]; injection H as ->; auto).
      repeat split; try lia; try assumption;
        try (destruct Hs' as [-> | ->]; (left + right); reflexivity);
        try (intros; destruct Hs' as [-> | ->]; congruence).
  - pose proof (eval_false _ _ _ E) as ->.
    assert (Hsame : indents (snd (scan_all iswspace st)) = v).
    { unfold eval in E. destruct (scan_all iswspace st) as [[s f] st1].
      cbn [fst snd sym finished] in *.
      destruct f; [|apply Hcont; reflexivity].
      cbn [andb] in E.
      destruct Hstack as [-> | [[Hsym _] | [[Hsym | Hsym] _]]];
        [reflexivity | | |]; injection Hsym as ->; discriminate. }
    rewrite Hsame. repeat split; try lia; try assumption;
      intros; reflexivity.
Qed.

End Pipeline.

(** ** The loops never run out of fuel *)

Lemma enough_fuel_of (st : State) : enough (fuel_of st) st.
Proof. unfold enough, fuel_of. lia. Qed.

Lemma peek_cons (st : State) :
  PEEK st <> 0 ->
  exists rest, input (lexer st) = PEEK st :: rest.
Proof.
  unfold PEEK, lookahead. destruct (input (lexer st)) as [|c rest]; cbn.
  - congruence.
  - intros _. exists rest. reflexivity.
Qed.

Lemma input_advance (st : State) (skip : bool) (c : Z) (rest : list Z) :
  input (lexer st) = c :: rest ->
  input (lexer_advance (lexer st) skip) = rest.
Proof. intros H. unfold lexer_advance. rewrite H. reflexivity. Qed.

Lemma enough_ADVANCE (fuel : nat) (st : State) :
  PEEK st <> 0 -> enough (S fuel) st -> enough fuel (S_ADVANCE st).
Proof.
  intros Hp He. destruct (peek_cons st Hp) as [rest Hin].
  unfold enough in *. cbn [S_ADVANCE with_lexer lexer].
  rewrite (input_advance st false _ _ Hin). rewrite Hin in He. cbn in He. lia.
Qed.

Lemma enough_SKIP (fuel : nat) (st : State) :
  PEEK st <> 0 -> enough (S fuel) st -> enough fuel (S_SKIP st).
Proof.
  intros Hp He. destruct (peek_cons st Hp) as [rest Hin].
  unfold enough in *. cbn [S_SKIP with_lexer lexer].
  rewrite (input_advance st true _ _ Hin). rewrite Hin in He. cbn in He. lia.
Qed.

Lemma enough_ADVANCE_any (fuel : nat) (st : State) :
  enough fuel st -> enough fuel (S_ADVANCE st).
Proof.
  unfold enough. cbn [S_ADVANCE with_lexer lexer]. unfold lexer_advance.
  destruct (input (lexer st)) as [|c rest] eqn:E.
  - rewrite E. trivial.
  - cbn [input length]. lia.
Qed.

Lemma not_eof_peek (st : State) :
  is_eof st = false -> exists c rest, input (lexer st) = c :: rest.
Proof.
  unfold is_eof, lexer_eof. destruct (input (lexer st)) as [|c rest].
  - discriminate.
  - intros _. exists c, rest. reflexivity.
Qed.

(** Tests of the lookahead against a non-NUL character, turned into
    [PEEK st <> 0]. *)
Ltac peek_nonzero :=
  match goal with
  | H : (PEEK ?st =? ?c) = true |- PEEK ?st <> 0 =>
      apply Z.eqb_eq in H; rewrite H; discriminate
  | H : is_newline (PEEK ?st) = true |- PEEK ?st <> 0 =>
      let E := fresh in
      intros E; rewrite E in H; discriminate
  | H : (_ || _) = true |- PEEK ?st <> 0 =>
      let E := fresh in
      intros E; rewrite E in H; discriminate
  | H : (_ || (PEEK ?st =? 0)) = false |- PEEK ?st <> 0 =>
      apply orb_false_elim in H; destruct H as [_ H];
      apply Z.eqb_neq in H; exact H
  | H : (PEEK ?st =? 0) = false |- PEEK ?st <> 0 =>
      apply Z.eqb_neq in H; exact H
  end.

Lemma skipspace_loop_fuel (fuel : nat) (st : State) :
  enough fuel st -> skipspace_loop (S fuel) st = skipspace_loop fuel st.
Proof.
  revert st. induction fuel as [|fuel IH]; intros st He.
  - unfold enough in He. lia.
  - cbn [skipspace_loop] in *.
    destruct ((PEEK st =? chr " ") || (PEEK st =? TAB)) eqn:E; [|reflexivity].
    apply IH. apply enough_SKIP; [peek_nonzero | exact He].
Qed.

Lemma count_indent_loop_fuel (fuel : nat) (indent : Z) (st : State) :
  enough fuel st ->
  count_indent_loop (S fuel) indent st = count_indent_loop fuel indent st.
Proof.
  revert indent st. induction fuel as [|fuel IH]; intros indent st He.
  - unfold enough in He. lia.
  - cbn [count_indent_loop] in *.
    destruct (is_newline (PEEK st)) eqn:E1;
      [apply IH; apply enough_SKIP; [peek_nonzero | exact He]|].
    destruct (PEEK st =? chr " ") eqn:E2;
      [apply IH; apply enough_SKIP; [peek_nonzero | exact He]|].
    destruct (PEEK st =? TAB) eqn:E3;
      [apply IH; apply enough_SKIP; [peek_nonzero | exact He]|].
    reflexivity.
Qed.

Lemma inline_comment_loop_fuel (fuel : nat) (st : State) :
  enough fuel st ->
  inline_comment_loop (S fuel) st = inline_comment_loop fuel st.
Proof.
  revert st. induction fuel as [|fuel IH]; intros st He.
  - unfold enough in He. lia.
  - cbn [inline_comment_loop] in *.
    destruct (is_newline (PEEK st) || (PEEK st =? 0)) eqn:E; [reflexivity|].
    apply IH. apply enough_ADVANCE; [peek_nonzero | exact He].
Qed.

Lemma advance_to_eof_loop_fuel (fuel : nat) (st : State) :
  enough fuel st ->
  advance_to_eof_loop (S fuel) st = advance_to_eof_loop fuel st.
Proof.
  revert st. induction fuel as [|fuel IH]; intros st He.
  - unfold enough in He. lia.
  - cbn [advance_to_eof_loop] in *.
    destruct (is_eof st) eqn:E; cbn [negb]; [reflexivity|].
    apply IH. destruct (not_eof_peek st E) as (c & rest & Hin).
    unfold enough in *. cbn [S_ADVANCE with_lexer lexer].
    rewrite (input_advance st false _ _ Hin). rewrite Hin in He.
    cbn in He. lia.
Qed.

Lemma multiline_comment_loop_S (fuel : nat) (level : Z) (st : State) :
  multiline_comment_loop (S fuel) level st =
    if PEEK st =? chr "{" then
      if PEEK (S_ADVANCE st) =? chr "-" then
        multiline_comment_loop fuel (wrap16 (level + 1))
          (S_ADVANCE (S_ADVANCE st))
      else multiline_comment_loop fuel level (S_ADVANCE st)
    else if PEEK st =? chr "-" then
      if PEEK (S_ADVANCE st) =? chr "}" then
        if level =? 0
        then multiline_comment_success (S_ADVANCE (S_ADVANCE st))
        else multiline_comment_loop fuel (wrap16 (level - 1))
               (S_ADVANCE (S_ADVANCE st))
      else multiline_comment_loop fuel level (S_ADVANCE st)
    else if PEEK st =? 0 then short (eof st) fail
    else multiline_comment_loop fuel level (S_ADVANCE st).
Proof. reflexivity. Qed.

Lemma multiline_comment_loop_fuel (fuel : nat) (level : Z) (st : State) :
  enough fuel st ->
  multiline_comment_loop (S fuel) level st
  = multiline_comment_loop fuel level st.
Proof.
  revert level st. induction fuel as [|fuel IH]; intros level st He.
  - unfold enough in He. lia.
  - rewrite (multiline_comment_loop_S (S fuel) level st),
      (multiline_comment_loop_S fuel level st).
    destruct (PEEK st =? chr "{") eqn:E1.
    { assert (He1 : enough fuel (S_ADVANCE st))
        by (apply enough_ADVANCE; [peek_nonzero | exact He]).
      destruct (PEEK (S_ADVANCE st) =? chr "-");
        apply IH; [apply enough_ADVANCE_any|]; exact He1. }
    destruct (PEEK st =? chr "-") eqn:E2.
    { assert (He1 : enough fuel (S_ADVANCE st))
        by (apply enough_ADVANCE; [peek_nonzero | exact He]).
      destruct (PEEK (S_ADVANCE st) =? chr "}"); [|apply IH; exact He1].
      destruct (level =? 0); [reflexivity|].
      apply IH. apply enough_ADVANCE_any. exact He1. }
    destruct (PEEK st =? 0) eqn:E3; [reflexivity|].
    apply IH. apply enough_ADVANCE; [peek_nonzero | exact He].
Qed.

(** A computation on fuel that one more unit does not change from [n] on
    is the same at any amount from [n] on. *)
Lemma fuel_stable {A : Type} (F : nat -> A) (n : nat) :
  (forall f, (n <= f)%nat -> F (S f) = F f) ->
  forall f, (n <= f)%nat -> F f = F n.
Proof.
  intros H f Hf. induction Hf as [|m Hm IH]; [reflexivity|].
  rewrite H by exact Hm. exact IH.
Qed.

Lemma skipspace_any_fuel (fuel : nat) (st : State) :
  enough fuel st -> skipspace_loop fuel st = skipspace st.
Proof.
  intros He. unfold skipspace.
  apply (fuel_stable (fun f => skipspace_loop f st) (fuel_of st)).
  - intros f Hf. apply skipspace_loop_fuel.
    unfold enough, fuel_of in *. lia.
  - unfold enough, fuel_of in *. lia.
Qed.

Lemma count_indent_any_fuel (fuel : nat) (st : State) :
  enough fuel st -> count_indent_loop fuel 0 st = count_indent st.
Proof.
  intros He. unfold count_indent.
  apply (fuel_stable (fun f => count_indent_loop f 0 st) (fuel_of st)).
  - intros f Hf. apply count_indent_loop_fuel.
    unfold enough, fuel_of in *. lia.
  - unfold enough, fuel_of in *. lia.
Qed.

Lemma inline_comment_any_fuel (fuel : nat) (st : State) :
  enough fuel st ->
  (res_finish COMMENT, MARK (inline_comment_loop fuel st))
  = inline_comment st.
Proof.
  intros He. unfold inline_comment, finish. do 2 f_equal.
  apply (fuel_stable (fun f => inline_comment_loop f st) (fuel_of st)).
  - intros f Hf. apply inline_comment_loop_fuel.
    unfold enough, fuel_of in *. lia.
  - unfold enough, fuel_of in *. lia.
Qed.

Lemma advance_to_eof_any_fuel (fuel : nat) (st : State) :
  enough fuel st -> advance_to_eof_loop fuel st = advance_to_eof st.
Proof.
  intros He. unfold advance_to_eof.
  apply (fuel_stable (fun f => advance_to_eof_loop f st) (fuel_of st)).
  - intros f Hf. apply advance_to_eof_loop_fuel.
    unfold enough, fuel_of in *. lia.
  - unfold enough, fuel_of in *. lia.
Qed.

Lemma multiline_comment_any_fuel (fuel : nat) (st : State) :
  enough fuel st -> multiline_comment_loop fuel 0 st = multiline_comment st.
Proof.
  intros He. unfold multiline_comment.
  apply (fuel_stable (fun f => multiline_comment_loop f 0 st) (fuel_of st)).
  - intros f Hf. apply multiline_comment_loop_fuel.
    unfold enough, fuel_of in *. lia.
  - unfold enough, fuel_of in *. lia.
Qed.

(** [advance_to_eof] does arrive at end-of-file. *)
Lemma advance_to_eof_loop_arrives (fuel : nat) (st : State) :
  enough fuel st -> is_eof (advance_to_eof_loop fuel st) = true.
Proof.
  revert st. induction fuel as [|fuel IH]; intros st He.
  - unfold enough in He. lia.
  - cbn [advance_to_eof_loop].
    destruct (is_eof st) eqn:E; cbn [negb]; [exact E|].
    destruct fuel as [|fuel'].
    + destruct (not_eof_peek st E) as (c & rest & Hin).
      unfold enough in He. rewrite Hin in He. cbn in He. lia.
    + apply IH. destruct (not_eof_peek st E) as (c & rest & Hin).
      unfold enough in *. cbn [S_ADVANCE with_lexer lexer].
      rewrite (input_advance st false _ _ Hin). rewrite Hin in He.
      cbn in He. lia.
Qed.

Lemma multiline_comment_loop_any_fuel
  (fuel fuel' : nat) (level : Z) (st : State) :
  enough fuel st -> enough fuel' st ->
  multiline_comment_loop fuel level st
  = multiline_comment_loop fuel' level st.
Proof.
  intros H1 H2.
  assert (Hst : forall f, enough f st ->
            multiline_comment_loop f level st
            = multiline_comment_loop (fuel_of st) level st).
  { intros f Hf.
    apply (fuel_stable (fun f => multiline_comment_loop f level st)
             (fuel_of st)).
    - intros f' Hf'. apply multiline_comment_loop_fuel.
      unfold enough, fuel_of in *. lia.
    - unfold enough, fuel_of in *. lia. }
  rewrite (Hst fuel H1), (Hst fuel' H2). reflexivity.
Qed.

(** ** Block comments *)

Lemma peek_input (st : State) (c : Z) (k : list Z) :
  input (lexer st) = c :: k -> PEEK st = c.
Proof. intros H. unfold PEEK, lookahead. rewrite H. reflexivity. Qed.

Lemma input_ADVANCE (st : State) (c : Z) (k : list Z) :
  input (lexer st) = c :: k -> input (lexer (S_ADVANCE st)) = k.
Proof. intros H. apply (input_advance st false c k H). Qed.

Lemma position_ADVANCE (st : State) (c : Z) (k : list Z) :
  input (lexer st) = c :: k ->
  position (lexer (S_ADVANCE st)) = position (lexer st) + 1.
Proof.
  intros H. cbn [S_ADVANCE with_lexer lexer]. unfold lexer_advance.
  rewrite H. reflexivity.
Qed.

Lemma input_consume (a k : list Z) (st : State) :
  input (lexer st) = a ++ k -> input (lexer (consume (length a) st)) = k.
Proof.
  revert st. induction a as [|c a IH]; intros st H; cbn [length consume].
  - exact H.
  - apply IH. apply (input_ADVANCE st c). exact H.
Qed.

Lemma position_consume (a k : list Z) (st : State) :
  input (lexer st) = a ++ k ->
  position (lexer (consume (length a) st))
  = position (lexer st) + Z.of_nat (length a).
Proof.
  revert st. induction a as [|c a IH]; intros st H; cbn [length consume].
  - cbn. lia.
  - rewrite (IH (S_ADVANCE st)) by (apply (input_ADVANCE st c); exact H).
    rewrite (position_ADVANCE st c (a ++ k)) by exact H. lia.
Qed.

Lemma frame_consume (n : nat) (st : State) : same_frame st (consume n st).
Proof.
  revert st. induction n as [|n IH]; intros st; cbn [consume].
  - apply same_frame_refl.
  - eapply same_frame_trans; [apply frame_ADVANCE | apply IH].
Qed.

Lemma enough_consume (fuel n : nat) (st : State) :
  enough fuel st -> enough fuel (consume n st).
Proof.
  revert st. induction n as [|n IH]; intros st He; cbn [consume].
  - exact He.
  - apply IH. apply enough_ADVANCE_any. exact He.
Qed.

Lemma consume_add (n m : nat) (st : State) :
  consume (n + m) st = consume m (consume n st).
Proof.
  revert st. induction n as [|n IH]; intros st; cbn [Nat.add consume].
  - reflexivity.
  - apply IH.
Qed.

(** One iteration of the loop of [multiline_comment], by what the input
    starts with. *)
Lemma loop_opener (fuel : nat) (level : Z) (st : State) (k : list Z) :
  enough fuel st ->
  input (lexer st) = chr "{" :: chr "-" :: k ->
  multiline_comment_loop fuel level st
  = multiline_comment_loop fuel (wrap16 (level + 1))
      (S_ADVANCE (S_ADVANCE st)).
Proof.
  intros He Hin. destruct fuel as [|fuel]; [unfold enough in He; lia|].
  rewrite multiline_comment_loop_S.
  pose proof (input_ADVANCE st _ _ Hin) as Hin1.
  pose proof (input_ADVANCE _ _ _ Hin1) as Hin2.
  rewrite (peek_input st _ _ Hin), Z.eqb_refl.
  rewrite (peek_input _ _ _ Hin1), Z.eqb_refl.
  apply multiline_comment_loop_any_fuel; unfold enough in *;
    rewrite Hin2; rewrite Hin in He; cbn [length] in He; lia.
Qed.

Lemma loop_closer (fuel : nat) (level : Z) (st : State) (k : list Z) :
  enough fuel st ->
  input (lexer st) = chr "-" :: chr "}" :: k ->
  multiline_comment_loop fuel level st
  = if level =? 0
    then multiline_comment_success (S_ADVANCE (S_ADVANCE st))
    else multiline_comment_loop fuel (wrap16 (level - 1))
           (S_ADVANCE (S_ADVANCE st)).
Proof.
  intros He Hin. destruct fuel as [|fuel]; [unfold enough in He; lia|].
  rewrite multiline_comment_loop_S.
  pose proof (input_ADVANCE st _ _ Hin) as Hin1.
  pose proof (input_ADVANCE _ _ _ Hin1) as Hin2.
  rewrite (peek_input st _ _ Hin).
  change (chr "-" =? chr "{") with false. cbv iota. rewrite Z.eqb_refl.
  rewrite (peek_input _ _ _ Hin1), Z.eqb_refl.
  destruct (level =? 0); [reflexivity|].
  apply multiline_comment_loop_any_fuel; unfold enough in *;
    rewrite Hin2; rewrite Hin in He; cbn [length] in He; lia.
Qed.

Lemma loop_character (fuel : nat) (level : Z) (st : State)
  (c : Z) (k : list Z) :
  enough fuel st ->
  input (lexer st) = c :: k ->
  c <> 0 ->
  (c =? chr "{") && (hd 0 k =? chr "-") = false ->
  (c =? chr "-") && (hd 0 k =? chr "}") = false ->
  multiline_comment_loop fuel level st
  = multiline_comment_loop fuel level (S_ADVANCE st).
Proof.
  intros He Hin Hc H1 H2.
  destruct fuel as [|fuel]; [unfold enough in He; lia|].
  rewrite multiline_comment_loop_S.
  pose proof (input_ADVANCE st _ _ Hin) as Hin1.
  assert (Hp1 : PEEK (S_ADVANCE st) = hd 0 k)
    by (unfold PEEK, lookahead; rewrite Hin1; reflexivity).
  assert (Hf : multiline_comment_loop fuel level (S_ADVANCE st)
               = multiline_comment_loop (S fuel) level (S_ADVANCE st)).
  { apply multiline_comment_loop_any_fuel; unfold enough in *;
      rewrite Hin1; rewrite Hin in He; cbn [length] in He; lia. }
  rewrite (peek_input st _ _ Hin), Hp1.
  destruct (c =? chr "{") eqn:E1.
  { cbn [andb] in H1. rewrite H1. exact Hf. }
  destruct (c =? chr "-") eqn:E2.
  { cbn [andb] in H2. rewrite H2. exact Hf. }
  apply Z.eqb_neq in Hc. rewrite Hc. exact Hf.
Qed.

Lemma loop_end_of_input (fuel : nat) (level : Z) (st : State) :
  enough fuel st ->
  input (lexer st) = [] ->
  multiline_comment_loop fuel level st = short (eof st) fail.
Proof.
  intros He Hin. destruct fuel as [|fuel]; [unfold enough in He; lia|].
  rewrite multiline_comment_loop_S.
  unfold PEEK, lookahead. rewrite Hin. reflexivity.
Qed.

Lemma hd_render (ps : list piece) (k : list Z) :
  hd 0 (render ps ++ k) = follow ps (hd 0 k).
Proof. destruct ps as [|[| |c] ps]; reflexivity. Qed.

Lemma render_app (a b : list piece) : render (a ++ b) = render a ++ render b.
Proof. unfold render. apply flat_map_app. Qed.

Lemma net_app (a b : list piece) : net (a ++ b) = net a + net b.
Proof.
  induction a as [|[| |c] a IH]; cbn [app net]; try rewrite IH; lia.
Qed.

Lemma peak_ge (ps : list piece) (d : Z) : d <= peak d ps.
Proof.
  revert d. induction ps as [|[| |c] ps IH]; intros d; cbn [peak].
  - lia.
  - lia.
  - lia.
  - apply IH.
Qed.

Lemma peak_app (a b : list piece) (d : Z) :
  peak d (a ++ b) = Z.max (peak d a) (peak (d + net a) b).
Proof.
  revert d. induction a as [|[| |c] a IH]; intros d; cbn [app peak net].
  - rewrite Z.add_0_r. pose proof (peak_ge b d). lia.
  - rewrite IH. replace (d + 1 + net a) with (d + (1 + net a)) by lia. lia.
  - rewrite IH. replace (d - 1 + net a) with (d + (net a - 1)) by lia. lia.
  - apply IH.
Qed.

Lemma tracked_app (a b : list piece) (d : Z) :
  tracked d a -> tracked (d + net a) b -> tracked d (a ++ b).
Proof.
  revert d. induction a as [|[| |c] a IH]; intros d Ha Hb;
    cbn [app tracked net] in *.
  - rewrite Z.add_0_r in Hb. exact Hb.
  - destruct Ha as [H1 H2]. split; [exact H1|]. apply IH; [exact H2|].
    replace (d + 1 + net a) with (d + (1 + net a)) by lia. exact Hb.
  - destruct Ha as [H1 H2]. split; [exact H1|]. apply IH; [exact H2|].
    replace (d - 1 + net a) with (d + (net a - 1)) by lia. exact Hb.
  - apply IH; assumption.
Qed.

Lemma balanced_net (ps : list piece) : balanced ps -> net ps = 0.
Proof.
  induction 1 as [|c ps _ IH|inner ps _ IH1 _ IH2]; cbn [net].
  - reflexivity.
  - exact IH.
  - rewrite net_app. cbn [net]. lia.
Qed.

Lemma balanced_tracked (ps : list piece) :
  balanced ps -> forall d, 0 <= d -> peak d ps < 65536 -> tracked d ps.
Proof.
  induction 1 as [|c ps _ IH|inner ps Hin IH1 _ IH2]; intros d Hd Hpk;
    cbn [tracked peak] in *.
  - exact I.
  - apply IH; assumption.
  - rewrite peak_app, (balanced_net inner Hin) in Hpk.
    cbn [peak] in Hpk.
    replace (d + 1 + 0 - 1) with d in Hpk by lia.
    pose proof (peak_ge inner (d + 1)). pose proof (peak_ge ps d).
    split; [lia|]. apply tracked_app.
    + apply IH1; lia.
    + rewrite (balanced_net inner Hin). cbn [tracked].
      split; [lia|]. replace (d + 1 + 0 - 1) with d by lia.
      apply IH2; lia.
Qed.

Lemma unclosed_tracked (ps : list piece) :
  unclosed ps -> forall d, 0 <= d -> peak d ps < 65536 -> tracked d ps.
Proof.
  induction 1 as [|c ps _ IH|ps _ IH|inner ps Hin _ IH]; intros d Hd Hpk;
    cbn [tracked peak] in *.
  - exact I.
  - apply IH; assumption.
  - pose proof (peak_ge ps (d + 1)). split; [lia|]. apply IH; lia.
  - rewrite peak_app, (balanced_net inner Hin) in Hpk.
    cbn [peak] in Hpk.
    replace (d + 1 + 0 - 1) with d in Hpk by lia.
    pose proof (peak_ge inner (d + 1)). pose proof (peak_ge ps d).
    split; [lia|]. apply tracked_app.
    + apply balanced_tracked; [exact Hin | lia | lia].
    + rewrite (balanced_net inner Hin). cbn [tracked].
      split; [lia|]. replace (d + 1 + 0 - 1) with d by lia.
      apply IH; lia.
Qed.

Lemma render_Open (ps : list piece) :
  render (Open :: ps) = chr "{" :: chr "-" :: render ps.
Proof. reflexivity. Qed.

Lemma render_Close (ps : list piece) :
  render (Close :: ps) = chr "-" :: chr "}" :: render ps.
Proof. reflexivity. Qed.

Lemma render_Chr (c : Z) (ps : list piece) :
  render (Chr c :: ps) = c :: render ps.
Proof. reflexivity. Qed.

(** The loop reads a tracked run of pieces piece by piece and arrives
    behind it with the level the pieces add up to. *)
Lemma loop_pieces (ps : list piece) :
  forall (level : Z) (fuel : nat) (st : State) (k : list Z),
  enough fuel st ->
  input (lexer st) = render ps ++ k ->
  lexable ps (hd 0 k) = true ->
  0 <= level < 65536 -> tracked level ps ->
  multiline_comment_loop fuel level st
  = multiline_comment_loop fuel (level + net ps)
      (consume (length (render ps)) st).
Proof.
  induction ps as [|[| |c] ps IH]; intros level fuel st k He Hin Hlex Hl Ht.
  - cbn [net render flat_map length consume]. rewrite Z.add_0_r. reflexivity.
  - rewrite render_Open in *. cbn [app length consume net lexable] in *.
    destruct Ht as [Hlt Ht].
    rewrite (loop_opener fuel level st (render ps ++ k) He Hin).
    rewrite wrap16_small by lia.
    pose proof (input_ADVANCE st _ _ Hin) as Hin1.
    pose proof (input_ADVANCE _ _ _ Hin1) as Hin2.
    rewrite (IH (level + 1) fuel _ k); try assumption; try lia.
    + replace (level + 1 + net ps) with (level + (1 + net ps)) by lia.
      reflexivity.
    + do 2 apply enough_ADVANCE_any. exact He.
  - rewrite render_Close in *. cbn [app length consume net lexable] in *.
    destruct Ht as [Hlt Ht].
    rewrite (loop_closer fuel level st (render ps ++ k) He Hin).
    destruct (level =? 0) eqn:E; [apply Z.eqb_eq in E; lia|].
    rewrite wrap16_small by lia.
    pose proof (input_ADVANCE st _ _ Hin) as Hin1.
    pose proof (input_ADVANCE _ _ _ Hin1) as Hin2.
    rewrite (IH (level - 1) fuel _ k); try assumption; try lia.
    + replace (level - 1 + net ps) with (level + (net ps - 1)) by lia.
      reflexivity.
    + do 2 apply enough_ADVANCE_any. exact He.
  - rewrite render_Chr in *. cbn [app length consume net lexable] in *.
    apply andb_prop in Hlex. destruct Hlex as [Hlex Hrest].
    apply andb_prop in Hlex. destruct Hlex as [Hlex H2].
    apply andb_prop in Hlex. destruct Hlex as [H0 H1].
    apply negb_true_iff in H0, H1, H2. apply Z.eqb_neq in H0.
    rewrite <- hd_render in H1, H2.
    rewrite (loop_character fuel level st c (render ps ++ k) He Hin H0 H1 H2).
    pose proof (input_ADVANCE st _ _ Hin) as Hin1.
    rewrite (IH level fuel _ k); try assumption; try reflexivity.
    apply enough_ADVANCE_any. exact He.
Qed.

Lemma short_eof_at_end (st : State) :
  is_eof st = true ->
  short (eof st) fail =
    if SYM EMPTY st then (res_finish EMPTY, st)
    else if SYM END st then (res_finish END, pop st)
    else if SYM SEMICOLON st then (res_finish SEMICOLON, st)
    else (res_fail, st).
Proof.
  intros H. rewrite (eof_at_end st H).
  destruct (SYM EMPTY st); [reflexivity|].
  destruct (SYM END st); [reflexivity|].
  destruct (SYM SEMICOLON st); reflexivity.
Qed.

(** ** From a scan call to [brace] *)

Lemma multiline_comment_loop_finished (fuel : nat) (level : Z) (st : State) :
  finished (fst (multiline_comment_loop fuel level st)) = true.
Proof.
  revert level st. induction fuel as [|fuel IH]; intros level st;
    [reflexivity|].
  rewrite multiline_comment_loop_S.
  destruct (PEEK st =? chr "{");
    [destruct (PEEK (S_ADVANCE st) =? chr "-"); apply IH|].
  destruct (PEEK st =? chr "-").
  { destruct (PEEK (S_ADVANCE st) =? chr "}"); [|apply IH].
    destruct (level =? 0); [reflexivity | apply IH]. }
  destruct (PEEK st =? 0); [|apply IH].
  unfold short. destruct (eof st) as [r st1].
  destruct (finished r) eqn:E; [exact E | reflexivity].
Qed.

Lemma brace_finished (st : State) : finished (fst (brace st)) = true.
Proof.
  unfold brace, fail, multiline_comment.
  destruct (negb (PEEK st =? chr "{")); [reflexivity|].
  destruct (negb (PEEK (S_ADVANCE st) =? chr "-")); [reflexivity|].
  apply multiline_comment_loop_finished.
Qed.

Lemma init_at_line_break (iswspace : Z -> bool) (st : State) :
  after_error st = false -> PEEK st = LF ->
  init iswspace st = (res_cont, st).
Proof.
  intros Herr Hp.
  assert (Heof : is_eof st = false).
  { unfold is_eof, lexer_eof. unfold PEEK, lookahead in Hp.
    destruct (input (lexer st)); [discriminate Hp | reflexivity]. }
  unfold init. rewrite (eof_not_at_end st Heof).
  cbn [short res_cont finished]. rewrite Herr.
  cbn [short res_cont finished cont].
  unfold dot, fold, cont. rewrite Hp.
  change (LF =? chr ".") with false.
  destruct (SYM DOT st); cbn [short res_cont finished];
    (destruct (SYM FOLD st); [|reflexivity]);
    cbn [codes list_ascii_of_string map seq]; rewrite Hp; reflexivity.
Qed.

Lemma scan_main_at_line_break (st : State) (k : list Z) :
  input (lexer st) = LF :: chr "{" :: k ->
  scan_main st = short (brace (S_SKIP (MARK st))) fail.
Proof.
  intros Hin.
  assert (Hp : PEEK st = LF) by (apply (peek_input st _ _ Hin)).
  assert (Heof : is_eof st = false)
    by (unfold is_eof, lexer_eof; rewrite Hin; reflexivity).
  assert (Hin1 : input (lexer (S_SKIP (MARK st))) = chr "{" :: k)
    by (apply (input_advance (MARK st) true LF); exact Hin).
  assert (Hp1 : PEEK (S_SKIP (MARK st)) = chr "{")
    by (apply (peek_input _ _ _ Hin1)).
  assert (Heof1 : is_eof (S_SKIP (MARK st)) = false)
    by (unfold is_eof, lexer_eof; rewrite Hin1; reflexivity).
  unfold scan_main, skipspace, fuel_of. cbn [skipspace_loop].
  rewrite Hp. change ((LF =? chr " ") || (LF =? TAB)) with false. cbv iota.
  rewrite (eof_not_at_end st Heof). cbn [short res_cont finished].
  replace (PEEK (MARK st)) with LF by (symmetry; exact Hp).
  change (is_newline LF) with true. cbv iota.
  unfold count_indent, fuel_of. cbn [count_indent_loop].
  rewrite Hp1.
  change (is_newline (chr "{")) with false.
  change (chr "{" =? chr " ") with false.
  change (chr "{" =? TAB) with false. cbv iota.
  unfold newline. rewrite (eof_not_at_end _ Heof1).
  cbn [short res_cont finished].
  unfold comment. rewrite Hp1.
  change (chr "{" =? chr "-") with false.
  change (chr "{" =? chr "{") with true. cbv iota.
  pose proof (brace_finished (S_SKIP (MARK st))) as Hfin.
  destruct (brace (S_SKIP (MARK st))) as [r st1]. cbn [fst] in Hfin.
  unfold short. rewrite Hfin. cbv beta iota. rewrite Hfin. reflexivity.
Qed.

(** A scan call that is not an after-error call and finds a line break
    directly followed by '{' skips the line break and ends with what
    [brace] ends with there: block comments are scanned on the newline
    path. *)
Lemma scan_line_break_then_brace
  (iswspace : Z -> bool) (v : indent_vec) (l : TSLexer) (syms : Sym -> bool)
  (k : list Z) :
  all_syms syms = false ->
  input l = LF :: chr "{" :: k ->
  tree_sitter_unison_external_scanner_scan iswspace v l syms
  = let (res, state) :=
      eval brace
        (S_SKIP (MARK {| lexer := l; symbols := syms; indents := v |})) in
    (res, lexer state, indents state).
Proof.
  intros Hall Hin.
  unfold tree_sitter_unison_external_scanner_scan, eval, scan_all.
  set (st := {| lexer := l; symbols := syms; indents := v |}).
  rewrite (init_at_line_break iswspace st Hall (peek_input st _ _ Hin)).
  cbn [short res_cont finished].
  rewrite (scan_main_at_line_break st k Hin).
  pose proof (brace_finished (S_SKIP (MARK st))) as Hfin.
  destruct (brace (S_SKIP (MARK st))) as [r st1]. cbn [fst] in Hfin.
  unfold short. rewrite Hfin. cbv beta iota. rewrite ?Hfin. reflexivity.
Qed.

(** ** [brace] on the block comments of the description *)

Lemma brace_enters (st : State) (k : list Z) :
  input (lexer st) = chr "{" :: chr "-" :: k ->
  brace st
  = multiline_comment_loop (fuel_of (S_ADVANCE (S_ADVANCE st))) 0
      (S_ADVANCE (S_ADVANCE st))
  /\ input (lexer (S_ADVANCE (S_ADVANCE st))) = k.
Proof.
  intros Hin.
  pose proof (input_ADVANCE st _ _ Hin) as Hin1.
  pose proof (input_ADVANCE _ _ _ Hin1) as Hin2.
  split; [|exact Hin2].
  unfold brace, multiline_comment.
  rewrite (peek_input st _ _ Hin), (peek_input _ _ _ Hin1), !Z.eqb_refl.
  reflexivity.
Qed.

(** C4, as the code has it: entered at the '{' of a balanced block comment
    whose nesting depth is below 65536, whose characters are not NUL and
    whose '{' and '-' outside openers and closers are not followed by '-'
    and '}', [brace] consumes through exactly the matching closing "-}",
    marks the end there, emits COMMENT and leaves the stack alone; entered
    at the '{' of such a comment that is never closed, it consumes the
    whole input and ends with what the [eof] rule decides there: EMPTY if
    requested, else END with a pop if requested, else SEMICOLON if
    requested, and failure only otherwise.  A scan call that is not an
    after-error call runs [brace] at that '{' when the '{' directly follows
    the line break the call starts at, and returns what [brace] ends
    with.
    In the unclosed case nothing of the input is left, and the
    stack is as before except where END is emitted on a stack that is not
    empty: there [len] is one less, the allocation is untouched and the
    entries are the old ones without their top. *)
Theorem brace_block_comment
  (state : State) (body : list piece) (rest : list Z) :
  nesting body < 65536 ->
  (balanced body -> lexable body (chr "-") = true ->
   input (lexer state) = codes "{-" ++ render body ++ codes "-}" ++ rest ->
   let n := length (codes "{-" ++ render body ++ codes "-}") in
   brace state = (res_finish COMMENT, MARK (consume n state))
   /\ input (lexer (snd (brace state))) = rest
   /\ marked (lexer (snd (brace state)))
      = Some (position (lexer state) + Z.of_nat n)
   /\ indents (snd (brace state)) = indents state)
  /\ (unclosed body -> lexable body 0 = true ->
      input (lexer state) = codes "{-" ++ render body ->
      let state' := consume (length (input (lexer state))) state in
      is_eof state' = true
      /\ brace state =
           (if SYM EMPTY state then (res_finish EMPTY, state')
            else if SYM END state then (res_finish END, pop state')
            else if SYM SEMICOLON state then (res_finish SEMICOLON, state')
            else (res_fail, state'))
      /\ input (lexer (snd (brace state))) = []
      /\ position (lexer (snd (brace state)))
         = position (lexer state) + Z.of_nat (length (input (lexer state)))
      /\ (SYM EMPTY state = true \/ SYM END state = false
          \/ len (indents state) = 0 ->
          indents (snd (brace state)) = indents state)
      /\ (SYM EMPTY state = false -> SYM END state = true ->
          len (indents state) <> 0 ->
          len (indents (snd (brace state)))
          = wrap32 (len (indents state) - 1)
          /\ cap (indents (snd (brace state))) = cap (indents state)
          /\ data (indents (snd (brace state))) = data (indents state))
      /\ (SYM EMPTY state = false -> SYM END state = true ->
          vec_wf (indents state) -> len (indents state) <> 0 ->
          len (indents (snd (brace state))) = len (indents state) - 1
          /\ entries (indents state)
             = entries (indents (snd (brace state)))
               ++ [VEC_BACK (indents state)]))
  /\ (forall (iswspace : Z -> bool) (v : indent_vec) (l : TSLexer)
        (syms : Sym -> bool),
      all_syms syms = false ->
      input l = LF :: input (lexer state) ->
      PEEK state = chr "{" ->
      tree_sitter_unison_external_scanner_scan iswspace v l syms
      = let (res, state1) :=
          eval brace
            (S_SKIP (MARK {| lexer := l; symbols := syms; indents := v |}))
        in (res, lexer state1, indents state1)).
Proof.
  intros Hdepth. unfold nesting in Hdepth. split; [|split].
  3: { intros iswspace v l syms Hall Hin Hp.
       unfold PEEK, lookahead in Hp.
       destruct (input (lexer state)) as [|c k]; cbn [hd] in Hp;
         [discriminate Hp|]. subst c.
       apply (scan_line_break_then_brace iswspace v l syms k Hall Hin). }
  - intros Hbal Hlex Hin n.
    change (codes "{-") with [chr "{"; chr "-"] in *.
    change (codes "-}") with [chr "-"; chr "}"] in *.
    cbn [app] in Hin.
    destruct (brace_enters state _ Hin) as [Hb Hin2].
    assert (E : brace state = (res_finish COMMENT, MARK (consume n state))).
    { rewrite Hb.
      rewrite (loop_pieces body 0 _ _ (chr "-" :: chr "}" :: rest));
        [ | apply enough_fuel_of | exact Hin2 | exact Hlex | lia
          | apply (balanced_tracked body Hbal); lia ].
      rewrite (balanced_net body Hbal). cbn [Z.add].
      rewrite (loop_closer _ 0 _ rest);
        [ | apply enough_consume; apply enough_fuel_of
          | apply (input_consume (render body)); exact Hin2 ].
      cbn [Z.eqb]. unfold multiline_comment_success, finish.
      subst n. cbn [app length consume]. rewrite length_app, consume_add.
      reflexivity. }
    rewrite E. cbn [snd]. repeat split.
    + cbn [MARK with_lexer lexer lexer_mark_end input].
      apply (input_consume ([chr "{"; chr "-"] ++ render body
                              ++ [chr "-"; chr "}"])).
      rewrite Hin. cbn [app]. rewrite <- app_assoc. reflexivity.
    + cbn [MARK with_lexer lexer lexer_mark_end marked]. f_equal.
      apply (position_consume _ rest).
      rewrite Hin. cbn [app]. rewrite <- app_assoc. reflexivity.
    + apply (frame_consume n state).
  - intros Hunc Hlex Hin state'.
    change (codes "{-") with [chr "{"; chr "-"] in *.
    cbn [app] in Hin.
    destruct (brace_enters state _ Hin) as [Hb Hin2].
    assert (Hst : state'
                  = consume (length (render body))
                      (S_ADVANCE (S_ADVANCE state)))
      by (subst state'; rewrite Hin; reflexivity).
    assert (Hend : input (lexer state') = []).
    { rewrite Hst. apply (input_consume (render body)).
      rewrite app_nil_r. exact Hin2. }
    assert (Heof : is_eof state' = true)
      by (unfold is_eof, lexer_eof; rewrite Hend; reflexivity).
    split; [exact Heof|].
    assert (E : brace state =
                if SYM EMPTY state then (res_finish EMPTY, state')
                else if SYM END state then (res_finish END, pop state')
                else if SYM SEMICOLON state
                     then (res_finish SEMICOLON, state')
                else (res_fail, state')).
    { rewrite Hb.
      rewrite (loop_pieces body 0 _ _ []);
        [ | apply enough_fuel_of | rewrite app_nil_r; exact Hin2
          | exact Hlex | lia | apply (unclosed_tracked body Hunc); lia ].
      rewrite <- Hst.
      rewrite loop_end_of_input;
        [ | rewrite Hst; apply enough_consume; apply enough_fuel_of
          | exact Hend ].
      rewrite (short_eof_at_end state' Heof).
      assert (Hsym : forall s, SYM s state' = SYM s state).
      { intros s. unfold SYM, state'.
        rewrite (proj1 (frame_consume (length (input (lexer state)))
                          state)).
        reflexivity. }
      rewrite !Hsym. reflexivity. }
    split; [exact E|].
    assert (Hpos : position (lexer state')
                   = position (lexer state)
                     + Z.of_nat (length (input (lexer state)))).
    { unfold state'. apply (position_consume (input (lexer state)) []).
      rewrite app_nil_r. reflexivity. }
    assert (Hind : indents state' = indents state)
      by (apply (proj2 (frame_consume (length (input (lexer state)))
                          state))).
    destruct (pop_stack state') as (Hpl & _ & Hp0 & Hp1 & Hp2).
    rewrite Hind in Hp0, Hp1, Hp2.
    rewrite E. clearbody state'.
    destruct (SYM EMPTY state).
    { cbn [snd]. split; [exact Hend|]. split; [exact Hpos|].
      split; [intros _; exact Hind|].
      split; intros H; discriminate H. }
    destruct (SYM END state).
    { cbn [snd]. rewrite Hpl. split; [exact Hend|]. split; [exact Hpos|].
      split.
      { intros [H | [H | H]]; try discriminate H. exact (Hp0 H). }
      split.
      - intros _ _ H. exact (Hp1 H).
      - intros _ _ Hwf H. exact (Hp2 Hwf H). }
    destruct (SYM SEMICOLON state); cbn [snd];
      (split; [exact Hend|]); (split; [exact Hpos|]);
      (split; [intros _; exact Hind|]);
      split; intros _ H; discriminate H.
Qed.

(** ** The nesting counter is a [uint16_t] *)

Lemma render_repeat_Open (n : nat) :
  render (repeat Open (S n)) = chr "{" :: chr "-" :: render (repeat Open n).
Proof. reflexivity. Qed.

(** [n] openers in a row take the counter from [level] to [level + n]
    modulo 65536. *)
Lemma loop_openers (n : nat) :
  forall (level : Z) (fuel : nat) (st : State) (k : list Z),
  enough fuel st ->
  input (lexer st) = render (repeat Open n) ++ k ->
  0 <= level < 65536 ->
  multiline_comment_loop fuel level st
  = multiline_comment_loop fuel (wrap16 (level + Z.of_nat n))
      (consume (length (render (repeat Open n))) st).
Proof.
  induction n as [|n IH]; intros level fuel st k He Hin Hl.
  - cbn [repeat render flat_map length consume Z.of_nat].
    rewrite Z.add_0_r, wrap16_small by exact Hl. reflexivity.
  - rewrite render_repeat_Open in *. cbn [app length consume] in *.
    rewrite (loop_opener fuel level st _ He Hin).
    pose proof (input_ADVANCE st _ _ Hin) as Hin1.
    pose proof (input_ADVANCE _ _ _ Hin1) as Hin2.
    rewrite (IH (wrap16 (level + 1)) fuel _ k);
      [ | do 2 apply enough_ADVANCE_any; exact He | exact Hin2
        | unfold wrap16; apply Z.mod_pos_bound; lia ].
    f_equal. unfold wrap16. rewrite Z.add_mod_idemp_l by lia.
    f_equal. lia.
Qed.

Lemma balanced_nest_n (n : nat) :
  balanced (repeat Open n ++ repeat Close n).
Proof.
  induction n as [|n IH].
  - constructor.
  - replace (repeat Close (S n)) with (repeat Close n ++ [Close])
      by (symmetry; apply (repeat_cons n Close)).
    cbn [repeat app]. rewrite app_assoc. apply bal_nest; [exact IH|].
    constructor.
Qed.

Lemma nested_comment_split (n : nat) :
  nested_comment n
  = chr "{" :: chr "-" :: render (repeat Open n)
    ++ chr "-" :: chr "}" :: render (repeat Close n).
Proof.
  unfold nested_comment.
  change (codes "{-") with [chr "{"; chr "-"].
  change (codes "-}") with [chr "-"; chr "}"].
  cbn [app]. rewrite render_app, <- app_assoc. do 3 f_equal.
  replace (chr "-" :: chr "}" :: render (repeat Close n))
    with (render (repeat Close (S n))) by reflexivity.
  change [chr "-"; chr "}"] with (render [Close]).
  rewrite <- render_app. f_equal. symmetry. apply (repeat_cons n Close).
Qed.

Lemma length_render_closers (n : nat) :
  length (render (repeat Close n)) = (2 * n)%nat.
Proof.
  induction n as [|n IH]; [reflexivity|].
  replace (render (repeat Close (S n)))
    with (chr "-" :: chr "}" :: render (repeat Close n)) by reflexivity.
  cbn [length]. rewrite IH. lia.
Qed.

(** After a multiple of 65536 openers the counter is 0 again and the next
    closer ends the comment. *)
Lemma brace_after_wrapping (n : nat) (st : State) (rest : list Z) :
  wrap16 (Z.of_nat n) = 0 ->
  input (lexer st)
  = chr "{" :: chr "-" :: render (repeat Open n)
    ++ chr "-" :: chr "}" :: rest ->
  fst (brace st) = res_finish COMMENT
  /\ input (lexer (snd (brace st))) = rest.
Proof.
  intros Hw Hin.
  destruct (brace_enters st _ Hin) as [Hb Hin2].
  assert (E : brace st
              = (res_finish COMMENT,
                 MARK (S_ADVANCE (S_ADVANCE
                   (consume (length (render (repeat Open n)))
                      (S_ADVANCE (S_ADVANCE st))))))).
  { rewrite Hb.
    rewrite (loop_openers n 0 _ _ _ (enough_fuel_of _) Hin2) by lia.
    rewrite Z.add_0_l, Hw.
    rewrite (loop_closer _ 0 _ rest);
      [ reflexivity
      | apply enough_consume; apply enough_fuel_of
      | apply (input_consume (render (repeat Open n))); exact Hin2 ]. }
  rewrite E. cbn [fst snd]. split; [reflexivity|].
  cbn [MARK with_lexer lexer lexer_mark_end input].
  pose proof (input_consume (render (repeat Open n)) _ _ Hin2) as H.
  rewrite (input_ADVANCE _ _ _ (input_ADVANCE _ _ _ H)). reflexivity.
Qed.

(** The same through a scan call that starts at the line break before the
    comment. *)
Lemma scan_after_wrapping
  (iswspace : Z -> bool) (n : nat) (v : indent_vec) (l : TSLexer)
  (syms : Sym -> bool) (rest : list Z) :
  wrap16 (Z.of_nat n) = 0 ->
  all_syms syms = false ->
  input l = LF :: chr "{" :: chr "-" :: render (repeat Open n)
            ++ chr "-" :: chr "}" :: rest ->
  let out := tree_sitter_unison_external_scanner_scan iswspace v l syms in
  fst (fst out) = true
  /\ result_symbol (snd (fst out)) = Some COMMENT
  /\ input (snd (fst out)) = rest
  /\ snd out = v.
Proof.
  intros Hw Hall Hin out. subst out.
  rewrite (scan_line_break_then_brace iswspace v l syms _ Hall Hin).
  set (st := S_SKIP (MARK {| lexer := l; symbols := syms; indents := v |})).
  assert (Hin1 : input (lexer st)
                 = chr "{" :: chr "-" :: render (repeat Open n)
                   ++ chr "-" :: chr "}" :: rest).
  { apply (input_advance (MARK {| lexer := l; symbols := syms;
                                  indents := v |}) true LF).
    exact Hin. }
  destruct (brace_after_wrapping n st rest Hw Hin1) as [Hr Hrest].
  pose proof (brace_post st) as [_ _ Hstack _].
  unfold eval. destruct (brace st) as [r st1]. cbn [fst snd] in *.
  subst r. cbn [finished sym res_finish Sym_eqb negb andb fst snd
                with_lexer lexer indents set_result_symbol result_symbol
                input].
  repeat split; try assumption.
  change v with (indents st). inversion Hstack. reflexivity.
Qed.

(** C8, the defect: on the balanced block comment of nesting depth 65536
    the [uint16_t] counter is back at 0 after the last opener, so [brace]
    finishes with COMMENT at the first closer, the one of the innermost
    comment, with the 65536 closers that still belong to the comment left
    in the input; and so does a scan call, with COMMENT requested, that
    starts at the line break before the comment. *)
Theorem nesting_counter_wraps :
  let depth := Z.to_nat 65536 in
  let state :=
    {| lexer := lexer_at (nested_comment depth);
       symbols := requested [COMMENT];
       indents := tree_sitter_unison_external_scanner_create |} in
  let out :=
    tree_sitter_unison_external_scanner_scan isws
      tree_sitter_unison_external_scanner_create
      (lexer_at (LF :: nested_comment depth)) (requested [COMMENT]) in
  balanced (repeat Open depth ++ repeat Close depth)
  /\ length (render (repeat Close depth)) = (2 * depth)%nat
  /\ (fst (brace state) = res_finish COMMENT
      /\ input (lexer (snd (brace state))) = render (repeat Close depth))
  /\ (fst (fst out) = true
      /\ result_symbol (snd (fst out)) = Some COMMENT
      /\ input (snd (fst out)) = render (repeat Close depth)
      /\ snd out = tree_sitter_unison_external_scanner_create).
Proof.
  intros depth.
  assert (Hw : wrap16 (Z.of_nat depth) = 0) by (vm_compute; reflexivity).
  clearbody depth. intros state out.
  split; [apply balanced_nest_n|].
  split; [apply length_render_closers|]. split.
  - apply (brace_after_wrapping depth state _ Hw).
    apply nested_comment_split.
  - apply (scan_after_wrapping isws depth _ _ _ _ Hw); [reflexivity|].
    unfold lexer_at. cbn [input]. rewrite nested_comment_split. reflexivity.
Qed.

(** * The rules at concrete inputs *)

(** ** Where the code departs from the description *)

(** C1 as stated fails: with no symbol requested, a line break followed by
    an inline comment makes the scan return true with COMMENT, a block
    comment does the same, and a line break followed by "---" makes it
    return true with FOLD. *)
Lemma scan_emits_unrequested_comment_and_fold :
  requested [] COMMENT = false /\ requested [] FOLD = false
  /\ (let out := tree_sitter_unison_external_scanner_scan isws
                   (stack_of [0]) (lexer_at (LF :: codes "-- hi"))
                   (requested []) in
      fst (fst out) = true
      /\ result_symbol (snd (fst out)) = Some COMMENT)
  /\ (let out := tree_sitter_unison_external_scanner_scan isws
                   (stack_of [0]) (lexer_at (LF :: codes "{- hi -}"))
                   (requested []) in
      fst (fst out) = true
      /\ result_symbol (snd (fst out)) = Some COMMENT)
  /\ (let out := tree_sitter_unison_external_scanner_scan isws
                   (stack_of [0]) (lexer_at (LF :: codes "---"))
                   (requested []) in
      fst (fst out) = true
      /\ result_symbol (snd (fst out)) = Some FOLD).
Proof. vm_compute. repeat split. Qed.

(** C2 as stated fails: at end-of-file, with every symbol from SEMICOLON
    through EMPTY requested, the scan returns true, with EMPTY. *)
Lemma after_error_at_end_of_file_emits_EMPTY :
  all_syms (requested upto_EMPTY) = true
  /\ lexer_eof (lexer_at []) = true
  /\ tree_sitter_unison_external_scanner_scan isws
       (stack_of [2]) (lexer_at []) (requested upto_EMPTY)
     = (true, set_result_symbol (lexer_at []) EMPTY, stack_of [2]).
Proof. vm_compute. repeat split. Qed.

(** C4 as stated fails: on a block comment that is never closed, with END
    requested, [brace] finishes with END and pops the stack, so that the
    scan that reaches it after a line break returns true; and a scan call
    that starts at the '{' itself, not at a line break before it, takes the
    inline path, on which no rule reads comments, and returns false on a
    balanced comment even with COMMENT requested. *)
Lemma unclosed_comment_emits_END :
  let state := {| lexer := lexer_at (codes "{- a");
                  symbols := requested [END];
                  indents := stack_of [2] |} in
  unclosed [Chr (chr " "); Chr (chr "a")]
  /\ input (lexer state) = codes "{-" ++ render [Chr (chr " "); Chr (chr "a")]
  /\ fst (brace state) = res_finish END
  /\ len (indents (snd (brace state))) = 0
  /\ (let out := tree_sitter_unison_external_scanner_scan isws
                   (stack_of [2]) (lexer_at (LF :: codes "{- a"))
                   (requested [END]) in
      fst (fst out) = true
      /\ result_symbol (snd (fst out)) = Some END)
  /\ fst (fst (tree_sitter_unison_external_scanner_scan isws
                 (stack_of [0]) (lexer_at (codes "{- a -}"))
                 (requested [COMMENT]))) = false.
Proof.
  split; [repeat constructor|]. vm_compute. repeat split.
Qed.

(** C7 as stated fails where the C library classifies by Unicode: a dot
    followed by U+2003 EM SPACE, which is none of the six characters, gives
    VARSYM and not DOT. *)
Lemma dot_before_em_space_is_VARSYM :
  let state := {| lexer := lexer_at [chr "."; 8195; chr "x"];
                  symbols := requested [DOT; VARSYM];
                  indents := stack_of [0] |} in
  (forall c, isws c = true -> iswspace_unicode c = true)
  /\ SYM DOT state = true /\ SYM VARSYM state = true
  /\ PEEK state = chr "."
  /\ PEEK (S_ADVANCE state) = 8195
  /\ isws 8195 = false
  /\ dot iswspace_unicode state
     = (res_finish VARSYM, S_ADVANCE state)
  /\ dot iswspace_unicode state
     <> (res_finish DOT, MARK (S_ADVANCE state)).
Proof.
  split.
  - intros c H. unfold iswspace_unicode. rewrite H. reflexivity.
  - vm_compute. repeat split. discriminate.
Qed.

(** ** The theorems at work *)

Lemma scan_emits_requested_or_comment_witness :
  tree_sitter_unison_external_scanner_scan isws
    (stack_of []) (lexer_at (codes "foo")) (requested [START; SEMICOLON])
  = (true, set_result_symbol (lexer_mark_end (lexer_at (codes "foo"))) START,
     VEC_PUSH (stack_of []) 0)
  /\ exists s,
       result_symbol
         (set_result_symbol (lexer_mark_end (lexer_at (codes "foo"))) START)
       = Some s
       /\ s <> FAIL
       /\ (requested [START; SEMICOLON] s = true \/ s = COMMENT \/ s = FOLD).
Proof.
  split; [reflexivity|].
  apply (scan_emits_requested_or_comment isws (stack_of [])
           (lexer_at (codes "foo")) (requested [START; SEMICOLON])
           _ (VEC_PUSH (stack_of []) 0)).
  reflexivity.
Defined.

Lemma after_error_scan_witness :
  all_syms (requested upto_EMPTY) = true
  /\ lexer_eof (lexer_at (codes "x")) = false
  /\ tree_sitter_unison_external_scanner_scan isws
       (stack_of [2]) (lexer_at (codes "x")) (requested upto_EMPTY)
     = (false, lexer_at (codes "x"), stack_of [2])
  /\ lexer_eof (lexer_at []) = true
  /\ tree_sitter_unison_external_scanner_scan isws
       (stack_of [2]) (lexer_at []) (requested upto_EMPTY)
     = (true,
        {| input := []; position := 0; col := 0; token_start := 0;
           marked := None; result_symbol := Some EMPTY |},
        {| len := 1; cap := 1; data := [2] |}).
Proof.
  assert (H1 : all_syms (requested upto_EMPTY) = true) by reflexivity.
  assert (H2 : lexer_eof (lexer_at (codes "x")) = false) by reflexivity.
  assert (H3 : lexer_eof (lexer_at []) = true) by reflexivity.
  split; [exact H1|]. split; [exact H2|].
  split.
  - apply (after_error_scan isws (stack_of [2]) (lexer_at (codes "x"))
             (requested upto_EMPTY) H1).
    exact H2.
  - split; [exact H3|].
    apply (after_error_scan isws (stack_of [2]) (lexer_at [])
             (requested upto_EMPTY) H1).
    exact H3.
Defined.

Lemma serialize_deserialize_roundtrip_witness :
  vec_wf (stack_of [0; 2; 4]) /\ len (stack_of [0; 2; 4]) < 2147483648
  /\ (let out := tree_sitter_unison_external_scanner_serialize
                   (stack_of [0; 2; 4]) (repeat 0 1024) in
      let v' := tree_sitter_unison_external_scanner_deserialize
                  (stack_of [0; 2; 4]) (snd out) (fst out) in
      v' = stack_of [0; 2; 4] /\ len v' = len (stack_of [0; 2; 4])
      /\ entries v' = entries (stack_of [0; 2; 4])
      /\ forall w, vec_wf w -> 0 < len (stack_of [0; 2; 4]) <= 512 ->
           let w' := tree_sitter_unison_external_scanner_deserialize
                       w (snd out) (fst out) in
           len w' = len (stack_of [0; 2; 4])
           /\ entries w' = entries (stack_of [0; 2; 4])).
Proof.
  assert (Hwf : vec_wf (stack_of [0; 2; 4])).
  { unfold vec_wf. cbn. repeat split; try lia.
    repeat constructor; lia. }
  split; [exact Hwf|]. split; [reflexivity|].
  apply (serialize_deserialize_roundtrip (stack_of [0; 2; 4])
           (repeat 0 1024) Hwf).
  reflexivity.
Defined.

Lemma brace_block_comment_witness :
  let body := [Chr (chr " "); Open; Chr (chr "b"); Close; Chr (chr " ")] in
  let state := {| lexer := lexer_at (codes "{- {-b-} -} x");
                  symbols := requested [];
                  indents := stack_of [0] |} in
  let open := [Chr (chr " "); Chr (chr "a")] in
  let state2 := {| lexer := lexer_at (codes "{- a");
                   symbols := requested [END];
                   indents := stack_of [0; 2] |} in
  nesting body < 65536
  /\ balanced body
  /\ lexable body (chr "-") = true
  /\ input (lexer state) = codes "{-" ++ render body ++ codes "-}" ++ codes " x"
  /\ brace state = (res_finish COMMENT, MARK (consume 11 state))
  /\ input (lexer (snd (brace state))) = codes " x"
  /\ marked (lexer (snd (brace state))) = Some 11
  /\ indents (snd (brace state)) = {| len := 1; cap := 1; data := [0] |}
  /\ nesting open < 65536 /\ unclosed open /\ lexable open 0 = true
  /\ input (lexer state2) = codes "{-" ++ render open
  /\ fst (brace state2) = res_finish END
  /\ input (lexer (snd (brace state2))) = []
  /\ position (lexer (snd (brace state2))) = 4
  /\ indents (snd (brace state2)) = {| len := 1; cap := 2; data := [0; 2] |}
  /\ entries (indents (snd (brace state2))) = [0].
Proof.
  intros body state open state2.
  assert (Hn : nesting body < 65536) by reflexivity.
  assert (Hb : balanced body).
  { apply bal_chr. apply (bal_nest [Chr (chr "b")] [Chr (chr " ")]);
      repeat constructor. }
  assert (Hl : lexable body (chr "-") = true) by reflexivity.
  assert (Hi : input (lexer state)
               = codes "{-" ++ render body ++ codes "-}" ++ codes " x")
    by reflexivity.
  assert (Hn2 : nesting open < 65536) by reflexivity.
  assert (Hu2 : unclosed open) by (repeat constructor).
  assert (Hl2 : lexable open 0 = true) by reflexivity.
  assert (Hi2 : input (lexer state2) = codes "{-" ++ render open)
    by reflexivity.
  destruct (brace_block_comment state body (codes " x") Hn) as [H _].
  destruct (H Hb Hl Hi) as (H1 & H2 & H3 & H4).
  destruct (brace_block_comment state2 open [] Hn2) as (_ & H' & _).
  destruct (H' Hu2 Hl2 Hi2) as (_ & E & H5 & H6 & _ & H7 & _).
  split; [exact Hn|]. split; [exact Hb|]. split; [exact Hl|].
  split; [exact Hi|]. split; [exact H1|]. split; [exact H2|].
  split; [exact H3|]. split; [exact H4|].
  split; [exact Hn2|]. split; [exact Hu2|]. split; [exact Hl2|].
  split; [exact Hi2|].
  split; [rewrite E; reflexivity|]. split; [exact H5|].
  split; [exact H6|].
  destruct (H7 eq_refl eq_refl) as (Ha & Hb' & Hc); [discriminate|].
  split; [|reflexivity].
  revert Ha Hb' Hc.
  destruct (indents (snd (brace state2))) as [n c d].
  cbn [len cap data]. intros -> -> ->. reflexivity.
Defined.

Lemma eof_rule_at_end_of_file_witness :
  let out := tree_sitter_unison_external_scanner_scan isws
               (stack_of [0; 2]) (lexer_at []) (requested [END; SEMICOLON]) in
  lexer_eof (lexer_at []) = true
  /\ eof {| lexer := lexer_at []; symbols := requested [END; SEMICOLON];
            indents := stack_of [0; 2] |}
     = (res_finish END,
        {| lexer := lexer_at []; symbols := requested [END; SEMICOLON];
           indents := {| len := 1; cap := 2; data := [0; 2] |} |})
  /\ fst (fst out) = true
  /\ result_symbol (snd (fst out)) = Some END
  /\ input (snd (fst out)) = [] /\ position (snd (fst out)) = 0
  /\ marked (snd (fst out)) = None
  /\ snd out = {| len := 1; cap := 2; data := [0; 2] |}
  /\ entries (snd out) = [0]
  /\ tree_sitter_unison_external_scanner_scan isws
       (stack_of []) (lexer_at []) (requested [EMPTY])
     = (true,
        {| input := []; position := 0; col := 0; token_start := 0;
           marked := None; result_symbol := Some EMPTY |},
        {| len := 0; cap := 0; data := [] |}).
Proof.
  intros out.
  assert (Heof : lexer_eof (lexer_at []) = true) by reflexivity.
  split; [exact Heof|].
  destruct (eof_rule_at_end_of_file isws (stack_of [0; 2]) (lexer_at [])
              (requested [END; SEMICOLON]) Heof)
    as (H1 & _ & _ & H4 & H5 & H6 & H7 & H8 & _ & _ & _ & H9 & _).
  split; [exact H1|]. split; [exact H4|]. split; [exact H5|].
  split; [exact H6|]. split; [exact H7|]. split; [exact H8|].
  split.
  { destruct (H9 eq_refl eq_refl) as (Ha & Hb & Hc);
      [discriminate|].
    subst out. revert Ha Hb Hc.
    destruct (tree_sitter_unison_external_scanner_scan isws
                (stack_of [0; 2]) (lexer_at [])
                (requested [END; SEMICOLON])) as [r [n c d]].
    cbn [snd len cap data]. intros -> -> ->. reflexivity. }
  split; [reflexivity|].
  apply (eof_rule_at_end_of_file isws (stack_of []) (lexer_at [])
           (requested [EMPTY]) Heof).
  reflexivity.
Defined.

Lemma stack_length_changes_witness :
  let out := tree_sitter_unison_external_scanner_scan isws
               (stack_of [4]) (lexer_at (codes "in x")) (requested [IN]) in
  0 <= len (stack_of [4]) < 4294967295
  /\ len (snd out) < len (stack_of [4])
  /\ fst (fst out) = true
  /\ len (snd out) = len (stack_of [4]) - 1
  /\ (result_symbol (snd (fst out)) = Some END
      \/ result_symbol (snd (fst out)) = Some IN).
Proof.
  intros out.
  assert (H1 : 0 <= len (stack_of [4]) < 4294967295) by (cbn; lia).
  assert (H2 : len (snd out) < len (stack_of [4])) by reflexivity.
  split; [exact H1|]. split; [exact H2|].
  apply (stack_length_changes isws (stack_of [4]) (lexer_at (codes "in x"))
           (requested [IN]) H1).
  exact H2.
Defined.

Lemma dot_rule_witness :
  let state := {| lexer := lexer_at (codes ". y");
                  symbols := requested [DOT; VARSYM];
                  indents := stack_of [0] |} in
  let state2 := {| lexer := lexer_at (codes ".y");
                   symbols := requested [DOT; VARSYM];
                   indents := stack_of [0] |} in
  (forall c, isws c = true -> isws c = true)
  /\ SYM DOT state = true /\ PEEK state = chr "."
  /\ dot isws state = (res_finish VARSYM, S_ADVANCE state)
  /\ fst (dot isws state) = res_finish VARSYM
  /\ input (lexer (snd (dot isws state))) = codes " y"
  /\ position (lexer (snd (dot isws state))) = 1
  /\ marked (lexer (snd (dot isws state))) = None
  /\ SYM DOT state2 = true /\ PEEK state2 = chr "."
  /\ fst (dot isws state2) = res_finish DOT
  /\ input (lexer (snd (dot isws state2))) = codes "y"
  /\ position (lexer (snd (dot isws state2))) = 1
  /\ marked (lexer (snd (dot isws state2))) = Some 1
  /\ indents (snd (dot isws state2)) = stack_of [0].
Proof.
  intros state state2.
  assert (H1 : forall c, isws c = true -> isws c = true)
    by (intros c H; exact H).
  assert (H2 : SYM DOT state = true) by reflexivity.
  assert (H3 : PEEK state = chr ".") by reflexivity.
  assert (H4 : SYM DOT state2 = true) by reflexivity.
  assert (H5 : PEEK state2 = chr ".") by reflexivity.
  destruct (dot_rule isws state H1 H2 H3) as (_ & H & _ & A1 & A2 & A3 & A4 & _).
  destruct (dot_rule isws state2 H1 H4 H5) as (_ & _ & _ & B1 & B2 & B3 & B4 & B5).
  split; [exact H1|]. split; [exact H2|]. split; [exact H3|].
  split; [apply H; reflexivity|].
  split; [exact A1|]. split; [exact A2|]. split; [exact A3|].
  split; [exact A4|]. split; [exact H4|]. split; [exact H5|].
  split; [exact B1|]. split; [exact B2|]. split; [exact B3|].
  split; [exact B4|]. exact B5.
Defined.

Lemma serialize_empty_like_overflow_witness :
  len (stack_of []) = 0
  /\ wrap32 (2 * len (stack_of (repeat 0 513)))
     > TREE_SITTER_SERIALIZATION_BUFFER_SIZE
  /\ tree_sitter_unison_external_scanner_serialize
       (stack_of []) (repeat 7 1024) = (0, repeat 7 1024)
  /\ tree_sitter_unison_external_scanner_serialize
       (stack_of (repeat 0 513)) (repeat 7 1024) = (0, repeat 7 1024).
Proof.
  assert (H1 : len (stack_of []) = 0) by reflexivity.
  assert (H2 : wrap32 (2 * len (stack_of (repeat 0 513)))
               > TREE_SITTER_SERIALIZATION_BUFFER_SIZE) by reflexivity.
  split; [exact H1|]. split; [exact H2|].
  apply (serialize_empty_like_overflow _ _ _ H1 H2).
Defined.

(** * Further properties of the scanner *)

(** ** The indent stack as a stack *)

Lemma firstn_store_beyond (cells : list Z) (i : nat) (x : Z) :
  firstn i (store cells i x) = firstn i cells.
Proof.
  revert i. induction cells as [|c cells IH]; intros i; [reflexivity|].
  destruct i as [|i]; cbn [store firstn]; [reflexivity|].
  rewrite IH. reflexivity.
Qed.

Lemma nth_store (cells : list Z) (i : nat) (x : Z) :
  (i < length cells)%nat -> nth i (store cells i x) 0 = x.
Proof.
  revert i. induction cells as [|c cells IH]; intros i Hi;
    [cbn in Hi; lia|].
  destruct i as [|i]; cbn [store nth]; [reflexivity|].
  apply IH. cbn in Hi. lia.
Qed.

Lemma firstn_realloc (cells : list Z) (n : Z) (i : nat) :
  (i <= length cells)%nat -> (i <= Z.to_nat n)%nat ->
  firstn i (realloc cells n) = firstn i cells.
Proof.
  intros H1 H2. unfold realloc.
  rewrite firstn_app, firstn_firstn, length_firstn.
  replace (Nat.min i (Z.to_nat n)) with i by lia.
  replace (i - Nat.min (Z.to_nat n) (length cells))%nat with 0%nat by lia.
  cbn [firstn]. apply app_nil_r.
Qed.

Lemma VEC_PUSH_shape (v : indent_vec) (el : Z) :
  vec_wf v -> len v < 2147483648 ->
  len (VEC_PUSH v el) = len v + 1
  /\ (Z.to_nat (len v) < length (data (VEC_PUSH v el)))%nat
  /\ firstn (Z.to_nat (len v)) (data (VEC_PUSH v el)) = entries v
  /\ nth (Z.to_nat (len v)) (data (VEC_PUSH v el)) 0 = el.
Proof.
  intros (Hlen & Hcap32 & Hcap & Hu16) Hbig. unfold VEC_PUSH, entries.
  destruct (cap v =? len v) eqn:E; cbn [len cap data VEC_RESIZE].
  - apply Z.eqb_eq in E.
    rewrite (wrap32_small (len v * 2)), (wrap32_small (len v + 1)) by lia.
    assert (Hmax : len v + 1 <= MAX 20 (len v * 2))
      by (unfold MAX; destruct (20 >? len v * 2) eqn:E1; lia).
    assert (Hroom : (Z.to_nat (len v)
                     < length (realloc (data v) (MAX 20 (len v * 2))))%nat)
      by (rewrite length_realloc; lia).
    rewrite length_store, firstn_store_beyond, nth_store by exact Hroom.
    rewrite firstn_realloc by lia. repeat split. exact Hroom.
  - apply Z.eqb_neq in E. rewrite (wrap32_small (len v + 1)) by lia.
    assert (Hroom : (Z.to_nat (len v) < length (data v))%nat) by lia.
    rewrite length_store, firstn_store_beyond, nth_store by exact Hroom.
    repeat split. exact Hroom.
Qed.

Lemma VEC_PUSH_entries (v : indent_vec) (el : Z) :
  vec_wf v -> len v < 2147483648 ->
  len (VEC_PUSH v el) = len v + 1
  /\ entries (VEC_PUSH v el) = entries v ++ [el]
  /\ VEC_BACK (VEC_PUSH v el) = el.
Proof.
  intros Hwf Hbig.
  destruct (VEC_PUSH_shape v el Hwf Hbig) as (Hl & Hroom & Hold & Hnew).
  destruct Hwf as (Hlen & _).
  split; [exact Hl|]. split.
  - unfold entries at 1. rewrite Hl.
    replace (Z.to_nat (len v + 1)) with (S (Z.to_nat (len v))) by lia.
    rewrite firstn_S_nth by exact Hroom. rewrite Hold, Hnew. reflexivity.
  - unfold VEC_BACK. rewrite Hl.
    replace (len v + 1 - 1) with (len v) by lia. exact Hnew.
Qed.

Lemma len_VEC_PUSH (v : indent_vec) (el : Z) :
  len (VEC_PUSH v el) = wrap32 (len v + 1).
Proof. unfold VEC_PUSH. destruct (cap v =? len v); reflexivity. Qed.

(** X1: on a well-formed stack of fewer than 2^31 entries, a push appends
    the element to the live entries, whether or not the array has to grow;
    the element is then the top, and a pop gives back the entries as they
    were before the push. *)
Theorem push_then_back_and_pop (v : indent_vec) (el : Z) :
  vec_wf v -> len v < 2147483648 ->
  entries (VEC_PUSH v el) = entries v ++ [el]
  /\ VEC_BACK (VEC_PUSH v el) = el
  /\ len (VEC_PUSH v el) = len v + 1
  /\ entries (VEC_POP (VEC_PUSH v el)) = entries v
  /\ len (VEC_POP (VEC_PUSH v el)) = len v.
Proof.
  intros Hwf Hbig.
  destruct (VEC_PUSH_shape v el Hwf Hbig) as (Hl & Hroom & Hold & Hnew).
  destruct Hwf as (Hlen & _).
  assert (Hpop : len (VEC_POP (VEC_PUSH v el)) = len v)
    by (unfold VEC_POP; cbn [len]; rewrite Hl;
        replace (len v + 1 - 1) with (len v) by lia;
        apply wrap32_small; lia).
  repeat split.
  - unfold entries at 1. rewrite Hl.
    replace (Z.to_nat (len v + 1)) with (S (Z.to_nat (len v))) by lia.
    rewrite firstn_S_nth by exact Hroom. rewrite Hold, Hnew. reflexivity.
  - unfold VEC_BACK. rewrite Hl.
    replace (len v + 1 - 1) with (len v) by lia. exact Hnew.
  - exact Hl.
  - unfold entries at 1. rewrite Hpop. exact Hold.
  - exact Hpop.
Qed.

(** X2: the stack [create] returns is well-formed, and a scan call on a
    well-formed stack of fewer than 2^31 entries returns a well-formed
    stack, whatever the input and the requested symbols. *)
Theorem stack_stays_well_formed
  (iswspace : Z -> bool) (v : indent_vec) (l : TSLexer) (syms : Sym -> bool) :
  vec_wf v -> len v < 2147483648 ->
  vec_wf tree_sitter_unison_external_scanner_create
  /\ vec_wf (snd (tree_sitter_unison_external_scanner_scan
                    iswspace v l syms)).
Proof.
  intros Hwf Hbig. split; [apply create_wf | apply scan_wf; assumption].
Qed.

(** ** The serialised form *)

Lemma skipn_bytes_of (n : nat) (cells : list Z) :
  skipn (2 * n) (bytes_of cells) = bytes_of (skipn n cells).
Proof.
  revert cells. induction n as [|n IH]; intros cells; [reflexivity|].
  destruct cells as [|e cells]; [reflexivity|].
  replace (2 * S n)%nat with (S (S (2 * n))) by lia.
  change (bytes_of (e :: cells))
    with (e mod 256 :: (e / 256) mod 256 :: bytes_of cells).
  cbn [skipn]. apply IH.
Qed.

Lemma cells_of_app_even (m : nat) :
  forall a b : list Z, length a = (2 * m)%nat ->
  cells_of (a ++ b) = cells_of a ++ cells_of b
  /\ length (cells_of a) = m.
Proof.
  induction m as [|m IH]; intros a b Ha.
  - destruct a; [split; reflexivity | cbn in Ha; lia].
  - destruct a as [|lo [|hi a]]; try (cbn in Ha; lia).
    destruct (IH a b) as [H1 H2]; [cbn in Ha; lia|].
    cbn [app cells_of length]. rewrite H1, H2. split; reflexivity.
Qed.

Lemma Forall_cells_of (bytes : list Z) :
  Forall (fun b => 0 <= b < 256) bytes ->
  Forall (fun e => 0 <= e < 65536) (cells_of bytes).
Proof.
  assert (H : forall n bs, (length bs <= n)%nat ->
            Forall (fun b => 0 <= b < 256) bs ->
            Forall (fun e => 0 <= e < 65536) (cells_of bs)).
  { induction n as [|n IH]; intros bs Hn Hb.
    - destruct bs; [constructor | cbn in Hn; lia].
    - destruct bs as [|lo [|hi bs]]; try constructor.
      + inversion Hb as [|? ? Hlo Hb1]; subst.
        inversion Hb1 as [|? ? Hhi Hb2]; subst. lia.
      + apply IH; [cbn in Hn; lia|].
        inversion Hb as [|? ? _ Hb1]; subst.
        inversion Hb1; subst. assumption. }
  intros Hb. apply (H (length bytes)); [lia | exact Hb].
Qed.

Lemma Forall_bytes_of (cells : list Z) :
  Forall (fun b => 0 <= b < 256) (bytes_of cells).
Proof.
  induction cells as [|e cells IH]; [constructor|].
  change (bytes_of (e :: cells))
    with (e mod 256 :: (e / 256) mod 256 :: bytes_of cells).
  repeat constructor; try apply Z.mod_pos_bound; try lia. exact IH.
Qed.

(** X3: for a well-formed stack of at most 512 entries and a buffer that
    holds the payload, [serialize] returns twice the length and leaves a
    buffer of the same size whose front is the entries, bottom first, each
    as its low byte followed by its high byte, and whose remainder is
    untouched; decoding that front gives the entries back. *)
Theorem serialize_layout (v : indent_vec) (buffer : list Z) :
  vec_wf v -> len v <= 512 -> 2 * len v <= Z.of_nat (length buffer) ->
  let out := tree_sitter_unison_external_scanner_serialize v buffer in
  let n := Z.to_nat (fst out) in
  fst out = 2 * len v
  /\ length (snd out) = length buffer
  /\ firstn n (snd out) = flat_map bytes_of_cell (entries v)
  /\ skipn n (snd out) = skipn n buffer
  /\ Forall (fun b => 0 <= b < 256) (firstn n (snd out))
  /\ cells_of (firstn n (snd out)) = entries v.
Proof.
  intros Hwf Hfit Hroom out n. subst n out.
  rewrite (serialize_front v buffer Hwf Hfit). cbn [fst snd].
  pose proof (length_entries v Hwf) as Hle.
  assert (Hlb : length (bytes_of (entries v)) = Z.to_nat (2 * len v))
    by (rewrite length_bytes_of, Hle; destruct Hwf; lia).
  assert (Hfront : firstn (Z.to_nat (2 * len v))
                     (bytes_of (entries v)
                      ++ skipn (Z.to_nat (2 * len v)) buffer)
                   = bytes_of (entries v))
    by (apply firstn_app_exact; exact Hlb).
  rewrite Hfront. repeat split.
  - rewrite length_app, length_skipn, Hlb. destruct Hwf. lia.
  - rewrite <- Hlb. rewrite skipn_app, Nat.sub_diag, skipn_all.
    reflexivity.
  - apply Forall_bytes_of.
  - apply cells_of_bytes_of. apply entries_u16. exact Hwf.
Qed.

(** X4: [deserialize] of an even, non-zero number [n] of bytes into a
    well-formed stack gives a well-formed stack that holds exactly the
    cells the first [n] bytes of the buffer denote, whatever the stack held
    before; its capacity grows to [n / 2] if it was smaller and never
    shrinks. *)
Theorem deserialize_from_buffer
  (w : indent_vec) (buffer : list Z) (n : Z) :
  vec_wf w -> Forall (fun b => 0 <= b < 256) buffer ->
  0 < n < 4294967296 -> n mod 2 = 0 -> n <= Z.of_nat (length buffer) ->
  let w' := tree_sitter_unison_external_scanner_deserialize w buffer n in
  vec_wf w'
  /\ len w' = n / 2
  /\ cap w' = Z.max (cap w) (n / 2)
  /\ entries w' = cells_of (firstn (Z.to_nat n) buffer).
Proof.
  intros (Hlen & Hcap32 & Hcap & Hu16) Hbytes Hn Heven Hroom w'.
  set (els := n / 2).
  assert (Hn2 : n = 2 * els)
    by (subst els; pose proof (Z.div_mod n 2 ltac:(lia)); lia).
  assert (Hels : 0 < els) by lia.
  set (g := VEC_GROW w els).
  assert (Hg : cap g = Z.max (cap w) els
               /\ Z.of_nat (length (data g)) = cap g
               /\ Forall (fun e => 0 <= e < 65536) (data g)).
  { subst g. unfold VEC_GROW. destruct (cap w <? els) eqn:E.
    - cbn [cap data VEC_RESIZE]. rewrite length_realloc.
      repeat split; [lia | lia | apply Forall_realloc; exact Hu16].
    - repeat split; [lia | exact Hcap | exact Hu16]. }
  destruct Hg as (Hgcap & Hglen & Hgu16).
  set (a := firstn (Z.to_nat n) buffer).
  assert (Ha : length a = (2 * Z.to_nat els)%nat)
    by (subst a; rewrite length_firstn; lia).
  assert (Hdata : data w' = cells_of a ++ skipn (Z.to_nat els) (data g)).
  { subst w'. unfold tree_sitter_unison_external_scanner_deserialize.
    fold els. destruct (els >? 0) eqn:E; [|lia].
    fold g. cbn [data]. unfold memcpy. fold a.
    rewrite (proj1 (cells_of_app_even _ a _ Ha)).
    replace (Z.to_nat n) with (2 * Z.to_nat els)%nat by lia.
    rewrite skipn_bytes_of, cells_of_bytes_of; [reflexivity|].
    rewrite <- (firstn_skipn (Z.to_nat els) (data g)) in Hgu16.
    apply Forall_app in Hgu16. apply Hgu16. }
  assert (Hshape : len w' = els /\ cap w' = cap g).
  { subst w'. unfold tree_sitter_unison_external_scanner_deserialize.
    fold els. destruct (els >? 0) eqn:E; [|lia]. split; reflexivity. }
  destruct Hshape as [Hl Hc].
  pose proof (proj2 (cells_of_app_even _ a [] Ha)) as Hla.
  repeat split.
  - lia.
  - lia.
  - lia.
  - rewrite Hdata, length_app, length_skipn, Hla. lia.
  - rewrite Hdata. apply Forall_app. split.
    + apply Forall_cells_of. subst a.
      rewrite <- (firstn_skipn (Z.to_nat n) buffer) in Hbytes.
      apply Forall_app in Hbytes. apply Hbytes.
    + rewrite <- (firstn_skipn (Z.to_nat els) (data g)) in Hgu16.
      apply Forall_app in Hgu16. apply Hgu16.
  - exact Hl.
  - lia.
  - unfold entries. rewrite Hl, Hdata. apply firstn_app_exact. exact Hla.
Qed.

(** ** Matching a string *)

Lemma common_prefix_app (s k : list Z) : common_prefix s (s ++ k) = s.
Proof.
  induction s as [|c s IH]; [reflexivity|].
  cbn [app common_prefix]. rewrite Z.eqb_refl, IH. reflexivity.
Qed.

Lemma common_prefix_full (s inp : list Z) :
  length (common_prefix s inp) = length s -> exists k, inp = s ++ k.
Proof.
  revert inp. induction s as [|c s IH]; intros inp H.
  - exists inp. reflexivity.
  - destruct inp as [|d inp]; [discriminate H|].
    cbn [common_prefix] in H. destruct (c =? d) eqn:E; [|discriminate H].
    apply Z.eqb_eq in E. subst d. cbn [length] in H.
    destruct (IH inp) as [k Hk]; [lia|]. exists k. rewrite Hk. reflexivity.
Qed.

Lemma seq_common_prefix (s : list Z) :
  forall st : State,
  Forall (fun c => c <> 0) s ->
  seq s st
  = (Nat.eqb (length (common_prefix s (input (lexer st)))) (length s),
     consume (length (common_prefix s (input (lexer st)))) st).
Proof.
  induction s as [|c s IH]; intros st Hs; [reflexivity|].
  inversion Hs as [|? ? Hc Hs']; subst. cbn [seq].
  destruct (input (lexer st)) as [|d inp] eqn:Hin.
  - unfold PEEK, lookahead. rewrite Hin. cbn [hd].
    apply Z.eqb_neq in Hc. rewrite Hc. reflexivity.
  - rewrite (peek_input st _ _ Hin). cbn [common_prefix].
    destruct (c =? d) eqn:E; [|reflexivity]. cbn [negb length consume].
    rewrite (IH (S_ADVANCE st) Hs'), (input_ADVANCE st _ _ Hin).
    reflexivity.
Qed.

Lemma seq_matches (s k : list Z) (st : State) :
  Forall (fun c => c <> 0) s -> input (lexer st) = s ++ k ->
  seq s st = (true, consume (length s) st).
Proof.
  intros Hs Hin. rewrite (seq_common_prefix s st Hs), Hin.
  rewrite common_prefix_app, Nat.eqb_refl. reflexivity.
Qed.

Lemma token_matches (s k : list Z) (st : State) :
  Forall (fun c => c <> 0) s -> input (lexer st) = s ++ k ->
  token s st = (token_end (hd 0 k), consume (length s) st).
Proof.
  intros Hs Hin. unfold token. rewrite (seq_matches s k st Hs Hin).
  unfold PEEK, lookahead. rewrite (input_consume s k st Hin). reflexivity.
Qed.

(** X5: [seq s] consumes the longest common prefix of [s] and the input
    and nothing more: it answers true exactly when the input starts with
    [s], having then consumed [s], and a failed match keeps what it has
    consumed.  ([s] is a C string: it holds no NUL.) *)
Theorem seq_consumes_common_prefix (s : list Z) (st : State) :
  Forall (fun c => c <> 0) s ->
  snd (seq s st) = consume (length (common_prefix s (input (lexer st)))) st
  /\ (fst (seq s st) = true <-> exists k, input (lexer st) = s ++ k)
  /\ (forall k, input (lexer st) = s ++ k ->
      seq s st = (true, consume (length s) st)
      /\ input (lexer (snd (seq s st))) = k).
Proof.
  intros Hs. rewrite (seq_common_prefix s st Hs). cbn [fst snd].
  split; [reflexivity|]. split.
  - split.
    + intros H. apply Nat.eqb_eq in H. apply common_prefix_full. exact H.
    + intros [k Hk]. rewrite Hk, common_prefix_app. apply Nat.eqb_refl.
  - intros k Hk. rewrite Hk, common_prefix_app, Nat.eqb_refl.
    split; [reflexivity|]. cbn [snd]. apply input_consume. exact Hk.
Qed.

(** X6: [token s] answers true exactly when the input starts with [s] and
    the code point after it ends a token: white space, NUL or the end of
    the input, or one of [( ) [ ]]; either way [s] has been consumed. *)
Theorem token_needs_terminator (s k : list Z) (st : State) :
  Forall (fun c => c <> 0) s -> input (lexer st) = s ++ k ->
  token s st = (token_end (hd 0 k), consume (length s) st)
  /\ (fst (token s st) = true <->
      isws (hd 0 k) = true \/ k = [] \/ hd 0 k = 0
      \/ In (hd 0 k) (codes "()[]")).
Proof.
  intros Hs Hin. rewrite (token_matches s k st Hs Hin).
  split; [reflexivity|]. cbn [fst]. unfold token_end.
  destruct (isws (hd 0 k)) eqn:Ews.
  { cbn [orb]. split; [intros _; left; reflexivity | reflexivity]. }
  cbn [orb]. split.
  - intros H. right. right.
    repeat (apply orb_prop in H; destruct H as [H | H]);
      apply Z.eqb_eq in H; rewrite H; cbn; auto 10.
  - intros [H | [H | [H | H]]].
    + discriminate H.
    + rewrite H. reflexivity.
    + rewrite H. reflexivity.
    + cbn in H. destruct H as [H | [H | [H | [H | []]]]]; rewrite <- H;
        reflexivity.
Qed.

(** ** Keywords *)

Lemma codes_no_NUL_in : Forall (fun c => c <> 0) (codes "in").
Proof. repeat constructor; discriminate. Qed.

Lemma codes_no_NUL_where : Forall (fun c => c <> 0) (codes "where").
Proof. repeat constructor; discriminate. Qed.

Lemma codes_no_NUL_else : Forall (fun c => c <> 0) (codes "else").
Proof. repeat constructor; discriminate. Qed.

(** X7: on input that starts with "in", the [in] rule does nothing unless
    IN is requested; if it is, the rule consumes "in" and, when a token
    terminator follows, marks the end behind it, pops the stack and emits
    IN; when an identifier character follows ("int"), it continues with
    the two characters consumed and the stack untouched.
    The pop takes exactly the top entry off: [len] is
    one less and the allocation is untouched. *)
Theorem in_keyword (st : State) (k : list Z) :
  input (lexer st) = codes "in" ++ k ->
  in_ st =
    (if SYM IN st then
       if token_end (hd 0 k)
       then (res_finish IN, pop (MARK (consume 2 st)))
       else (res_cont, consume 2 st)
     else (res_cont, st))
  /\ (SYM IN st = true -> token_end (hd 0 k) = true ->
      marked (lexer (snd (in_ st))) = Some (position (lexer st) + 2)
      /\ input (lexer (snd (in_ st))) = k
      /\ indents (snd (in_ st))
         = if len (indents st) =? 0 then indents st
           else VEC_POP (indents st))
  /\ (SYM IN st = true -> token_end (hd 0 k) = true ->
      position (lexer (snd (in_ st))) = position (lexer st) + 2
      /\ (len (indents st) = 0 -> indents (snd (in_ st)) = indents st)
      /\ (len (indents st) <> 0 ->
          len (indents (snd (in_ st))) = wrap32 (len (indents st) - 1)
          /\ cap (indents (snd (in_ st))) = cap (indents st)
          /\ data (indents (snd (in_ st))) = data (indents st))
      /\ (vec_wf (indents st) -> len (indents st) <> 0 ->
          len (indents (snd (in_ st))) = len (indents st) - 1
          /\ entries (indents st)
             = entries (indents (snd (in_ st)))
               ++ [VEC_BACK (indents st)])).
Proof.
  intros Hin.
  assert (E : in_ st =
    (if SYM IN st then
       if token_end (hd 0 k)
       then (res_finish IN, pop (MARK (consume 2 st)))
       else (res_cont, consume 2 st)
     else (res_cont, st))).
  { unfold in_, finish, cont. destruct (SYM IN st); [|reflexivity].
    rewrite (token_matches _ k st codes_no_NUL_in Hin).
    destruct (token_end (hd 0 k)); reflexivity. }
  pose proof (input_consume (codes "in") k st Hin) as Hk.
  pose proof (position_consume (codes "in") k st Hin) as Hp.
  change (length (codes "in")) with 2%nat in Hk, Hp.
  split; [exact E|]. split.
  { intros Hreq Hend. rewrite E, Hreq, Hend. cbn [snd].
    unfold pop, indent_exists.
    change (indents (MARK (consume 2 st))) with (indents (consume 2 st)).
    rewrite (proj2 (frame_consume 2 st)).
    destruct (len (indents st) =? 0); cbn [negb]; repeat split;
      try exact Hk; try (cbn [MARK with_lexer with_indents lexer
                                lexer_mark_end marked]; rewrite Hp;
                         reflexivity);
      apply (proj2 (frame_consume 2 st)). }
  intros Hreq Hend. rewrite E, Hreq, Hend. cbn [snd].
  destruct (pop_stack (MARK (consume 2 st))) as (Hpl & _ & Hp0 & Hp1 & Hp2).
  change (indents (MARK (consume 2 st))) with (indents (consume 2 st))
    in Hp0, Hp1, Hp2.
  rewrite (proj2 (frame_consume 2 st)) in Hp0, Hp1, Hp2.
  split; [rewrite Hpl; exact Hp|].
  split; [exact Hp0|]. split; [exact Hp1 | exact Hp2].
Qed.

(** X8: on input that starts with "where" followed by a token terminator,
    the [where] rule consumes the word and emits WHERE, marking the end
    behind it, if WHERE is requested; otherwise it ends the current layout
    (END with a pop) if END is requested; otherwise it continues.  The
    [else] rule ends the layout in the same way on "else".  Without a
    terminator both continue, the word consumed.
    A pop takes exactly the
    top entry off a stack that is not empty, and WHERE leaves the stack
    alone. *)
Theorem where_and_else_keywords (st : State) (k : list Z) :
  (input (lexer st) = codes "where" ++ k ->
   where_ st =
     if token_end (hd 0 k) then
       if SYM WHERE st then (res_finish WHERE, MARK (consume 5 st))
       else if SYM END st then (res_finish END, pop (consume 5 st))
       else (res_cont, consume 5 st)
     else (res_cont, consume 5 st))
  /\ (input (lexer st) = codes "else" ++ k ->
      else_ st =
        (if token_end (hd 0 k) then
           if SYM END st then (res_finish END, pop (consume 4 st))
           else (res_cont, consume 4 st)
         else (res_cont, consume 4 st)))
  /\ (input (lexer st) = codes "where" ++ k ->
      token_end (hd 0 k) = true ->
      input (lexer (snd (where_ st))) = k
      /\ position (lexer (snd (where_ st))) = position (lexer st) + 5
      /\ (SYM WHERE st = true ->
          marked (lexer (snd (where_ st))) = Some (position (lexer st) + 5)
          /\ indents (snd (where_ st)) = indents st)
      /\ (SYM WHERE st = false -> SYM END st = true ->
          (len (indents st) = 0 -> indents (snd (where_ st)) = indents st)
          /\ (len (indents st) <> 0 ->
              len (indents (snd (where_ st)))
              = wrap32 (len (indents st) - 1)
              /\ cap (indents (snd (where_ st))) = cap (indents st)
              /\ data (indents (snd (where_ st))) = data (indents st))
          /\ (vec_wf (indents st) -> len (indents st) <> 0 ->
              len (indents (snd (where_ st))) = len (indents st) - 1
              /\ entries (indents st)
                 = entries (indents (snd (where_ st)))
                   ++ [VEC_BACK (indents st)])))
  /\ (input (lexer st) = codes "else" ++ k ->
      token_end (hd 0 k) = true ->
      input (lexer (snd (else_ st))) = k
      /\ position (lexer (snd (else_ st))) = position (lexer st) + 4
      /\ (SYM END st = true ->
          (len (indents st) = 0 -> indents (snd (else_ st)) = indents st)
          /\ (len (indents st) <> 0 ->
              len (indents (snd (else_ st)))
              = wrap32 (len (indents st) - 1)
              /\ cap (indents (snd (else_ st))) = cap (indents st)
              /\ data (indents (snd (else_ st))) = data (indents st))
          /\ (vec_wf (indents st) -> len (indents st) <> 0 ->
              len (indents (snd (else_ st))) = len (indents st) - 1
              /\ entries (indents st)
                 = entries (indents (snd (else_ st)))
                   ++ [VEC_BACK (indents st)]))).
Proof.
  assert (Hsym : forall n s, SYM s (consume n st) = SYM s st).
  { intros n s. unfold SYM. rewrite (proj1 (frame_consume n st)).
    reflexivity. }
  assert (Ew : input (lexer st) = codes "where" ++ k ->
               where_ st =
                 if token_end (hd 0 k) then
                   if SYM WHERE st
                   then (res_finish WHERE, MARK (consume 5 st))
                   else if SYM END st
                        then (res_finish END, pop (consume 5 st))
                   else (res_cont, consume 5 st)
                 else (res_cont, consume 5 st)).
  { intros Hin. unfold where_, layout_end, finish, cont.
    rewrite (token_matches _ k st codes_no_NUL_where Hin).
    change (length (codes "where")) with 5%nat. rewrite !Hsym.
    destruct (token_end (hd 0 k)); [|reflexivity].
    destruct (SYM WHERE st); [reflexivity|].
    destruct (SYM END st); reflexivity. }
  assert (Ee : input (lexer st) = codes "else" ++ k ->
               else_ st =
                 if token_end (hd 0 k) then
                   if SYM END st then (res_finish END, pop (consume 4 st))
                   else (res_cont, consume 4 st)
                 else (res_cont, consume 4 st)).
  { intros Hin. unfold else_, layout_end, finish, cont.
    rewrite (token_matches _ k st codes_no_NUL_else Hin).
    change (length (codes "else")) with 4%nat. rewrite !Hsym.
    destruct (token_end (hd 0 k)); [|reflexivity].
    destruct (SYM END st); reflexivity. }
  split; [exact Ew|]. split; [exact Ee|]. split.
  - intros Hin Hend. rewrite (Ew Hin), Hend.
    pose proof (input_consume (codes "where") k st Hin) as Hk.
    pose proof (position_consume (codes "where") k st Hin) as Hp.
    change (length (codes "where")) with 5%nat in Hk, Hp.
    destruct (pop_stack (consume 5 st)) as (Hpl & _ & Hp0 & Hp1 & Hp2).
    rewrite (proj2 (frame_consume 5 st)) in Hp0, Hp1, Hp2.
    destruct (SYM WHERE st).
    { cbn [snd MARK with_lexer lexer lexer_mark_end input position marked
           indents].
      split; [exact Hk|]. split; [exact Hp|]. split.
      - intros _. rewrite Hp. split; [reflexivity|].
        apply (proj2 (frame_consume 5 st)).
      - intros H. discriminate H. }
    destruct (SYM END st); cbn [snd]; rewrite ?Hpl;
      (split; [exact Hk|]); (split; [exact Hp|]);
      (split; [intros H; discriminate H|]); intros _ H;
      [|discriminate H].
    split; [exact Hp0|]. split; [exact Hp1 | exact Hp2].
  - intros Hin Hend. rewrite (Ee Hin), Hend.
    pose proof (input_consume (codes "else") k st Hin) as Hk.
    pose proof (position_consume (codes "else") k st Hin) as Hp.
    change (length (codes "else")) with 4%nat in Hk, Hp.
    destruct (pop_stack (consume 4 st)) as (Hpl & _ & Hp0 & Hp1 & Hp2).
    rewrite (proj2 (frame_consume 4 st)) in Hp0, Hp1, Hp2.
    destruct (SYM END st); cbn [snd]; rewrite ?Hpl;
      (split; [exact Hk|]); (split; [exact Hp|]); intros H;
      [|discriminate H].
    split; [exact Hp0|]. split; [exact Hp1 | exact Hp2].
Qed.

(** ** Blanks and indentation *)

Lemma enough_SKIP_any (fuel : nat) (st : State) :
  enough fuel st -> enough fuel (S_SKIP st).
Proof.
  unfold enough. cbn [S_SKIP with_lexer lexer]. unfold lexer_advance.
  destruct (input (lexer st)) as [|c rest] eqn:E.
  - rewrite E. trivial.
  - cbn [input length]. lia.
Qed.

Lemma input_SKIP (st : State) (c : Z) (k : list Z) :
  input (lexer st) = c :: k -> input (lexer (S_SKIP st)) = k.
Proof. intros H. apply (input_advance st true c k H). Qed.

Lemma enough_skip (fuel n : nat) (st : State) :
  enough fuel st -> enough fuel (skip n st).
Proof.
  revert st. induction n as [|n IH]; intros st He; cbn [skip].
  - exact He.
  - apply IH. apply enough_SKIP_any. exact He.
Qed.

Lemma skip_add (n m : nat) (st : State) :
  skip (n + m) st = skip m (skip n st).
Proof.
  revert st. induction n as [|n IH]; intros st; cbn [Nat.add skip].
  - reflexivity.
  - apply IH.
Qed.

Lemma frame_skip (n : nat) (st : State) : same_frame st (skip n st).
Proof.
  revert st. induction n as [|n IH]; intros st; cbn [skip].
  - apply same_frame_refl.
  - eapply same_frame_trans; [apply frame_SKIP | apply IH].
Qed.

Lemma input_skip (a b : list Z) (st : State) :
  input (lexer st) = a ++ b -> input (lexer (skip (length a) st)) = b.
Proof.
  revert st. induction a as [|c a IH]; intros st H; cbn [length skip].
  - exact H.
  - apply IH. apply (input_SKIP st c). exact H.
Qed.

(** The lexer after skipping a run that holds no line feed. *)
Lemma lexer_skip (ws : list Z) :
  forall (st : State) (k : list Z),
  input (lexer st) = ws ++ k -> Forall (fun c => c <> LF) ws ->
  let l' := lexer (skip (length ws) st) in
  input l' = k
  /\ position l' = position (lexer st) + Z.of_nat (length ws)
  /\ col l' = col (lexer st) + Z.of_nat (length ws)
  /\ (ws <> [] -> token_start l' = position l')
  /\ marked l' = marked (lexer st)
  /\ result_symbol l' = result_symbol (lexer st).
Proof.
  induction ws as [|c ws IH]; intros st k Hin Hlf l'; subst l'.
  - cbn [length skip Z.of_nat]. rewrite !Z.add_0_r.
    repeat split; try assumption. intros H. contradiction H. reflexivity.
  - inversion Hlf as [|? ? Hc Hlf']; subst. cbn [length skip].
    cbn [app] in Hin.
    assert (Hl1 : lexer (S_SKIP st)
                  = {| input := ws ++ k;
                       position := position (lexer st) + 1;
                       col := col (lexer st) + 1;
                       token_start := position (lexer st) + 1;
                       marked := marked (lexer st);
                       result_symbol := result_symbol (lexer st) |}).
    { cbn [S_SKIP with_lexer lexer]. unfold lexer_advance. rewrite Hin.
      apply Z.eqb_neq in Hc. rewrite Hc. reflexivity. }
    destruct (IH (S_SKIP st) k) as (H1 & H2 & H3 & H4 & H5 & H6);
      [rewrite Hl1; reflexivity | exact Hlf' |].
    rewrite Hl1 in H2, H3, H5, H6. cbn [position col marked result_symbol]
      in H2, H3, H5, H6.
    repeat split; try assumption; try lia.
    intros _. destruct ws as [|c' ws'].
    + cbn [length skip]. rewrite Hl1. cbn. lia.
    + apply H4. discriminate.
Qed.

Lemma is_blank_not_LF (ws : list Z) :
  Forall (fun c => is_blank c = true) ws -> Forall (fun c => c <> LF) ws.
Proof.
  intros H. apply Forall_forall. intros c Hc HLF.
  rewrite Forall_forall in H. specialize (H c Hc). subst c. discriminate H.
Qed.

Lemma skipspace_loop_run (ws : list Z) :
  forall (fuel : nat) (st : State) (k : list Z),
  enough fuel st -> input (lexer st) = ws ++ k ->
  Forall (fun c => is_blank c = true) ws -> is_blank (hd 0 k) = false ->
  skipspace_loop fuel st = skip (length ws) st.
Proof.
  induction ws as [|c ws IH]; intros fuel st k He Hin Hws Hk;
    (destruct fuel as [|fuel]; [unfold enough in He; lia|]);
    cbn [skipspace_loop length skip].
  - replace (PEEK st) with (hd 0 k)
      by (unfold PEEK, lookahead; rewrite Hin; reflexivity).
    unfold is_blank in Hk. rewrite Hk. reflexivity.
  - inversion Hws as [|? ? Hc Hws']; subst. cbn [app] in Hin.
    rewrite (peek_input st _ _ Hin). unfold is_blank in Hc. rewrite Hc.
    apply (IH fuel (S_SKIP st) k); try assumption.
    + unfold enough in *. rewrite (input_SKIP st _ _ Hin).
      rewrite Hin in He. cbn [length] in He. lia.
    + apply (input_SKIP st c). exact Hin.
Qed.

(** X9: [skipspace] passes over exactly the spaces and tabs at the front
    of the input, as skipped characters, and stops before the first other
    code point: the position and the column grow by their number, the
    token start follows, and mark, requested symbols and stack stay as
    they were. *)
Theorem skipspace_skips_blanks (ws k : list Z) (st : State) :
  input (lexer st) = ws ++ k ->
  Forall (fun c => is_blank c = true) ws -> is_blank (hd 0 k) = false ->
  let st' := skipspace st in
  st' = skip (length ws) st
  /\ input (lexer st') = k
  /\ position (lexer st') = position (lexer st) + Z.of_nat (length ws)
  /\ col (lexer st') = col (lexer st) + Z.of_nat (length ws)
  /\ (ws <> [] -> token_start (lexer st') = position (lexer st'))
  /\ marked (lexer st') = marked (lexer st)
  /\ symbols st' = symbols st /\ indents st' = indents st.
Proof.
  intros Hin Hws Hk st'. subst st'. unfold skipspace.
  rewrite (skipspace_loop_run ws _ st k (enough_fuel_of st) Hin Hws Hk).
  destruct (lexer_skip ws st k Hin (is_blank_not_LF ws Hws))
    as (H1 & H2 & H3 & H4 & H5 & _).
  destruct (frame_skip (length ws) st) as [H6 H7].
  repeat split; assumption.
Qed.

Lemma count_indent_loop_S (fuel : nat) (indent : Z) (st : State) :
  count_indent_loop (S fuel) indent st =
    if is_newline (PEEK st) then count_indent_loop fuel 0 (S_SKIP st)
    else if PEEK st =? chr " " then
      count_indent_loop fuel (wrap32 (indent + 1)) (S_SKIP st)
    else if PEEK st =? TAB then
      count_indent_loop fuel (wrap32 (indent + 8)) (S_SKIP st)
    else (indent, st).
Proof. reflexivity. Qed.

(** One character of indentation, at the same fuel. *)
Lemma count_indent_step (fuel : nat) (indent : Z) (st : State)
  (c : Z) (k : list Z) :
  enough fuel st -> input (lexer st) = c :: k -> is_indent c = true ->
  count_indent_loop fuel indent st
  = count_indent_loop fuel
      (if is_newline c then 0
       else wrap32 (indent + (if c =? TAB then 8 else 1)))
      (S_SKIP st).
Proof.
  intros He Hin Hc. destruct fuel as [|fuel]; [unfold enough in He; lia|].
  assert (He1 : enough fuel (S_SKIP st)).
  { unfold enough in *. rewrite (input_SKIP st _ _ Hin).
    rewrite Hin in He. cbn [length] in He. lia. }
  rewrite count_indent_loop_S, (peek_input st _ _ Hin).
  rewrite (count_indent_loop_fuel fuel _ (S_SKIP st) He1).
  destruct (is_newline c) eqn:E1; [reflexivity|].
  unfold is_indent, is_blank in Hc. rewrite E1 in Hc. cbn [orb] in Hc.
  destruct (c =? chr " ") eqn:E2.
  - apply Z.eqb_eq in E2. subst c. reflexivity.
  - cbn [orb] in Hc. rewrite Hc. reflexivity.
Qed.

Lemma count_indent_stop (fuel : nat) (indent : Z) (st : State) :
  enough fuel st -> is_indent (PEEK st) = false ->
  count_indent_loop fuel indent st = (indent, st).
Proof.
  intros He Hc. destruct fuel as [|fuel]; [unfold enough in He; lia|].
  rewrite count_indent_loop_S. unfold is_indent, is_blank in Hc.
  apply orb_false_elim in Hc. destruct Hc as [H1 H2].
  apply orb_false_elim in H2. destruct H2 as [H2 H3].
  rewrite H1, H2, H3. reflexivity.
Qed.

(** Over a run that ends in a line break the counter ends at 0. *)
Lemma count_indent_loop_lines (pre : list Z) :
  forall (fuel : nat) (indent : Z) (st : State) (nl : Z) (k : list Z),
  enough fuel st -> input (lexer st) = pre ++ nl :: k ->
  Forall (fun c => is_indent c = true) pre -> is_newline nl = true ->
  count_indent_loop fuel indent st
  = count_indent_loop fuel 0 (skip (S (length pre)) st).
Proof.
  induction pre as [|c pre IH]; intros fuel indent st nl k He Hin Hpre Hnl.
  - cbn [app] in Hin. cbn [length skip].
    rewrite (count_indent_step fuel indent st nl k He Hin)
      by (unfold is_indent; rewrite Hnl; reflexivity).
    rewrite Hnl. reflexivity.
  - inversion Hpre as [|? ? Hc Hpre']; subst. cbn [app] in Hin.
    rewrite (count_indent_step fuel indent st c _ He Hin Hc).
    change (skip (S (length (c :: pre))) st)
      with (skip (S (length pre)) (S_SKIP st)).
    apply (IH fuel _ (S_SKIP st) nl k); try assumption.
    + apply enough_SKIP_any. exact He.
    + apply (input_SKIP st c). exact Hin.
Qed.

(** Over a run of blanks the counter grows by its width. *)
Lemma count_indent_loop_blanks (line : list Z) :
  forall (fuel : nat) (indent : Z) (st : State) (k : list Z),
  enough fuel st -> input (lexer st) = line ++ k ->
  Forall (fun c => is_blank c = true) line ->
  0 <= indent < 4294967296 ->
  count_indent_loop fuel indent st
  = count_indent_loop fuel (wrap32 (indent + width line))
      (skip (length line) st).
Proof.
  induction line as [|c line IH]; intros fuel indent st k He Hin Hl Hi.
  - cbn [width length skip]. rewrite Z.add_0_r, wrap32_small by exact Hi.
    reflexivity.
  - inversion Hl as [|? ? Hc Hl']; subst. cbn [app] in Hin.
    assert (Hnl : is_newline c = false).
    { unfold is_blank in Hc. apply orb_prop in Hc.
      destruct Hc as [Hc | Hc]; apply Z.eqb_eq in Hc; subst c;
        reflexivity. }
    rewrite (count_indent_step fuel indent st c _ He Hin)
      by (unfold is_indent; rewrite Hc; apply orb_true_r).
    rewrite Hnl. cbn [length skip width].
    rewrite (IH fuel _ (S_SKIP st) k); try assumption.
    + f_equal. unfold wrap32. rewrite Z.add_mod_idemp_l by lia.
      f_equal. lia.
    + apply enough_SKIP_any. exact He.
    + apply (input_SKIP st c). exact Hin.
    + unfold wrap32. apply Z.mod_pos_bound. lia.
Qed.

Lemma count_indent_run (pre line k : list Z) (st : State) :
  input (lexer st) = pre ++ line ++ k ->
  Forall (fun c => is_indent c = true) pre ->
  pre = [] \/ is_newline (last pre 0) = true ->
  Forall (fun c => is_blank c = true) line ->
  is_indent (hd 0 k) = false ->
  count_indent st
  = (wrap32 (width line), skip (length pre + length line) st)
  /\ input (lexer (snd (count_indent st))) = k.
Proof.
  intros Hin Hpre Hlast Hline Hk.
  assert (Hstop : forall st1, input (lexer st1) = k ->
            is_indent (PEEK st1) = false)
    by (intros st1 H1; unfold PEEK, lookahead; rewrite H1; exact Hk).
  assert (E : count_indent st
              = (wrap32 (width line),
                 skip (length pre + length line) st)).
  { unfold count_indent. rewrite skip_add.
    destruct Hlast as [-> | Hlast].
    - cbn [app length skip] in *.
      rewrite (count_indent_loop_blanks line _ 0 st k
                 (enough_fuel_of st) Hin Hline) by lia.
      rewrite Z.add_0_l. apply count_indent_stop.
      + apply enough_skip. apply enough_fuel_of.
      + apply Hstop. apply (input_skip line k st Hin).
    - destruct (exists_last (l := pre)) as (pre' & nl & Hpre');
        [intros ->; discriminate Hlast|].
      subst pre. rewrite last_last in Hlast.
      apply Forall_app in Hpre. destruct Hpre as [Hpre _].
      rewrite <- app_assoc in Hin. cbn [app] in Hin.
      rewrite (count_indent_loop_lines pre' _ 0 st nl (line ++ k)
                 (enough_fuel_of st) Hin Hpre Hlast).
      rewrite length_app. cbn [length].
      replace (length pre' + 1)%nat with (S (length pre')) by lia.
      assert (Hin1 : input (lexer (skip (S (length pre')) st))
                     = line ++ k).
      { replace (S (length pre')) with (length (pre' ++ [nl]))
          by (rewrite length_app; cbn; lia).
        apply input_skip. rewrite <- app_assoc. exact Hin. }
      rewrite (count_indent_loop_blanks line _ 0 _ k
                 (enough_skip _ _ _ (enough_fuel_of st)) Hin1 Hline)
        by lia.
      rewrite Z.add_0_l. apply count_indent_stop.
      + do 2 apply enough_skip. apply enough_fuel_of.
      + apply Hstop. apply (input_skip line k _ Hin1). }
  split; [exact E|]. rewrite E. cbn [snd].
  rewrite <- length_app. apply input_skip.
  rewrite <- app_assoc. exact Hin.
Qed.

(** X10: [count_indent] passes over all line breaks, spaces and tabs at
    the front of the input and returns the width of the blanks after the
    last line break, a space counting 1 and a tab 8, as a 32-bit number:
    every line break resets the count. *)
Theorem count_indent_measures_last_line
  (pre line k : list Z) (st : State) :
  input (lexer st) = pre ++ line ++ k ->
  Forall (fun c => is_indent c = true) pre ->
  pre = [] \/ is_newline (last pre 0) = true ->
  Forall (fun c => is_blank c = true) line ->
  is_indent (hd 0 k) = false ->
  count_indent st
  = (wrap32 (width line), skip (length pre + length line) st)
  /\ input (lexer (snd (count_indent st))) = k.
Proof. apply count_indent_run. Qed.

(** ** Inline comments and folds *)

Lemma inline_comment_loop_run (body : list Z) :
  forall (fuel : nat) (st : State) (k : list Z),
  enough fuel st -> input (lexer st) = body ++ k ->
  Forall (fun c => is_newline c || (c =? 0) = false) body ->
  is_newline (hd 0 k) || (hd 0 k =? 0) = true ->
  inline_comment_loop fuel st = consume (length body) st.
Proof.
  induction body as [|c body IH]; intros fuel st k He Hin Hb Hk;
    (destruct fuel as [|fuel]; [unfold enough in He; lia|]);
    cbn [inline_comment_loop length consume].
  - replace (PEEK st) with (hd 0 k)
      by (unfold PEEK, lookahead; rewrite Hin; reflexivity).
    rewrite Hk. reflexivity.
  - inversion Hb as [|? ? Hc Hb']; subst. cbn [app] in Hin.
    rewrite (peek_input st _ _ Hin), Hc.
    apply (IH fuel (S_ADVANCE st) k); try assumption.
    + unfold enough in *. rewrite (input_ADVANCE st _ _ Hin).
      rewrite Hin in He. cbn [length] in He. lia.
    + apply (input_ADVANCE st c). exact Hin.
Qed.

Lemma advance_to_eof_loop_run (inp : list Z) :
  forall (fuel : nat) (st : State),
  enough fuel st -> input (lexer st) = inp ->
  advance_to_eof_loop fuel st = consume (length inp) st.
Proof.
  induction inp as [|c inp IH]; intros fuel st He Hin;
    (destruct fuel as [|fuel]; [unfold enough in He; lia|]);
    cbn [advance_to_eof_loop length consume];
    unfold is_eof, lexer_eof; rewrite Hin; cbn [negb]; [reflexivity|].
  apply IH.
  - unfold enough in *. rewrite (input_ADVANCE st _ _ Hin).
    rewrite Hin in He. cbn [length] in He. lia.
  - apply (input_ADVANCE st c). exact Hin.
Qed.

Lemma advance_to_eof_run (st : State) :
  advance_to_eof st = consume (length (input (lexer st))) st
  /\ input (lexer (advance_to_eof st)) = [].
Proof.
  assert (E : advance_to_eof st = consume (length (input (lexer st))) st)
    by (apply advance_to_eof_loop_run;
        [apply enough_fuel_of | reflexivity]).
  split; [exact E|]. rewrite E. apply input_consume. symmetry.
  apply app_nil_r.
Qed.

Lemma inline_comment_run (body k : list Z) (st : State) :
  input (lexer st) = body ++ k ->
  Forall (fun c => is_newline c || (c =? 0) = false) body ->
  k = [] \/ is_newline (hd 0 k) = true \/ hd 0 k = 0 ->
  inline_comment st = (res_finish COMMENT, MARK (consume (length body) st))
  /\ input (lexer (snd (inline_comment st))) = k
  /\ marked (lexer (snd (inline_comment st)))
     = Some (position (lexer st) + Z.of_nat (length body))
  /\ indents (snd (inline_comment st)) = indents st.
Proof.
  intros Hin Hb Hk.
  assert (Hk' : is_newline (hd 0 k) || (hd 0 k =? 0) = true).
  { destruct Hk as [-> | [Hk | Hk]]; [reflexivity | |].
    - rewrite Hk. reflexivity.
    - rewrite Hk. apply orb_true_r. }
  assert (E : inline_comment st
              = (res_finish COMMENT, MARK (consume (length body) st))).
  { unfold inline_comment, finish.
    rewrite (inline_comment_loop_run body _ st k
               (enough_fuel_of st) Hin Hb Hk').
    reflexivity. }
  split; [exact E|]. rewrite E. cbn [snd]. repeat split.
  - apply (input_consume body k st Hin).
  - cbn [MARK with_lexer lexer lexer_mark_end marked]. f_equal.
    apply (position_consume body k st Hin).
  - apply (frame_consume (length body) st).
Qed.

(** X11: [inline_comment] consumes the input up to, and not including, the
    next line break or NUL, or all of it if there is none, marks the end
    there and emits COMMENT. *)
Theorem inline_comment_runs_to_end_of_line (body k : list Z) (st : State) :
  input (lexer st) = body ++ k ->
  Forall (fun c => is_newline c || (c =? 0) = false) body ->
  k = [] \/ is_newline (hd 0 k) = true \/ hd 0 k = 0 ->
  inline_comment st = (res_finish COMMENT, MARK (consume (length body) st))
  /\ input (lexer (snd (inline_comment st))) = k
  /\ marked (lexer (snd (inline_comment st)))
     = Some (position (lexer st) + Z.of_nat (length body))
  /\ indents (snd (inline_comment st)) = indents st.
Proof. apply inline_comment_run. Qed.

(** X12: what [minus] does with two or three dashes.  After "--" not
    followed by a third '-' it is [inline_comment]; after "---" at the end
    of the input or before a line break it consumes everything up to the
    end of the input, marks the end there and emits FOLD; after "---"
    before anything else it fails, the three dashes consumed.
    In the comment case the
    mark is set at the end of the line and COMMENT is emitted; in the fold
    case the mark is set at the end of the input; the stack is untouched
    in both. *)
Theorem minus_comment_or_fold (st : State) (k : list Z) :
  (input (lexer st) = codes "--" ++ k -> hd 0 k <> chr "-" ->
   minus st = inline_comment (consume 2 st))
  /\ (input (lexer st) = codes "---" ++ k ->
      minus st =
        if is_newline (hd 0 k) || match k with [] => true | _ => false end
        then (res_finish FOLD,
              MARK (consume (length (input (lexer st))) st))
        else (res_fail, consume 3 st))
  /\ (forall body k', k = body ++ k' ->
      input (lexer st) = codes "--" ++ k -> hd 0 k <> chr "-" ->
      Forall (fun c => is_newline c || (c =? 0) = false) body ->
      k' = [] \/ is_newline (hd 0 k') = true \/ hd 0 k' = 0 ->
      fst (minus st) = res_finish COMMENT
      /\ input (lexer (snd (minus st))) = k'
      /\ marked (lexer (snd (minus st)))
         = Some (position (lexer st) + 2 + Z.of_nat (length body))
      /\ indents (snd (minus st)) = indents st)
  /\ (input (lexer st) = codes "---" ++ k ->
      is_newline (hd 0 k) || match k with [] => true | _ => false end
      = true ->
      fst (minus st) = res_finish FOLD
      /\ input (lexer (snd (minus st))) = []
      /\ marked (lexer (snd (minus st)))
         = Some (position (lexer st)
                 + Z.of_nat (length (input (lexer st))))
      /\ indents (snd (minus st)) = indents st).
Proof.
  assert (C1 : input (lexer st) = codes "--" ++ k -> hd 0 k <> chr "-" ->
               minus st = inline_comment (consume 2 st)).
  { intros Hin. intros Hk. unfold minus, cont.
      rewrite (seq_matches (codes "--") k st) by
        (try exact Hin; repeat constructor; discriminate).
      cbn [negb]. change (length (codes "--")) with 2%nat.
      pose proof (input_consume (codes "--") k st Hin) as Hin2.
      change (length (codes "--")) with 2%nat in Hin2.
      replace (PEEK (consume 2 st)) with (hd 0 k)
        by (unfold PEEK, lookahead; rewrite Hin2; reflexivity).
      apply Z.eqb_neq in Hk. rewrite Hk. reflexivity. }
  assert (C2 : input (lexer st) = codes "---" ++ k ->
               minus st =
                 if is_newline (hd 0 k)
                    || match k with [] => true | _ => false end
                 then (res_finish FOLD,
                       MARK (consume (length (input (lexer st))) st))
                 else (res_fail, consume 3 st)).
  { intros Hin. unfold minus, cont, fail, finish.
      change (codes "---" ++ k) with (codes "--" ++ chr "-" :: k) in Hin.
      rewrite (seq_matches (codes "--") _ st) by
        (try exact Hin; repeat constructor; discriminate).
      cbn [negb]. change (length (codes "--")) with 2%nat.
      pose proof (input_consume (codes "--") _ st Hin) as Hin2.
      change (length (codes "--")) with 2%nat in Hin2.
      rewrite (peek_input _ _ _ Hin2), Z.eqb_refl.
      pose proof (input_ADVANCE _ _ _ Hin2) as Hin3.
      change (S_ADVANCE (consume 2 st)) with (consume 3 st) in *.
      replace (PEEK (consume 3 st)) with (hd 0 k)
        by (unfold PEEK, lookahead; rewrite Hin3; reflexivity).
      replace (is_eof (consume 3 st))
        with (match k with [] => true | _ => false end)
        by (unfold is_eof, lexer_eof; rewrite Hin3; reflexivity).
      rewrite orb_comm.
      destruct (is_newline (hd 0 k) || match k with [] => true | _ => false end);
        [|reflexivity].
      rewrite (proj1 (advance_to_eof_run (consume 3 st))), Hin3, Hin.
      change (length (codes "--" ++ chr "-" :: k)) with (3 + length k)%nat.
      rewrite consume_add. reflexivity. }
  split; [exact C1|]. split; [exact C2|]. split.
  - intros body k' Hk Hin Hd Hb Hend. subst k.
    rewrite (C1 Hin Hd).
    pose proof (input_consume (codes "--") _ st Hin) as Hin2.
    pose proof (position_consume (codes "--") _ st Hin) as Hp2.
    change (length (codes "--")) with 2%nat in Hin2, Hp2.
    destruct (inline_comment_run body k' (consume 2 st) Hin2 Hb Hend)
      as (E & H1 & H2 & H3).
    rewrite E. cbn [fst]. split; [reflexivity|].
    rewrite E in H1, H2, H3. split; [exact H1|]. split.
    + rewrite H2, Hp2. reflexivity.
    + rewrite H3. apply (frame_consume 2 st).
  - intros Hin Hnl. rewrite (C2 Hin), Hnl. cbn [fst snd].
    split; [reflexivity|]. split.
    { cbn [MARK with_lexer lexer lexer_mark_end input].
      apply (input_consume (input (lexer st)) []).
      symmetry. apply app_nil_r. }
    split.
    { cbn [MARK with_lexer lexer lexer_mark_end marked]. f_equal.
      apply (position_consume (input (lexer st)) []).
      symmetry. apply app_nil_r. }
    apply (frame_consume (length (input (lexer st))) st).
Qed.

Lemma fold_run (st : State) (k : list Z) :
  input (lexer st) = codes "---" ++ k ->
  fold st
  = (res_finish FOLD, MARK (consume (length (input (lexer st))) st)).
Proof.
  intros Hin. unfold fold, finish.
  rewrite (seq_matches (codes "---") k st) by
    (try exact Hin; repeat constructor; discriminate).
  pose proof (input_consume (codes "---") k st Hin) as Hin3.
  rewrite (proj1 (advance_to_eof_run _)), Hin3, Hin, length_app, consume_add.
  reflexivity.
Qed.

Lemma dot_passes (iswspace : Z -> bool) (st : State) :
  PEEK st <> chr "." -> dot iswspace st = (res_cont, st).
Proof.
  intros H. unfold dot, cont. apply Z.eqb_neq in H. rewrite H.
  destruct (SYM DOT st); reflexivity.
Qed.

(** [init] lets a call pass that is not an after-error call, is not at the
    end of the input and starts with neither '.' nor '-'. *)
Lemma init_passes (iswspace : Z -> bool) (st : State) :
  after_error st = false -> is_eof st = false ->
  PEEK st <> chr "." -> PEEK st <> chr "-" ->
  init iswspace st = (res_cont, st).
Proof.
  intros Herr Heof Hdot Hdash. unfold init.
  rewrite (eof_not_at_end st Heof). cbn [short res_cont finished].
  rewrite Herr. cbn [short res_cont finished cont].
  unfold dot, fold, cont. apply Z.eqb_neq in Hdot. rewrite Hdot.
  assert (Hseq : seq (codes "---") st = (false, st)).
  { cbn [codes list_ascii_of_string map seq].
    replace (chr "-" =? PEEK st) with false
      by (symmetry; apply Z.eqb_neq; congruence).
    reflexivity. }
  destruct (SYM DOT st); cbn [short res_cont finished];
    (destruct (SYM FOLD st); [|reflexivity]); rewrite Hseq; reflexivity.
Qed.

(** X13: a scan call with FOLD requested, not an after-error call, on
    input that starts with "---" consumes the whole input, marks the end
    at the end of the input and returns true with FOLD, the stack
    untouched. *)
Theorem scan_fold_marker
  (iswspace : Z -> bool) (v : indent_vec) (l : TSLexer) (syms : Sym -> bool)
  (k : list Z) :
  syms FOLD = true -> all_syms syms = false ->
  input l = codes "---" ++ k ->
  let out := tree_sitter_unison_external_scanner_scan iswspace v l syms in
  fst (fst out) = true
  /\ result_symbol (snd (fst out)) = Some FOLD
  /\ input (snd (fst out)) = []
  /\ marked (snd (fst out))
     = Some (position l + Z.of_nat (length (input l)))
  /\ snd out = v.
Proof.
  intros Hreq Hall Hin out. subst out.
  set (st := {| lexer := l; symbols := syms; indents := v |}).
  assert (Hinit : init iswspace st
                  = (res_finish FOLD,
                     MARK (consume (length (input l)) st))).
  { unfold init. rewrite eof_not_at_end
      by (unfold is_eof, lexer_eof; cbn [lexer st]; rewrite Hin;
          reflexivity).
    cbn [short res_cont finished]. unfold after_error. cbn [symbols st].
    rewrite Hall. cbn [short res_cont finished cont].
    rewrite dot_passes
      by (unfold PEEK, lookahead; cbn [lexer st]; rewrite Hin;
          discriminate).
    cbn [short res_cont finished].
    unfold SYM. cbn [symbols st]. rewrite Hreq.
    rewrite (fold_run st k Hin). reflexivity. }
  unfold tree_sitter_unison_external_scanner_scan, eval, scan_all.
  fold st. rewrite Hinit.
  cbn [short fst snd finished sym res_finish Sym_eqb negb andb].
  cbn [MARK with_lexer lexer indents set_result_symbol lexer_mark_end
       result_symbol input marked fst snd].
  repeat split.
  - apply (input_consume (input l) [] st). symmetry. apply app_nil_r.
  - f_equal. apply (position_consume (input l) [] st). symmetry.
    apply app_nil_r.
  - apply (proj2 (frame_consume _ st)).
Qed.

(** ** The two paths of [scan_main] *)

Lemma is_blank_not_newline (c : Z) : is_blank c = true -> is_newline c = false.
Proof.
  unfold is_blank. intros H. apply orb_prop in H.
  destruct H as [H | H]; apply Z.eqb_eq in H; subst c; reflexivity.
Qed.

Lemma is_newline_not_blank (c : Z) : is_newline c = true -> is_blank c = false.
Proof.
  intros H. destruct (is_blank c) eqn:E; [|reflexivity].
  apply is_blank_not_newline in E. congruence.
Qed.

Lemma not_eof_input (st : State) (c : Z) (k : list Z) :
  input (lexer st) = c :: k -> is_eof st = false.
Proof. intros H. unfold is_eof, lexer_eof. rewrite H. reflexivity. Qed.

Lemma scan_main_inline (st : State) (ws : list Z) (c : Z) (k : list Z) :
  input (lexer st) = ws ++ c :: k ->
  Forall (fun b => is_blank b = true) ws ->
  is_blank c = false -> is_newline c = false ->
  scan_main st
  = immediate (col (lexer st) + Z.of_nat (length ws))
      (MARK (skip (length ws) st))
  /\ input (lexer (MARK (skip (length ws) st))) = c :: k.
Proof.
  intros Hin Hws Hb Hn.
  destruct (lexer_skip ws st _ Hin (is_blank_not_LF ws Hws))
    as (H1 & _ & H3 & _).
  split; [|exact H1].
  unfold scan_main, skipspace.
  rewrite (skipspace_loop_run ws _ st _ (enough_fuel_of st) Hin Hws Hb).
  rewrite (eof_not_at_end _ (not_eof_input _ _ _ H1)).
  cbn [short res_cont finished].
  replace (PEEK (MARK (skip (length ws) st))) with c
    by (unfold PEEK, lookahead; cbn [MARK with_lexer lexer lexer_mark_end
          input]; rewrite H1; reflexivity).
  rewrite Hn. unfold column.
  replace (is_eof (MARK (skip (length ws) st))) with false
    by (symmetry; apply (not_eof_input _ c k); exact H1).
  unfold lexer_get_column. cbn [MARK with_lexer lexer lexer_mark_end col].
  rewrite H3. reflexivity.
Qed.

Lemma scan_main_newline (st : State) (ws : list Z) (nl : Z)
  (pre line : list Z) (c : Z) (k : list Z) :
  input (lexer st) = ws ++ nl :: pre ++ line ++ c :: k ->
  Forall (fun b => is_blank b = true) ws -> is_newline nl = true ->
  Forall (fun b => is_indent b = true) pre ->
  pre = [] \/ is_newline (last pre 0) = true ->
  Forall (fun b => is_blank b = true) line ->
  is_indent c = false ->
  let st' := skip (length pre + length line)
               (S_SKIP (MARK (skip (length ws) st))) in
  scan_main st = newline (wrap32 (width line)) st'
  /\ input (lexer st') = c :: k
  /\ same_frame st st'.
Proof.
  intros Hin Hws Hnl Hpre Hlast Hline Hc st'.
  destruct (lexer_skip ws st _ Hin (is_blank_not_LF ws Hws)) as (H1 & _).
  assert (Hin1 : input (lexer (S_SKIP (MARK (skip (length ws) st))))
                 = pre ++ line ++ c :: k)
    by (apply (input_advance (MARK (skip (length ws) st)) true nl);
        exact H1).
  destruct (count_indent_run pre line (c :: k) _ Hin1 Hpre Hlast Hline Hc)
    as [Hci Hin2].
  split; [|split].
  - unfold scan_main, skipspace.
    rewrite (skipspace_loop_run ws _ st _ (enough_fuel_of st) Hin Hws
               (is_newline_not_blank nl Hnl)).
    rewrite (eof_not_at_end _ (not_eof_input _ _ _ H1)).
    cbn [short res_cont finished].
    replace (PEEK (MARK (skip (length ws) st))) with nl
      by (unfold PEEK, lookahead; cbn [MARK with_lexer lexer
            lexer_mark_end input]; rewrite H1; reflexivity).
    rewrite Hnl, Hci. reflexivity.
  - rewrite Hci in Hin2. exact Hin2.
  - subst st'. eapply same_frame_trans; [apply frame_skip|].
    eapply same_frame_trans; [apply frame_MARK|].
    eapply same_frame_trans; [apply frame_SKIP | apply frame_skip].
Qed.

Lemma scan_after_init
  (iswspace : Z -> bool) (v : indent_vec) (l : TSLexer) (syms : Sym -> bool) :
  let st := {| lexer := l; symbols := syms; indents := v |} in
  init iswspace st = (res_cont, st) ->
  tree_sitter_unison_external_scanner_scan iswspace v l syms
  = let (res, st') := eval scan_main st in (res, lexer st', indents st').
Proof.
  intros st Hinit.
  unfold tree_sitter_unison_external_scanner_scan, eval, scan_all.
  fold st. rewrite Hinit. reflexivity.
Qed.

(** [init] lets a call pass whose input starts with a blank or a line
    break. *)
Lemma init_passes_white
  (iswspace : Z -> bool) (st : State) (c : Z) (k : list Z) :
  after_error st = false -> input (lexer st) = c :: k ->
  is_indent c = true -> init iswspace st = (res_cont, st).
Proof.
  intros Herr Hin Hc.
  apply init_passes; try exact Herr.
  - apply (not_eof_input st c k Hin).
  - rewrite (peek_input st _ _ Hin). intros ->. discriminate Hc.
  - rewrite (peek_input st _ _ Hin). intros ->. discriminate Hc.
Qed.

(** X14: a scan call with START requested, not an after-error call, whose
    input holds blanks and then a code point that is neither a blank nor a
    line break (and does not start with '.' or '-') opens a layout: it
    returns true with START, pushes the column of that code point,
    truncated to 16 bits, consumes the blanks only and marks the end
    behind them.
    The stack has then one entry more, the
    pushed column on top of the old entries. *)
Theorem scan_opens_layout_at_column
  (iswspace : Z -> bool) (v : indent_vec) (l : TSLexer) (syms : Sym -> bool)
  (ws : list Z) (c : Z) (k : list Z) :
  syms START = true -> all_syms syms = false ->
  input l = ws ++ c :: k ->
  Forall (fun b => is_blank b = true) ws ->
  is_blank c = false -> is_newline c = false ->
  hd 0 (input l) <> chr "." -> hd 0 (input l) <> chr "-" ->
  let out := tree_sitter_unison_external_scanner_scan iswspace v l syms in
  fst (fst out) = true
  /\ result_symbol (snd (fst out)) = Some START
  /\ input (snd (fst out)) = c :: k
  /\ marked (snd (fst out)) = Some (position l + Z.of_nat (length ws))
  /\ snd out = VEC_PUSH v (wrap16 (col l + Z.of_nat (length ws)))
  /\ len (snd out) = wrap32 (len v + 1)
  /\ (vec_wf v -> len v < 2147483648 ->
      len (snd out) = len v + 1
      /\ entries (snd out)
         = entries v ++ [wrap16 (col l + Z.of_nat (length ws))]
      /\ VEC_BACK (snd out) = wrap16 (col l + Z.of_nat (length ws))).
Proof.
  intros Hreq Hall Hin Hws Hb Hn Hdot Hdash out.
  assert (Hold :
    fst (fst out) = true
    /\ result_symbol (snd (fst out)) = Some START
    /\ input (snd (fst out)) = c :: k
    /\ marked (snd (fst out)) = Some (position l + Z.of_nat (length ws))
    /\ snd out = VEC_PUSH v (wrap16 (col l + Z.of_nat (length ws)))).
  { subst out.
    set (st := {| lexer := l; symbols := syms; indents := v |}).
    assert (Hinit : init iswspace st = (res_cont, st)).
    { apply init_passes; try assumption.
      unfold is_eof, lexer_eof. cbn [lexer st]. rewrite Hin.
      destruct ws; reflexivity. }
    rewrite (scan_after_init iswspace v l syms Hinit). fold st.
    destruct (scan_main_inline st ws c k Hin Hws Hb Hn) as [Hmain Hin1].
    destruct (lexer_skip ws st _ Hin (is_blank_not_LF ws Hws))
      as (_ & H2 & _).
    unfold eval. rewrite Hmain. unfold immediate, layout_start, finish.
    replace (SYM START (MARK (skip (length ws) st))) with true
      by (symmetry; unfold SYM;
          change (symbols (MARK (skip (length ws) st)))
            with (symbols (skip (length ws) st));
          rewrite (proj1 (frame_skip (length ws) st)); exact Hreq).
    cbn [short fst snd finished sym res_finish Sym_eqb negb andb push
         with_lexer with_indents lexer indents set_result_symbol
         result_symbol input marked].
    change (indents (MARK (skip (length ws) st)))
      with (indents (skip (length ws) st)).
    rewrite (proj2 (frame_skip (length ws) st)).
    repeat split.
    - exact Hin1.
    - cbn [MARK with_lexer lexer lexer_mark_end marked]. rewrite H2.
      reflexivity. }
  destruct Hold as (A1 & A2 & A3 & A4 & A5).
  split; [exact A1|]. split; [exact A2|]. split; [exact A3|].
  split; [exact A4|]. split; [exact A5|]. rewrite A5.
  split; [apply len_VEC_PUSH|].
  intros Hwf Hbig. apply VEC_PUSH_entries; assumption.
Qed.

(** ** The first token of a line *)

Lemma ordinary_spec (c : Z) :
  ordinary c = true ->
  is_indent c = false /\ symbolic c = false
  /\ (c =? chr "-") = false /\ (c =? chr "{") = false
  /\ (c =? chr "`") = false /\ (c =? chr "i") = false
  /\ (c =? chr "]") = false /\ (c =? chr ",") = false.
Proof.
  unfold ordinary. intros H.
  apply andb_prop in H. destruct H as [H H3].
  apply andb_prop in H. destruct H as [H1 H2].
  apply negb_true_iff in H1, H2, H3.
  cbn [codes list_ascii_of_string map existsb] in H3.
  repeat (apply orb_false_elim in H3; destruct H3 as [? H3]).
  repeat split; try assumption.
  destruct (c =? chr "-") eqn:E; [|reflexivity].
  apply Z.eqb_eq in E. subst c. discriminate H2.
Qed.

Lemma newline_ordinary (indent : Z) (st : State) :
  is_eof st = false -> ordinary (PEEK st) = true ->
  newline indent st =
    if smaller_indent indent st && SYM END st
    then (res_finish END, pop st)
    else if SYM SEMICOLON st && same_indent indent st
    then (res_finish SEMICOLON, st)
    else (res_cont, st).
Proof.
  intros Heof Hord.
  destruct (ordinary_spec _ Hord)
    as (_ & Hsym & H1 & H2 & H3 & H4 & H5 & H6).
  unfold newline. rewrite (eof_not_at_end st Heof).
  cbn [short res_cont finished]. unfold comment. rewrite H1, H2.
  unfold cont. cbn [short res_cont finished].
  unfold newline_token. rewrite H1, Hsym, H3, H4.
  cbn [orb short res_cont finished cont].
  assert (Hclose : close_layout_in_list st = (res_cont, st))
    by (unfold close_layout_in_list, cont; rewrite H5, H6; reflexivity).
  unfold newline_indent, dedent, layout_end, finish, cont.
  destruct (smaller_indent indent st) eqn:Es; cbn [andb].
  - destruct (SYM END st); cbn [short res_cont res_finish finished];
      [reflexivity|].
    rewrite Hclose. cbn [short res_cont finished].
    unfold newline_semicolon, cont.
    unfold smaller_indent, same_indent in *.
    destruct (indent_exists st); cbn [andb] in *; [|discriminate Es].
    apply Z.ltb_lt in Es.
    replace (indent =? VEC_BACK (indents st)) with false
      by (symmetry; apply Z.eqb_neq; lia).
    rewrite andb_false_r. reflexivity.
  - cbn [short res_cont finished]. rewrite Hclose.
    cbn [short res_cont finished]. unfold newline_semicolon, finish, cont.
    destruct (SYM SEMICOLON st && same_indent indent st); reflexivity.
Qed.

Lemma newline_operator (indent : Z) (st : State) :
  symbolic (PEEK st) || (PEEK st =? chr "`") = true ->
  PEEK st <> chr "-" ->
  newline indent st = (res_fail, st).
Proof.
  intros Hop Hdash.
  assert (Heof : is_eof st = false).
  { unfold is_eof, lexer_eof. unfold PEEK, lookahead in Hop.
    destruct (input (lexer st)); [discriminate Hop | reflexivity]. }
  assert (Hbrace : (PEEK st =? chr "{") = false).
  { destruct (PEEK st =? chr "{") eqn:E; [|reflexivity].
    apply Z.eqb_eq in E. rewrite E in Hop. discriminate Hop. }
  apply Z.eqb_neq in Hdash.
  unfold newline. rewrite (eof_not_at_end st Heof).
  cbn [short res_cont finished]. unfold comment. rewrite Hdash, Hbrace.
  unfold cont. cbn [short res_cont finished].
  unfold newline_token, fail. rewrite Hdash, Hop. reflexivity.
Qed.

Lemma operator_not_indent (c : Z) :
  symbolic c || (c =? chr "`") = true -> is_indent c = false.
Proof.
  intros H. destruct (is_indent c) eqn:E; [|reflexivity].
  unfold is_indent, is_newline, is_blank in E.
  repeat (apply orb_prop in E; destruct E as [E | E]);
    apply Z.eqb_eq in E; subst c; discriminate H.
Qed.

(** X15: the off-side rule.  A scan call, not an after-error call, finds
    blanks, a line break, any further blank lines and then a line whose
    first code point no rule reads, indented by [indent] (the width of the
    blanks before it).  If the stack is not empty and [indent] is below
    its top, the call returns true with END and pops, provided END is
    requested; if [indent] equals the top, it returns true with SEMICOLON,
    provided SEMICOLON is requested; in every other case it returns false.
    The stack changes only in the first case, and the call stops in front
    of that code point.
    A pop takes exactly the top entry off. *)
Theorem scan_off_side_rule
  (iswspace : Z -> bool) (v : indent_vec) (l : TSLexer) (syms : Sym -> bool)
  (ws : list Z) (nl : Z) (pre line : list Z) (c : Z) (k : list Z) :
  all_syms syms = false ->
  input l = ws ++ nl :: pre ++ line ++ c :: k ->
  Forall (fun b => is_blank b = true) ws -> is_newline nl = true ->
  Forall (fun b => is_indent b = true) pre ->
  pre = [] \/ is_newline (last pre 0) = true ->
  Forall (fun b => is_blank b = true) line ->
  ordinary c = true ->
  let indent := wrap32 (width line) in
  let dedent := negb (len v =? 0) && (indent <? VEC_BACK v) && syms END in
  let same := negb (len v =? 0) && (indent =? VEC_BACK v)
              && syms SEMICOLON in
  let out := tree_sitter_unison_external_scanner_scan iswspace v l syms in
  fst (fst out) = dedent || same
  /\ (dedent = true -> result_symbol (snd (fst out)) = Some END)
  /\ (same = true -> result_symbol (snd (fst out)) = Some SEMICOLON)
  /\ snd out = (if dedent then VEC_POP v else v)
  /\ input (snd (fst out)) = c :: k
  /\ (dedent = true ->
      len (snd out) = wrap32 (len v - 1) /\ cap (snd out) = cap v
      /\ data (snd out) = data v)
  /\ (dedent = true -> vec_wf v ->
      len (snd out) = len v - 1
      /\ entries v = entries (snd out) ++ [VEC_BACK v]).
Proof.
  intros Hall Hin Hws Hnl Hpre Hlast Hline Hord indent dedent same out.
  assert (Hold :
    fst (fst out) = dedent || same
    /\ (dedent = true -> result_symbol (snd (fst out)) = Some END)
    /\ (same = true -> result_symbol (snd (fst out)) = Some SEMICOLON)
    /\ snd out = (if dedent then VEC_POP v else v)
    /\ input (snd (fst out)) = c :: k).
  { subst out.
    set (st := {| lexer := l; symbols := syms; indents := v |}).
    assert (Hinit : init iswspace st = (res_cont, st)).
    { destruct ws as [|b ws'].
      - apply (init_passes_white iswspace st nl _ Hall Hin).
        unfold is_indent. rewrite Hnl. reflexivity.
      - inversion Hws; subst.
        apply (init_passes_white iswspace st b _ Hall Hin).
        unfold is_indent. rewrite H1. apply orb_true_r. }
    rewrite (scan_after_init iswspace v l syms Hinit). fold st.
    destruct (scan_main_newline st ws nl pre line c k Hin Hws Hnl Hpre Hlast
                Hline (proj1 (ordinary_spec c Hord)))
      as (Hmain & Hin1 & Hsym & Hind).
    unfold eval. rewrite Hmain.
    set (st' := skip (length pre + length line)
                  (S_SKIP (MARK (skip (length ws) st)))) in *.
    rewrite (newline_ordinary _ st' (not_eof_input _ _ _ Hin1))
      by (rewrite (peek_input _ _ _ Hin1); exact Hord).
    unfold smaller_indent, same_indent, indent_exists, SYM, pop,
      indent_exists.
    rewrite Hsym, Hind. cbn [symbols indents st]. fold indent.
    subst dedent same. clearbody st' indent.
    destruct (len v =? 0); destruct (indent <? VEC_BACK v) eqn:E1;
      destruct (indent =? VEC_BACK v) eqn:E2;
      destruct (syms END); destruct (syms SEMICOLON);
      cbn [negb andb orb fst snd finished sym res_finish res_cont Sym_eqb
           with_lexer with_indents lexer indents set_result_symbol
           result_symbol input];
      rewrite ?Hind;
      try (apply Z.ltb_lt in E1; apply Z.eqb_eq in E2; lia);
      repeat split; try discriminate; try exact Hin1. }
  destruct Hold as (A1 & A2 & A3 & A4 & A5).
  split; [exact A1|]. split; [exact A2|]. split; [exact A3|].
  split; [exact A4|]. split; [exact A5|]. rewrite A4. split.
  - intros Hd. rewrite Hd. repeat split.
  - intros Hd Hwf. rewrite Hd. apply VEC_POP_entries; [exact Hwf|].
    subst dedent. destruct (len v =? 0) eqn:E0; [discriminate Hd|].
    apply Z.eqb_neq. exact E0.
Qed.

(** X16: a line that starts with an operator character or a back-tick,
    other than '-', never ends a layout and never gets a semicolon: the
    scan call that reaches it over a line break returns false and leaves
    the stack as it was, whatever is requested and however the line is
    indented. *)
Theorem scan_operator_line
  (iswspace : Z -> bool) (v : indent_vec) (l : TSLexer) (syms : Sym -> bool)
  (ws : list Z) (nl : Z) (pre line : list Z) (c : Z) (k : list Z) :
  all_syms syms = false ->
  input l = ws ++ nl :: pre ++ line ++ c :: k ->
  Forall (fun b => is_blank b = true) ws -> is_newline nl = true ->
  Forall (fun b => is_indent b = true) pre ->
  pre = [] \/ is_newline (last pre 0) = true ->
  Forall (fun b => is_blank b = true) line ->
  symbolic c || (c =? chr "`") = true -> c <> chr "-" ->
  let out := tree_sitter_unison_external_scanner_scan iswspace v l syms in
  fst (fst out) = false /\ snd out = v /\ input (snd (fst out)) = c :: k.
Proof.
  intros Hall Hin Hws Hnl Hpre Hlast Hline Hop Hdash out. subst out.
  set (st := {| lexer := l; symbols := syms; indents := v |}).
  assert (Hinit : init iswspace st = (res_cont, st)).
  { destruct ws as [|b ws'].
    - apply (init_passes_white iswspace st nl _ Hall Hin).
      unfold is_indent. rewrite Hnl. reflexivity.
    - inversion Hws; subst.
      apply (init_passes_white iswspace st b _ Hall Hin).
      unfold is_indent. rewrite H1. apply orb_true_r. }
  rewrite (scan_after_init iswspace v l syms Hinit). fold st.
  destruct (scan_main_newline st ws nl pre line c k Hin Hws Hnl Hpre Hlast
              Hline (operator_not_indent c Hop))
    as (Hmain & Hin1 & Hsym & Hind).
  unfold eval. rewrite Hmain.
  rewrite newline_operator
    by (rewrite (peek_input _ _ _ Hin1); assumption).
  cbn [fst snd finished sym res_fail Sym_eqb negb andb].
  repeat split; [exact Hind | exact Hin1].
Qed.

(** ** The lexer only moves forward *)

Lemma moves_refl (st : State) : moves st st.
Proof.
  exists []. unfold moved_over. cbn [app length Z.of_nat].
  repeat split; try lia. left. reflexivity.
Qed.

Lemma moves_trans (a b c : State) : moves a b -> moves b c -> moves a c.
Proof.
  intros (p1 & I1 & P1 & R1 & M1) (p2 & I2 & P2 & R2 & M2).
  exists (p1 ++ p2). unfold moved_over.
  rewrite length_app, Nat2Z.inj_add, <- app_assoc, <- I2.
  repeat split; try congruence; try lia.
  destruct M2 as [M2 | (q & M2 & Hq)].
  - rewrite M2. destruct M1 as [M1 | (q & M1 & Hq)].
    + left. exact M1.
    + right. exists q. split; [exact M1 | lia].
  - right. exists q. split; [exact M2 | lia].
Qed.

Lemma moves_same_lexer (st st' : State) :
  lexer st' = lexer st -> moves st st'.
Proof.
  intros H. exists []. unfold moved_over. rewrite H.
  cbn [app length Z.of_nat]. repeat split; try lia. left. reflexivity.
Qed.

Lemma moves_advance (st : State) (b : bool) :
  moves st (with_lexer st (lexer_advance (lexer st) b)).
Proof.
  cbn. unfold lexer_advance.
  destruct (input (lexer st)) as [|c rest] eqn:E.
  - apply moves_same_lexer. reflexivity.
  - exists [c]. unfold moved_over.
    cbn [with_lexer lexer input position marked result_symbol app length].
    repeat split; try assumption; try lia. left. reflexivity.
Qed.

Lemma moves_r_ADVANCE (st y : State) : moves st y -> moves st (S_ADVANCE y).
Proof. intros H. eapply moves_trans; [exact H | apply moves_advance]. Qed.

Lemma moves_r_SKIP (st y : State) : moves st y -> moves st (S_SKIP y).
Proof. intros H. eapply moves_trans; [exact H | apply moves_advance]. Qed.

Lemma moves_r_MARK (st y : State) : moves st y -> moves st (MARK y).
Proof.
  intros H. eapply moves_trans; [exact H|].
  exists []. unfold moved_over.
  cbn [MARK with_lexer lexer lexer_mark_end input position marked
       result_symbol app length Z.of_nat].
  repeat split; try lia. right. exists (position (lexer y)).
  split; [reflexivity | lia].
Qed.

Lemma moves_r_pop (st y : State) : moves st y -> moves st (pop y).
Proof.
  intros H. eapply moves_trans; [exact H|]. apply moves_same_lexer.
  unfold pop. destruct (indent_exists y); reflexivity.
Qed.

Lemma moves_r_push (st y : State) (ind : Z) :
  moves st y -> moves st (push ind y).
Proof.
  intros H. eapply moves_trans; [exact H|]. apply moves_same_lexer.
  reflexivity.
Qed.

Lemma moves_short (st : State) (p : Result * State) (k : Rule) :
  moves st (snd p) -> (forall st1, moves st1 (snd (k st1))) ->
  moves st (snd (short p k)).
Proof.
  intros Hp Hk. destruct p as [r st1]. unfold short. cbn [snd] in Hp.
  destruct (finished r); [exact Hp|].
  eapply moves_trans; [exact Hp | apply Hk].
Qed.

Lemma moves_seq (s : list Z) (st : State) : moves st (snd (seq s st)).
Proof.
  revert st. induction s as [|c s IH]; intros st; cbn [seq].
  - apply moves_refl.
  - destruct (negb (c =? PEEK st)); [apply moves_refl|].
    eapply moves_trans; [apply moves_r_ADVANCE, moves_refl | apply IH].
Qed.

Lemma moves_token (s : list Z) (st : State) : moves st (snd (token s st)).
Proof.
  unfold token. pose proof (moves_seq s st) as H.
  destruct (seq s st) as [ok st1]. exact H.
Qed.

Ltac moves_leaf :=
  cbn [snd];
  repeat first
    [ assumption
    | apply moves_refl
    | apply moves_r_MARK
    | apply moves_r_ADVANCE
    | apply moves_r_SKIP
    | apply moves_r_pop
    | apply moves_r_push ].

Ltac moves_step :=
  match goal with
  | |- moves _ (snd (short _ _)) => apply moves_short; [| intro]
  | |- moves _ (snd (if ?b then _ else _)) => destruct b
  | |- moves _ _ => progress moves_leaf
  end.

Lemma moves_skipspace (fuel : nat) (st : State) :
  moves st (skipspace_loop fuel st).
Proof.
  revert st. induction fuel as [|fuel IH]; intros st; cbn [skipspace_loop].
  - apply moves_refl.
  - destruct ((PEEK st =? chr " ") || (PEEK st =? TAB));
      [|apply moves_refl].
    eapply moves_trans; [apply moves_r_SKIP, moves_refl | apply IH].
Qed.

Lemma moves_count_indent (fuel : nat) (indent : Z) (st : State) :
  moves st (snd (count_indent_loop fuel indent st)).
Proof.
  revert indent st.
  induction fuel as [|fuel IH]; intros indent st; cbn [count_indent_loop].
  - apply moves_refl.
  - destruct (is_newline (PEEK st));
      [eapply moves_trans; [apply moves_r_SKIP, moves_refl | apply IH]|].
    destruct (PEEK st =? chr " ");
      [eapply moves_trans; [apply moves_r_SKIP, moves_refl | apply IH]|].
    destruct (PEEK st =? TAB);
      [eapply moves_trans; [apply moves_r_SKIP, moves_refl | apply IH]|].
    apply moves_refl.
Qed.

Lemma moves_advance_to_eof (fuel : nat) (st : State) :
  moves st (advance_to_eof_loop fuel st).
Proof.
  revert st.
  induction fuel as [|fuel IH]; intros st; cbn [advance_to_eof_loop].
  - apply moves_refl.
  - destruct (negb (is_eof st)); [|apply moves_refl].
    eapply moves_trans; [apply moves_r_ADVANCE, moves_refl | apply IH].
Qed.

Lemma moves_inline_comment_loop (fuel : nat) (st : State) :
  moves st (inline_comment_loop fuel st).
Proof.
  revert st.
  induction fuel as [|fuel IH]; intros st; cbn [inline_comment_loop].
  - apply moves_refl.
  - destruct (is_newline (PEEK st) || (PEEK st =? 0));
      [apply moves_refl|].
    eapply moves_trans; [apply moves_r_ADVANCE, moves_refl | apply IH].
Qed.

Lemma layout_end_moves (st : State) : moves st (snd (layout_end st)).
Proof. unfold layout_end, finish, cont. repeat moves_step. Qed.

Lemma end_or_semicolon_moves (st : State) :
  moves st (snd (end_or_semicolon st)).
Proof.
  unfold end_or_semicolon. moves_step; [apply layout_end_moves|].
  unfold finish_if_valid, finish, cont. repeat moves_step.
Qed.

Lemma eof_moves (st : State) : moves st (snd (eof st)).
Proof.
  unfold eof, finish, cont, fail. moves_step; [|moves_leaf].
  moves_step; [moves_leaf|].
  moves_step; [apply end_or_semicolon_moves | moves_leaf].
Qed.

Lemma fold_moves (st : State) : moves st (snd (fold st)).
Proof.
  unfold fold, finish, cont, advance_to_eof.
  pose proof (moves_seq (codes "---") st) as H.
  destruct (seq (codes "---") st) as [ok st1]. cbn [snd] in H.
  destruct ok; cbn [snd]; [|exact H].
  apply moves_r_MARK. eapply moves_trans; [exact H|].
  apply moves_advance_to_eof.
Qed.

Lemma where_moves (st : State) : moves st (snd (where_ st)).
Proof.
  unfold where_, finish, cont.
  pose proof (moves_token (codes "where") st) as H.
  destruct (token (codes "where") st) as [ok st1]. cbn [snd] in H.
  destruct ok; [|moves_leaf].
  destruct (SYM WHERE st1); [moves_leaf|].
  eapply moves_trans; [exact H | apply layout_end_moves].
Qed.

Lemma in_moves (st : State) : moves st (snd (in_ st)).
Proof.
  unfold in_, finish, cont. moves_step; [|moves_leaf].
  pose proof (moves_token (codes "in") st) as H.
  destruct (token (codes "in") st) as [ok st1]. cbn [snd] in H.
  destruct ok; moves_leaf.
Qed.

Lemma else_moves (st : State) : moves st (snd (else_ st)).
Proof.
  unfold else_, cont.
  pose proof (moves_token (codes "else") st) as H.
  destruct (token (codes "else") st) as [ok st1]. cbn [snd] in H.
  destruct ok; [|moves_leaf].
  eapply moves_trans; [exact H | apply layout_end_moves].
Qed.

Lemma inline_comment_moves (st : State) :
  moves st (snd (inline_comment st)).
Proof.
  unfold inline_comment, finish. cbn [snd]. apply moves_r_MARK.
  apply moves_inline_comment_loop.
Qed.

Lemma minus_moves (st : State) : moves st (snd (minus st)).
Proof.
  unfold minus, finish, cont, fail, advance_to_eof.
  pose proof (moves_seq (codes "--") st) as H.
  destruct (seq (codes "--") st) as [ok st1]. cbn [snd] in H.
  destruct ok; cbn [negb]; [|moves_leaf].
  destruct (PEEK st1 =? chr "-");
    [|eapply moves_trans; [exact H | apply inline_comment_moves]].
  destruct (is_eof (S_ADVANCE st1) || is_newline (PEEK (S_ADVANCE st1)));
    [|moves_leaf].
  cbn [snd]. apply moves_r_MARK.
  eapply moves_trans; [apply moves_r_ADVANCE; exact H|].
  apply moves_advance_to_eof.
Qed.

Lemma multiline_comment_loop_moves (fuel : nat) (level : Z) (st : State) :
  moves st (snd (multiline_comment_loop fuel level st)).
Proof.
  revert level st. induction fuel as [|fuel IH]; intros level st;
    [unfold multiline_comment_loop, fail; moves_leaf|].
  rewrite multiline_comment_loop_S.
  destruct (PEEK st =? chr "{").
  { destruct (PEEK (S_ADVANCE st) =? chr "-");
      (eapply moves_trans; [|apply IH]); moves_leaf. }
  destruct (PEEK st =? chr "-").
  { destruct (PEEK (S_ADVANCE st) =? chr "}");
      [|eapply moves_trans; [|apply IH]; moves_leaf].
    destruct (level =? 0);
      [unfold multiline_comment_success, finish; moves_leaf|].
    eapply moves_trans; [|apply IH]. moves_leaf. }
  destruct (PEEK st =? 0).
  - moves_step; [apply eof_moves | unfold fail; moves_leaf].
  - eapply moves_trans; [|apply IH]. moves_leaf.
Qed.

Lemma brace_moves (st : State) : moves st (snd (brace st)).
Proof.
  unfold brace, fail, multiline_comment.
  destruct (negb (PEEK st =? chr "{")); [moves_leaf|].
  destruct (negb (PEEK (S_ADVANCE st) =? chr "-")); [moves_leaf|].
  eapply moves_trans; [|apply multiline_comment_loop_moves]. moves_leaf.
Qed.

Lemma comment_moves (st : State) : moves st (snd (comment st)).
Proof.
  unfold comment, fail, cont.
  destruct (PEEK st =? chr "-");
    [moves_step; [apply minus_moves | moves_leaf]|].
  destruct (PEEK st =? chr "{"); [|moves_leaf].
  moves_step; [apply brace_moves | moves_leaf].
Qed.

Lemma close_layout_in_list_moves (st : State) :
  moves st (snd (close_layout_in_list st)).
Proof.
  unfold close_layout_in_list, finish, cont, fail.
  destruct (PEEK st =? chr "]"); [repeat moves_step|].
  destruct (PEEK st =? chr ","); [|moves_leaf].
  destruct (SYM COMMA (S_ADVANCE st)); [moves_leaf|].
  moves_step; [|moves_leaf].
  eapply moves_trans; [|apply layout_end_moves]. moves_leaf.
Qed.

Lemma inline_tokens_moves (st : State) : moves st (snd (inline_tokens st)).
Proof.
  unfold inline_tokens, fail.
  destruct (PEEK st =? chr "w");
    [moves_step; [apply where_moves | moves_leaf]|].
  destruct (PEEK st =? chr "i");
    [moves_step; [apply in_moves | moves_leaf]|].
  destruct (PEEK st =? chr "e");
    [moves_step; [apply else_moves | moves_leaf]|].
  destruct (PEEK st =? chr ")");
    [moves_step; [apply layout_end_moves | moves_leaf]|].
  apply close_layout_in_list_moves.
Qed.

Lemma layout_start_moves (column : Z) (st : State) :
  moves st (snd (layout_start column st)).
Proof. unfold layout_start, finish, cont. repeat moves_step. Qed.

Lemma post_end_semicolon_moves (column : Z) (st : State) :
  moves st (snd (post_end_semicolon column st)).
Proof. unfold post_end_semicolon, finish, cont. repeat moves_step. Qed.

Lemma repeat_end_moves (column : Z) (st : State) :
  moves st (snd (repeat_end column st)).
Proof.
  unfold repeat_end, cont.
  destruct (SYM END st && smaller_indent column st);
    [apply layout_end_moves | moves_leaf].
Qed.

Lemma immediate_moves (column : Z) (st : State) :
  moves st (snd (immediate column st)).
Proof.
  unfold immediate.
  moves_step; [apply layout_start_moves|].
  moves_step; [apply post_end_semicolon_moves|].
  moves_step; [apply repeat_end_moves | apply inline_tokens_moves].
Qed.

Lemma newline_token_moves (indent : Z) (st : State) :
  moves st (snd (newline_token indent st)).
Proof.
  unfold newline_token, fail, cont.
  destruct (PEEK st =? chr "-"); [apply minus_moves|].
  destruct (symbolic (PEEK st) || (PEEK st =? chr "`")); [moves_leaf|].
  destruct (PEEK st =? chr "i"); [apply in_moves | moves_leaf].
Qed.

Lemma dedent_moves (indent : Z) (st : State) :
  moves st (snd (dedent indent st)).
Proof.
  unfold dedent, cont.
  destruct (smaller_indent indent st);
    [apply layout_end_moves | moves_leaf].
Qed.

Lemma newline_semicolon_moves (indent : Z) (st : State) :
  moves st (snd (newline_semicolon indent st)).
Proof. unfold newline_semicolon, finish, cont. repeat moves_step. Qed.

Lemma newline_moves (indent : Z) (st : State) :
  moves st (snd (newline indent st)).
Proof.
  unfold newline. moves_step; [apply eof_moves|].
  moves_step; [apply comment_moves|].
  moves_step; [apply newline_token_moves|].
  unfold newline_indent. moves_step; [apply dedent_moves|].
  moves_step;
    [apply close_layout_in_list_moves | apply newline_semicolon_moves].
Qed.

Lemma scan_main_tail_moves (st : State) :
  moves st
    (snd (if is_newline (PEEK st)
          then let state := S_SKIP st in
               let (indent, state) := count_indent state in
               newline indent state
          else immediate (column st) st)).
Proof.
  destruct (is_newline (PEEK st)); [|apply immediate_moves].
  cbv zeta. unfold count_indent.
  pose proof (moves_count_indent (fuel_of (S_SKIP st)) 0 (S_SKIP st)) as H.
  destruct (count_indent_loop (fuel_of (S_SKIP st)) 0 (S_SKIP st))
    as [indent st2].
  cbn [snd] in H.
  eapply moves_trans; [|apply newline_moves].
  eapply moves_trans; [|exact H]. moves_leaf.
Qed.

Lemma scan_main_moves (st : State) : moves st (snd (scan_main st)).
Proof.
  unfold scan_main, skipspace. cbv zeta.
  eapply moves_trans; [apply (moves_skipspace (fuel_of st) st)|].
  moves_step; [apply eof_moves|].
  eapply moves_trans; [apply moves_r_MARK, moves_refl|].
  apply scan_main_tail_moves.
Qed.

Lemma dot_moves (iswspace : Z -> bool) (st : State) :
  moves st (snd (dot iswspace st)).
Proof. unfold dot, finish, cont. repeat moves_step. Qed.

Lemma init_moves (iswspace : Z -> bool) (st : State) :
  moves st (snd (init iswspace st)).
Proof.
  unfold init, fail, cont. moves_step; [apply eof_moves|].
  moves_step; [repeat moves_step|].
  moves_step; [apply dot_moves|].
  moves_step; [|moves_leaf].
  moves_step; [apply fold_moves | moves_leaf].
Qed.

Lemma scan_all_moves (iswspace : Z -> bool) (st : State) :
  moves st (snd (scan_all iswspace st)).
Proof.
  unfold scan_all. moves_step; [apply init_moves | apply scan_main_moves].
Qed.

(** X17: in every scan call the lexer only moves forward.  What is left
    of the input after the call is a suffix of the input before it, the
    position has grown by the number of code points consumed, the mark is
    either the one the lexer had or lies between the old and the new
    position, and a call that returns false leaves the result symbol as it
    was. *)
Theorem scan_moves_forward
  (iswspace : Z -> bool) (v : indent_vec) (l : TSLexer) (syms : Sym -> bool) :
  let out := tree_sitter_unison_external_scanner_scan iswspace v l syms in
  let l' := snd (fst out) in
  exists consumed : list Z,
    input l = consumed ++ input l'
    /\ position l' = position l + Z.of_nat (length consumed)
    /\ (marked l' = marked l
        \/ exists p, marked l' = Some p /\ position l <= p <= position l')
    /\ (fst (fst out) = false -> result_symbol l' = result_symbol l).
Proof.
  intros out l'. subst l' out.
  unfold tree_sitter_unison_external_scanner_scan, eval.
  set (st := {| lexer := l; symbols := syms; indents := v |}).
  destruct (scan_all_moves iswspace st) as (pre & I & P & R & M).
  destruct (scan_all iswspace st) as [r st1]. cbn [snd] in I, P, R, M.
  exists pre.
  destruct (finished r && negb (Sym_eqb (sym r) FAIL));
    cbn [fst snd with_lexer lexer set_result_symbol input position marked
         result_symbol];
    (split; [exact I | split; [exact P | split; [exact M |]]]);
    intros H; [discriminate H | exact R].
Qed.

(** ** The inline path *)

Lemma inline_tokens_other (st : State) :
  ~ In (PEEK st) (codes "wie)],") -> inline_tokens st = (res_cont, st).
Proof.
  intros Hc. unfold inline_tokens, close_layout_in_list, cont.
  repeat match goal with
  | |- context [PEEK st =? ?x] =>
      let E := fresh "E" in
      destruct (PEEK st =? x) eqn:E;
      [apply Z.eqb_eq in E; exfalso; apply Hc; rewrite E; cbn; tauto|]
  end.
  reflexivity.
Qed.

(** X18: the off-side rule within a line.  A scan call, with START not
    requested, finds blanks and then a code point at column [column] that
    no inline rule reads.  If SEMICOLON is requested and the stack is not
    empty with [column] at or below its top, the call returns true with
    SEMICOLON and leaves the stack; otherwise, if END is requested and
    [column] is below the top, it returns true with END and pops;
    otherwise it returns false.  SEMICOLON thus goes before END, the
    blanks alone are consumed and the end is marked behind them.
    A pop takes exactly the top entry off. *)
Theorem scan_inline_semicolon_or_end
  (iswspace : Z -> bool) (v : indent_vec) (l : TSLexer) (syms : Sym -> bool)
  (ws : list Z) (c : Z) (k : list Z) :
  syms START = false ->
  input l = ws ++ c :: k ->
  Forall (fun b => is_blank b = true) ws ->
  is_blank c = false -> is_newline c = false ->
  hd 0 (input l) <> chr "." -> hd 0 (input l) <> chr "-" ->
  ~ In c (codes "wie)],") ->
  let column := col l + Z.of_nat (length ws) in
  let semi := syms SEMICOLON
              && (negb (len v =? 0) && (column <=? VEC_BACK v)) in
  let close := syms END && (negb (len v =? 0) && (column <? VEC_BACK v)) in
  let out := tree_sitter_unison_external_scanner_scan iswspace v l syms in
  fst (fst out) = semi || close
  /\ (semi = true -> result_symbol (snd (fst out)) = Some SEMICOLON)
  /\ (semi = false -> close = true ->
      result_symbol (snd (fst out)) = Some END)
  /\ snd out = (if negb semi && close then VEC_POP v else v)
  /\ input (snd (fst out)) = c :: k
  /\ marked (snd (fst out)) = Some (position l + Z.of_nat (length ws))
  /\ (semi = false -> close = true ->
      len (snd out) = wrap32 (len v - 1) /\ cap (snd out) = cap v
      /\ data (snd out) = data v)
  /\ (semi = false -> close = true -> vec_wf v ->
      len (snd out) = len v - 1
      /\ entries v = entries (snd out) ++ [VEC_BACK v]).
Proof.
  intros Hreq Hin Hws Hb Hn Hdot Hdash Hc column semi close out.
  assert (Hold :
    fst (fst out) = semi || close
    /\ (semi = true -> result_symbol (snd (fst out)) = Some SEMICOLON)
    /\ (semi = false -> close = true ->
        result_symbol (snd (fst out)) = Some END)
    /\ snd out = (if negb semi && close then VEC_POP v else v)
    /\ input (snd (fst out)) = c :: k
    /\ marked (snd (fst out)) = Some (position l + Z.of_nat (length ws))).
  { subst out.
    set (st := {| lexer := l; symbols := syms; indents := v |}).
    assert (Hall : after_error st = false).
    { unfold after_error, all_syms, upto_EMPTY. cbn [forallb st symbols].
      rewrite Hreq. destruct (syms SEMICOLON); reflexivity. }
    assert (Hinit : init iswspace st = (res_cont, st)).
    { apply init_passes; try assumption.
      unfold is_eof, lexer_eof. cbn [lexer st]. rewrite Hin.
      destruct ws; reflexivity. }
    rewrite (scan_after_init iswspace v l syms Hinit). fold st.
    destruct (scan_main_inline st ws c k Hin Hws Hb Hn) as [Hmain Hin1].
    destruct (lexer_skip ws st _ Hin (is_blank_not_LF ws Hws))
      as (_ & H2 & _).
    unfold eval. rewrite Hmain.
    change (col (lexer st) + Z.of_nat (length ws)) with column.
    set (st1 := MARK (skip (length ws) st)) in *.
    assert (Hsym : forall s, SYM s st1 = syms s).
    { intros s. unfold SYM.
      change (symbols st1) with (symbols (skip (length ws) st)).
      rewrite (proj1 (frame_skip (length ws) st)). reflexivity. }
    assert (Hind : indents st1 = v).
    { change (indents st1) with (indents (skip (length ws) st)).
      rewrite (proj2 (frame_skip (length ws) st)). reflexivity. }
    assert (Hmark : marked (lexer st1)
                    = Some (position l + Z.of_nat (length ws))).
    { unfold st1. cbn [MARK with_lexer lexer lexer_mark_end marked].
      rewrite H2. reflexivity. }
    assert (Hpeek : PEEK st1 = c)
      by (unfold PEEK, lookahead; rewrite Hin1; reflexivity).
    assert (H1 : layout_start column st1 = (res_cont, st1))
      by (unfold layout_start, cont; rewrite Hsym, Hreq; reflexivity).
    assert (H3 : post_end_semicolon column st1
                 = if semi then (res_finish SEMICOLON, st1)
                   else (res_cont, st1)).
    { unfold post_end_semicolon, indent_lesseq, indent_exists, finish, cont.
      rewrite Hsym, Hind. reflexivity. }
    assert (H4 : repeat_end column st1
                 = if close then (res_finish END, pop st1)
                   else (res_cont, st1)).
    { unfold repeat_end, layout_end, smaller_indent, indent_exists, finish,
        cont.
      rewrite Hsym, Hind. fold close. destruct close eqn:Ec; [|reflexivity].
      subst close. apply andb_prop in Ec. rewrite (proj1 Ec). reflexivity. }
    assert (H5 : inline_tokens st1 = (res_cont, st1))
      by (apply inline_tokens_other; rewrite Hpeek; exact Hc).
    assert (Hpop : close = true -> indents (pop st1) = VEC_POP v
                                   /\ lexer (pop st1) = lexer st1).
    { intros Ec. subst close. apply andb_prop in Ec. destruct Ec as [_ Ec].
      apply andb_prop in Ec. destruct Ec as [Ec _].
      unfold pop, indent_exists. rewrite Hind, Ec.
      cbn [with_indents indents lexer]. split; reflexivity. }
    unfold immediate. rewrite H1. cbn [short res_cont finished].
    rewrite H3.
    clearbody semi st1 column. destruct semi.
    { cbn [short res_finish finished sym Sym_eqb negb andb orb fst snd
           with_lexer lexer indents set_result_symbol result_symbol input
           marked].
      repeat split; try assumption; discriminate. }
    cbn [short res_cont finished]. rewrite H4.
    destruct close.
    { destruct (Hpop eq_refl) as [Hp1 Hp2].
      cbn [short res_finish finished sym Sym_eqb negb andb orb fst snd
           with_lexer lexer indents set_result_symbol result_symbol input
           marked].
      rewrite Hp1, Hp2. repeat split; try assumption; discriminate. }
    cbn [short res_cont finished]. rewrite H5.
    cbn [res_cont finished sym Sym_eqb negb andb orb fst snd].
    repeat split; try assumption; discriminate. }
  destruct Hold as (A1 & A2 & A3 & A4 & A5 & A6).
  split; [exact A1|]. split; [exact A2|]. split; [exact A3|].
  split; [exact A4|]. split; [exact A5|]. split; [exact A6|].
  rewrite A4. split.
  - intros Hs Hcl. rewrite Hs, Hcl. repeat split.
  - intros Hs Hcl Hwf. rewrite Hs, Hcl. apply VEC_POP_entries; [exact Hwf|].
    subst close. destruct (len v =? 0) eqn:E0;
      [rewrite andb_false_r in Hcl; discriminate Hcl|].
    apply Z.eqb_neq. exact E0.
Qed.

(** * The further properties at concrete inputs *)

Lemma push_then_back_and_pop_witness :
  vec_wf (stack_of [0; 2]) /\ len (stack_of [0; 2]) < 2147483648
  /\ entries (VEC_PUSH (stack_of [0; 2]) 4) = entries (stack_of [0; 2]) ++ [4]
  /\ VEC_BACK (VEC_PUSH (stack_of [0; 2]) 4) = 4
  /\ len (VEC_PUSH (stack_of [0; 2]) 4) = len (stack_of [0; 2]) + 1
  /\ entries (VEC_POP (VEC_PUSH (stack_of [0; 2]) 4))
     = entries (stack_of [0; 2])
  /\ len (VEC_POP (VEC_PUSH (stack_of [0; 2]) 4)) = len (stack_of [0; 2]).
Proof.
  assert (Hwf : vec_wf (stack_of [0; 2])).
  { unfold vec_wf. cbn. repeat split; try lia.
    repeat constructor; lia. }
  split; [exact Hwf|]. split; [reflexivity|].
  apply (push_then_back_and_pop (stack_of [0; 2]) 4 Hwf). reflexivity.
Defined.

Lemma stack_stays_well_formed_witness :
  vec_wf (stack_of [0; 2]) /\ len (stack_of [0; 2]) < 2147483648
  /\ vec_wf tree_sitter_unison_external_scanner_create
  /\ vec_wf (snd (tree_sitter_unison_external_scanner_scan isws
                    (stack_of [0; 2]) (lexer_at (codes "    x"))
                    (requested [START]))).
Proof.
  assert (Hwf : vec_wf (stack_of [0; 2])).
  { unfold vec_wf. cbn. repeat split; try lia.
    repeat constructor; lia. }
  split; [exact Hwf|]. split; [reflexivity|].
  apply (stack_stays_well_formed isws (stack_of [0; 2])
           (lexer_at (codes "    x")) (requested [START]) Hwf).
  reflexivity.
Defined.

Lemma serialize_layout_witness :
  vec_wf (stack_of [0; 2; 300]) /\ len (stack_of [0; 2; 300]) <= 512
  /\ 2 * len (stack_of [0; 2; 300]) <= Z.of_nat (length (repeat 9 8))
  /\ (let out := tree_sitter_unison_external_scanner_serialize
                   (stack_of [0; 2; 300]) (repeat 9 8) in
      let n := Z.to_nat (fst out) in
      fst out = 2 * len (stack_of [0; 2; 300])
      /\ length (snd out) = length (repeat 9 8)
      /\ firstn n (snd out)
         = flat_map bytes_of_cell (entries (stack_of [0; 2; 300]))
      /\ skipn n (snd out) = skipn n (repeat 9 8)
      /\ Forall (fun b => 0 <= b < 256) (firstn n (snd out))
      /\ cells_of (firstn n (snd out)) = entries (stack_of [0; 2; 300])).
Proof.
  assert (Hwf : vec_wf (stack_of [0; 2; 300])).
  { unfold vec_wf. cbn. repeat split; try lia.
    repeat constructor; lia. }
  split; [exact Hwf|]. split; [cbn; lia|]. split; [cbn; lia|].
  apply (serialize_layout (stack_of [0; 2; 300]) (repeat 9 8) Hwf);
    cbn; lia.
Defined.

Lemma deserialize_from_buffer_witness :
  vec_wf (stack_of [7])
  /\ Forall (fun b => 0 <= b < 256) [0; 0; 2; 0; 44; 1; 9; 9]
  /\ 0 < 6 < 4294967296 /\ 6 mod 2 = 0
  /\ 6 <= Z.of_nat (length [0; 0; 2; 0; 44; 1; 9; 9])
  /\ (let w' := tree_sitter_unison_external_scanner_deserialize
                  (stack_of [7]) [0; 0; 2; 0; 44; 1; 9; 9] 6 in
      vec_wf w'
      /\ len w' = 6 / 2
      /\ cap w' = Z.max (cap (stack_of [7])) (6 / 2)
      /\ entries w' = cells_of (firstn (Z.to_nat 6)
                                  [0; 0; 2; 0; 44; 1; 9; 9])).
Proof.
  assert (Hwf : vec_wf (stack_of [7])).
  { unfold vec_wf. cbn. repeat split; try lia.
    repeat constructor; lia. }
  assert (Hb : Forall (fun b => 0 <= b < 256) [0; 0; 2; 0; 44; 1; 9; 9])
    by (repeat constructor; lia).
  split; [exact Hwf|]. split; [exact Hb|]. split; [lia|].
  split; [reflexivity|]. split; [cbn; lia|].
  apply (deserialize_from_buffer (stack_of [7]) [0; 0; 2; 0; 44; 1; 9; 9] 6
           Hwf Hb); [lia | reflexivity | cbn; lia].
Defined.

Lemma seq_consumes_common_prefix_witness :
  let st := {| lexer := lexer_at (codes "when x"); symbols := requested [];
               indents := stack_of [] |} in
  Forall (fun c => c <> 0) (codes "where")
  /\ snd (seq (codes "where") st)
     = consume (length (common_prefix (codes "where") (input (lexer st)))) st
  /\ (fst (seq (codes "where") st) = true
      <-> exists k, input (lexer st) = codes "where" ++ k)
  /\ (forall k, input (lexer st) = codes "where" ++ k ->
      seq (codes "where") st = (true, consume (length (codes "where")) st)
      /\ input (lexer (snd (seq (codes "where") st))) = k).
Proof.
  intros st.
  assert (Hs : Forall (fun c => c <> 0) (codes "where"))
    by (repeat constructor; discriminate).
  split; [exact Hs|].
  apply (seq_consumes_common_prefix (codes "where") st Hs).
Defined.

Lemma token_needs_terminator_witness :
  let st := {| lexer := lexer_at (codes "in x"); symbols := requested [];
               indents := stack_of [] |} in
  Forall (fun c => c <> 0) (codes "in")
  /\ input (lexer st) = codes "in" ++ codes " x"
  /\ token (codes "in") st
     = (token_end (hd 0 (codes " x")), consume (length (codes "in")) st)
  /\ (fst (token (codes "in") st) = true <->
      isws (hd 0 (codes " x")) = true \/ codes " x" = []
      \/ hd 0 (codes " x") = 0
      \/ In (hd 0 (codes " x")) (codes "()[]")).
Proof.
  intros st.
  assert (Hs : Forall (fun c => c <> 0) (codes "in"))
    by (repeat constructor; discriminate).
  split; [exact Hs|]. split; [reflexivity|].
  apply (token_needs_terminator (codes "in") (codes " x") st Hs).
  reflexivity.
Defined.

Lemma in_keyword_witness :
  let st := {| lexer := lexer_at (codes "in x"); symbols := requested [IN];
               indents := stack_of [0; 4] |} in
  input (lexer st) = codes "in" ++ codes " x"
  /\ fst (in_ st) = res_finish IN
  /\ marked (lexer (snd (in_ st))) = Some 2
  /\ input (lexer (snd (in_ st))) = codes " x"
  /\ position (lexer (snd (in_ st))) = 2
  /\ indents (snd (in_ st)) = {| len := 1; cap := 2; data := [0; 4] |}
  /\ entries (indents (snd (in_ st))) = [0].
Proof.
  intros st.
  assert (Hin : input (lexer st) = codes "in" ++ codes " x") by reflexivity.
  destruct (in_keyword st (codes " x") Hin) as (E & H2 & H3).
  destruct (H2 eq_refl eq_refl) as (A1 & A2 & A3).
  destruct (H3 eq_refl eq_refl) as (B1 & _ & _ & _).
  split; [exact Hin|]. split; [rewrite E; reflexivity|].
  split; [exact A1|]. split; [exact A2|]. split; [exact B1|].
  split; [exact A3 | rewrite A3; reflexivity].
Defined.

Lemma where_and_else_keywords_witness :
  let st := {| lexer := lexer_at (codes "where x");
               symbols := requested [WHERE]; indents := stack_of [0; 4] |} in
  let st2 := {| lexer := lexer_at (codes "else y");
                symbols := requested [END]; indents := stack_of [0; 4] |} in
  input (lexer st) = codes "where" ++ codes " x"
  /\ fst (where_ st) = res_finish WHERE
  /\ input (lexer (snd (where_ st))) = codes " x"
  /\ position (lexer (snd (where_ st))) = 5
  /\ marked (lexer (snd (where_ st))) = Some 5
  /\ indents (snd (where_ st)) = stack_of [0; 4]
  /\ input (lexer st2) = codes "else" ++ codes " y"
  /\ fst (else_ st2) = res_finish END
  /\ input (lexer (snd (else_ st2))) = codes " y"
  /\ position (lexer (snd (else_ st2))) = 4
  /\ len (indents (snd (else_ st2))) = 1
  /\ entries (indents (snd (else_ st2))) = [0].
Proof.
  intros st st2.
  assert (Hin : input (lexer st) = codes "where" ++ codes " x")
    by reflexivity.
  assert (Hin2 : input (lexer st2) = codes "else" ++ codes " y")
    by reflexivity.
  destruct (where_and_else_keywords st (codes " x"))
    as (Ew & _ & Hw & _).
  destruct (where_and_else_keywords st2 (codes " y"))
    as (_ & Ee & _ & He).
  destruct (Hw Hin eq_refl) as (A1 & A2 & A3 & _).
  destruct (A3 eq_refl) as (A4 & A5).
  destruct (He Hin2 eq_refl) as (B1 & B2 & B3).
  destruct (B3 eq_refl) as (_ & B4 & _).
  assert (Hne : len (indents st2) <> 0) by discriminate.
  destruct (B4 Hne) as (B5 & _ & B6).
  split; [exact Hin|]. split; [rewrite (Ew Hin); reflexivity|].
  split; [exact A1|]. split; [exact A2|]. split; [exact A4|].
  split; [exact A5|]. split; [exact Hin2|].
  split; [rewrite (Ee Hin2); reflexivity|].
  split; [exact B1|]. split; [exact B2|]. split; [exact B5|].
  unfold entries. rewrite B5, B6. reflexivity.
Defined.

Lemma skipspace_skips_blanks_witness :
  let st := {| lexer := lexer_at (chr " " :: TAB :: codes "x y");
               symbols := requested []; indents := stack_of [] |} in
  input (lexer st) = [chr " "; TAB] ++ codes "x y"
  /\ Forall (fun c => is_blank c = true) [chr " "; TAB]
  /\ is_blank (hd 0 (codes "x y")) = false
  /\ skipspace st = skip 2 st
  /\ input (lexer (skipspace st)) = codes "x y"
  /\ position (lexer (skipspace st)) = position (lexer st) + 2
  /\ col (lexer (skipspace st)) = col (lexer st) + 2
  /\ ([chr " "; TAB] <> [] ->
      token_start (lexer (skipspace st)) = position (lexer (skipspace st)))
  /\ marked (lexer (skipspace st)) = marked (lexer st)
  /\ symbols (skipspace st) = symbols st
  /\ indents (skipspace st) = indents st.
Proof.
  intros st.
  assert (Hws : Forall (fun c => is_blank c = true) [chr " "; TAB])
    by (repeat constructor).
  split; [reflexivity|]. split; [exact Hws|]. split; [reflexivity|].
  apply (skipspace_skips_blanks [chr " "; TAB] (codes "x y") st);
    [reflexivity | exact Hws | reflexivity].
Defined.

Lemma count_indent_measures_last_line_witness :
  let st := {| lexer := lexer_at (chr " " :: LF :: TAB :: codes " x");
               symbols := requested []; indents := stack_of [] |} in
  input (lexer st) = [chr " "; LF] ++ [TAB; chr " "] ++ codes "x"
  /\ Forall (fun c => is_indent c = true) [chr " "; LF]
  /\ ([chr " "; LF] = [] \/ is_newline (last [chr " "; LF] 0) = true)
  /\ Forall (fun c => is_blank c = true) [TAB; chr " "]
  /\ is_indent (hd 0 (codes "x")) = false
  /\ count_indent st = (9, skip 4 st)
  /\ input (lexer (snd (count_indent st))) = codes "x".
Proof.
  intros st.
  assert (Hpre : Forall (fun c => is_indent c = true) [chr " "; LF])
    by (repeat constructor).
  assert (Hline : Forall (fun c => is_blank c = true) [TAB; chr " "])
    by (repeat constructor).
  assert (Hlast : [chr " "; LF] = []
                  \/ is_newline (last [chr " "; LF] 0) = true)
    by (right; reflexivity).
  split; [reflexivity|]. split; [exact Hpre|]. split; [exact Hlast|].
  split; [exact Hline|]. split; [reflexivity|].
  apply (count_indent_measures_last_line
           [chr " "; LF] [TAB; chr " "] (codes "x") st);
    [reflexivity | exact Hpre | exact Hlast | exact Hline | reflexivity].
Defined.

Lemma inline_comment_runs_to_end_of_line_witness :
  let st := {| lexer := lexer_at (codes " hi" ++ LF :: codes "x");
               symbols := requested []; indents := stack_of [2] |} in
  input (lexer st) = codes " hi" ++ LF :: codes "x"
  /\ Forall (fun c => is_newline c || (c =? 0) = false) (codes " hi")
  /\ (LF :: codes "x" = [] \/ is_newline (hd 0 (LF :: codes "x")) = true
      \/ hd 0 (LF :: codes "x") = 0)
  /\ inline_comment st = (res_finish COMMENT, MARK (consume 3 st))
  /\ input (lexer (snd (inline_comment st))) = LF :: codes "x"
  /\ marked (lexer (snd (inline_comment st)))
     = Some (position (lexer st) + 3)
  /\ indents (snd (inline_comment st)) = indents st.
Proof.
  intros st.
  assert (Hb : Forall (fun c => is_newline c || (c =? 0) = false)
                 (codes " hi"))
    by (repeat constructor).
  assert (Hk : LF :: codes "x" = []
               \/ is_newline (hd 0 (LF :: codes "x")) = true
               \/ hd 0 (LF :: codes "x") = 0)
    by (right; left; reflexivity).
  split; [reflexivity|]. split; [exact Hb|]. split; [exact Hk|].
  apply (inline_comment_runs_to_end_of_line (codes " hi") (LF :: codes "x")
           st); [reflexivity | exact Hb | exact Hk].
Defined.

Lemma minus_comment_or_fold_witness :
  let st := {| lexer := lexer_at (codes "-- hi" ++ LF :: codes "x");
               symbols := requested []; indents := stack_of [2] |} in
  let st2 := {| lexer := lexer_at (codes "---" ++ LF :: codes "x");
                symbols := requested []; indents := stack_of [2] |} in
  input (lexer st) = codes "--" ++ codes " hi" ++ LF :: codes "x"
  /\ hd 0 (codes " hi" ++ LF :: codes "x") <> chr "-"
  /\ Forall (fun c => is_newline c || (c =? 0) = false) (codes " hi")
  /\ minus st = inline_comment (consume 2 st)
  /\ fst (minus st) = res_finish COMMENT
  /\ input (lexer (snd (minus st))) = LF :: codes "x"
  /\ marked (lexer (snd (minus st))) = Some 5
  /\ indents (snd (minus st)) = stack_of [2]
  /\ input (lexer st2) = codes "---" ++ LF :: codes "x"
  /\ fst (minus st2) = res_finish FOLD
  /\ input (lexer (snd (minus st2))) = []
  /\ marked (lexer (snd (minus st2))) = Some 5
  /\ indents (snd (minus st2)) = stack_of [2].
Proof.
  intros st st2.
  assert (Hin : input (lexer st)
                = codes "--" ++ codes " hi" ++ LF :: codes "x")
    by reflexivity.
  assert (Hk : hd 0 (codes " hi" ++ LF :: codes "x") <> chr "-")
    by discriminate.
  assert (Hb : Forall (fun c => is_newline c || (c =? 0) = false)
                 (codes " hi"))
    by (repeat constructor).
  assert (Hend : LF :: codes "x" = []
                 \/ is_newline (hd 0 (LF :: codes "x")) = true
                 \/ hd 0 (LF :: codes "x") = 0)
    by (right; left; reflexivity).
  assert (Hin2 : input (lexer st2) = codes "---" ++ LF :: codes "x")
    by reflexivity.
  destruct (minus_comment_or_fold st (codes " hi" ++ LF :: codes "x"))
    as (C1 & _ & C3 & _).
  destruct (C3 (codes " hi") (LF :: codes "x") eq_refl Hin Hk Hb Hend)
    as (A1 & A2 & A3 & A4).
  destruct (minus_comment_or_fold st2 (LF :: codes "x"))
    as (_ & _ & _ & C4).
  destruct (C4 Hin2 eq_refl) as (B1 & B2 & B3 & B4).
  split; [exact Hin|]. split; [exact Hk|]. split; [exact Hb|].
  split; [exact (C1 Hin Hk)|].
  split; [exact A1|]. split; [exact A2|]. split; [exact A3|].
  split; [exact A4|]. split; [exact Hin2|].
  split; [exact B1|]. split; [exact B2|]. split; [exact B3 | exact B4].
Defined.

Lemma scan_fold_marker_witness :
  let out := tree_sitter_unison_external_scanner_scan isws (stack_of [0])
               (lexer_at (codes "--- rest")) (requested [FOLD]) in
  requested [FOLD] FOLD = true /\ all_syms (requested [FOLD]) = false
  /\ input (lexer_at (codes "--- rest")) = codes "---" ++ codes " rest"
  /\ fst (fst out) = true
  /\ result_symbol (snd (fst out)) = Some FOLD
  /\ input (snd (fst out)) = []
  /\ marked (snd (fst out)) = Some 8
  /\ snd out = stack_of [0].
Proof.
  intros out.
  split; [reflexivity|]. split; [reflexivity|]. split; [reflexivity|].
  apply (scan_fold_marker isws (stack_of [0]) (lexer_at (codes "--- rest"))
           (requested [FOLD]) (codes " rest")); reflexivity.
Defined.

Lemma scan_opens_layout_at_column_witness :
  let l := lexer_at (codes "  x = 1") in
  let out := tree_sitter_unison_external_scanner_scan isws (stack_of [0])
               l (requested [START]) in
  requested [START] START = true /\ all_syms (requested [START]) = false
  /\ input l = codes "  " ++ chr "x" :: codes " = 1"
  /\ Forall (fun b => is_blank b = true) (codes "  ")
  /\ is_blank (chr "x") = false /\ is_newline (chr "x") = false
  /\ hd 0 (input l) <> chr "." /\ hd 0 (input l) <> chr "-"
  /\ vec_wf (stack_of [0]) /\ len (stack_of [0]) < 2147483648
  /\ fst (fst out) = true
  /\ result_symbol (snd (fst out)) = Some START
  /\ input (snd (fst out)) = chr "x" :: codes " = 1"
  /\ marked (snd (fst out)) = Some 2
  /\ len (snd out) = 2 /\ cap (snd out) = 20
  /\ entries (snd out) = [0; 2]
  /\ VEC_BACK (snd out) = 2.
Proof.
  intros l out.
  assert (Hws : Forall (fun b => is_blank b = true) (codes "  "))
    by (repeat constructor).
  assert (Hdot : hd 0 (input l) <> chr ".") by discriminate.
  assert (Hdash : hd 0 (input l) <> chr "-") by discriminate.
  assert (Hwf : vec_wf (stack_of [0])).
  { unfold vec_wf. cbn. repeat split; try lia.
    repeat constructor; lia. }
  assert (Hbig : len (stack_of [0]) < 2147483648) by reflexivity.
  destruct (scan_opens_layout_at_column isws (stack_of [0]) l
              (requested [START]) (codes "  ") (chr "x") (codes " = 1")
              eq_refl eq_refl eq_refl Hws eq_refl eq_refl Hdot Hdash)
    as (A1 & A2 & A3 & A4 & A5 & _ & A7).
  destruct (A7 Hwf Hbig) as (B1 & B2 & B3).
  split; [reflexivity|]. split; [reflexivity|]. split; [reflexivity|].
  split; [exact Hws|]. split; [reflexivity|]. split; [reflexivity|].
  split; [exact Hdot|]. split; [exact Hdash|].
  split; [exact Hwf|]. split; [exact Hbig|].
  split; [exact A1|]. split; [exact A2|]. split; [exact A3|].
  split; [exact A4|]. split; [exact B1|].
  split; [exact (f_equal cap A5)|]. split; [exact B2 | exact B3].
Defined.

Lemma scan_off_side_rule_witness :
  let l := lexer_at (LF :: LF :: codes "  x") in
  let syms := requested [END; SEMICOLON] in
  let out := tree_sitter_unison_external_scanner_scan isws (stack_of [0; 4])
               l syms in
  all_syms syms = false
  /\ input l = [] ++ LF :: [LF] ++ codes "  " ++ chr "x" :: []
  /\ Forall (fun b => is_blank b = true) [] /\ is_newline LF = true
  /\ Forall (fun b => is_indent b = true) [LF]
  /\ ([LF] = [] \/ is_newline (last [LF] 0) = true)
  /\ Forall (fun b => is_blank b = true) (codes "  ")
  /\ ordinary (chr "x") = true
  /\ vec_wf (stack_of [0; 4])
  /\ fst (fst out) = true
  /\ result_symbol (snd (fst out)) = Some END
  /\ snd out = {| len := 1; cap := 2; data := [0; 4] |}
  /\ entries (snd out) = [0]
  /\ input (snd (fst out)) = [chr "x"].
Proof.
  intros l syms out.
  assert (Hws : Forall (fun b => is_blank b = true) []) by constructor.
  assert (Hpre : Forall (fun b => is_indent b = true) [LF])
    by (repeat constructor).
  assert (Hlast : [LF] = [] \/ is_newline (last [LF] 0) = true)
    by (right; reflexivity).
  assert (Hline : Forall (fun b => is_blank b = true) (codes "  "))
    by (repeat constructor).
  assert (Hwf : vec_wf (stack_of [0; 4])).
  { unfold vec_wf. cbn. repeat split; try lia.
    repeat constructor; lia. }
  destruct (scan_off_side_rule isws (stack_of [0; 4]) l syms
              [] LF [LF] (codes "  ") (chr "x") []
              eq_refl eq_refl Hws eq_refl Hpre Hlast Hline eq_refl)
    as (A1 & A2 & _ & A4 & A5 & _ & A7).
  destruct (A7 eq_refl Hwf) as (B1 & _).
  split; [reflexivity|]. split; [reflexivity|]. split; [exact Hws|].
  split; [reflexivity|]. split; [exact Hpre|]. split; [exact Hlast|].
  split; [exact Hline|]. split; [reflexivity|]. split; [exact Hwf|].
  split; [exact A1|]. split; [exact (A2 eq_refl)|].
  split; [exact A4|]. split; [exact (f_equal entries A4) | exact A5].
Defined.

Lemma scan_operator_line_witness :
  let l := lexer_at (LF :: codes "  + y") in
  let syms := requested [END; SEMICOLON] in
  let out := tree_sitter_unison_external_scanner_scan isws (stack_of [0; 4])
               l syms in
  all_syms syms = false
  /\ input l = [] ++ LF :: [] ++ codes "  " ++ chr "+" :: codes " y"
  /\ Forall (fun b => is_blank b = true) [] /\ is_newline LF = true
  /\ Forall (fun b => is_indent b = true) []
  /\ (@nil Z = [] \/ is_newline (last [] 0) = true)
  /\ Forall (fun b => is_blank b = true) (codes "  ")
  /\ symbolic (chr "+") || (chr "+" =? chr "`") = true
  /\ chr "+" <> chr "-"
  /\ fst (fst out) = false /\ snd out = stack_of [0; 4]
  /\ input (snd (fst out)) = chr "+" :: codes " y".
Proof.
  intros l syms out.
  assert (Hws : Forall (fun b => is_blank b = true) []) by constructor.
  assert (Hpre : Forall (fun b => is_indent b = true) []) by constructor.
  assert (Hlast : @nil Z = [] \/ is_newline (last [] 0) = true)
    by (left; reflexivity).
  assert (Hline : Forall (fun b => is_blank b = true) (codes "  "))
    by (repeat constructor).
  assert (Hdash : chr "+" <> chr "-") by discriminate.
  split; [reflexivity|]. split; [reflexivity|]. split; [exact Hws|].
  split; [reflexivity|]. split; [exact Hpre|]. split; [exact Hlast|].
  split; [exact Hline|]. split; [reflexivity|]. split; [exact Hdash|].
  apply (scan_operator_line isws (stack_of [0; 4]) l syms
           [] LF [] (codes "  ") (chr "+") (codes " y"));
    [reflexivity | reflexivity | exact Hws | reflexivity | exact Hpre
    | exact Hlast | exact Hline | reflexivity | exact Hdash].
Defined.

Lemma scan_inline_semicolon_or_end_witness :
  let l := lexer_at (codes "  x = 1") in
  let syms := requested [SEMICOLON; END] in
  let out := tree_sitter_unison_external_scanner_scan isws (stack_of [0; 4])
               l syms in
  let out2 := tree_sitter_unison_external_scanner_scan isws
                (stack_of [0; 4]) l (requested [END]) in
  syms START = false
  /\ input l = codes "  " ++ chr "x" :: codes " = 1"
  /\ Forall (fun b => is_blank b = true) (codes "  ")
  /\ is_blank (chr "x") = false /\ is_newline (chr "x") = false
  /\ hd 0 (input l) <> chr "." /\ hd 0 (input l) <> chr "-"
  /\ ~ In (chr "x") (codes "wie)],")
  /\ fst (fst out) = true
  /\ result_symbol (snd (fst out)) = Some SEMICOLON
  /\ snd out = stack_of [0; 4]
  /\ input (snd (fst out)) = chr "x" :: codes " = 1"
  /\ marked (snd (fst out)) = Some 2
  /\ fst (fst out2) = true
  /\ result_symbol (snd (fst out2)) = Some END
  /\ snd out2 = {| len := 1; cap := 2; data := [0; 4] |}
  /\ entries (snd out2) = [0]
  /\ marked (snd (fst out2)) = Some 2.
Proof.
  intros l syms out out2.
  assert (Hws : Forall (fun b => is_blank b = true) (codes "  "))
    by (repeat constructor).
  assert (Hdot : hd 0 (input l) <> chr ".") by discriminate.
  assert (Hdash : hd 0 (input l) <> chr "-") by discriminate.
  assert (Hc : ~ In (chr "x") (codes "wie)],"))
    by (cbn; intros H; repeat (destruct H as [H | H]; [discriminate H|]);
        exact H).
  destruct (scan_inline_semicolon_or_end isws (stack_of [0; 4]) l syms
              (codes "  ") (chr "x") (codes " = 1")
              eq_refl eq_refl Hws eq_refl eq_refl Hdot Hdash Hc)
    as (A1 & A2 & _ & A4 & A5 & A6 & _).
  destruct (scan_inline_semicolon_or_end isws (stack_of [0; 4]) l
              (requested [END]) (codes "  ") (chr "x") (codes " = 1")
              eq_refl eq_refl Hws eq_refl eq_refl Hdot Hdash Hc)
    as (B1 & _ & B3 & B4 & _ & B6 & _).
  split; [reflexivity|]. split; [reflexivity|]. split; [exact Hws|].
  split; [reflexivity|]. split; [reflexivity|].
  split; [exact Hdot|]. split; [exact Hdash|]. split; [exact Hc|].
  split; [exact A1|]. split; [exact (A2 eq_refl)|].
  split; [exact A4|]. split; [exact A5|]. split; [exact A6|].
  split; [exact B1|]. split; [exact (B3 eq_refl eq_refl)|].
  split; [exact B4|]. split; [exact (f_equal entries B4) | exact B6].
Defined.
